(** * Isometric block renderer: face resolution, grouping, compositing

    A shallow embedding of [render_isometric_blocks.py].  Texture names are
    strings, a Python [dict] is an insertion-ordered association list, and
    a [Path] is a list of path components.  Code that can raise returns a
    [result]; [main] and the job loop run in a monad of state (the file
    system and the console) and exceptions.  The calls into Pillow are
    modelled in the module [Pil]. *)

From Stdlib Require Import ZArith QArith Qround Qminmax Qabs Lia Lqa List Ascii String Bool.
From stdpp Require Import base tactics option list sorting gmap strings.

Local Open Scope string_scope.
Local Open Scope list_scope.

(** ** Strings *)

Module Str.

Lemma app_cons (c : ascii) (a b : string) :
  String c a +:+ b = String c (a +:+ b).
Proof. reflexivity. Qed.

Lemma app_nil_l (s : string) : "" +:+ s = s.
Proof. reflexivity. Qed.

Lemma app_nil_r (s : string) : s +:+ "" = s.
Proof.
  induction s as [|c s IH]; [reflexivity|].
  now rewrite app_cons, IH.
Qed.

Lemma app_assoc (a b c : string) : (a +:+ b) +:+ c = a +:+ (b +:+ c).
Proof.
  induction a as [|x a IH]; [reflexivity|].
  now rewrite !app_cons, IH.
Qed.

(** [s.startswith(p)], returning what follows the prefix. *)
Fixpoint strip_prefix (p s : string) : option string :=
  match p with
  | "" => Some s
  | String a p' =>
      match s with
      | "" => None
      | String b s' => if Ascii.eqb a b then strip_prefix p' s' else None
      end
  end.

Lemma strip_prefix_spec (p s rest : string) :
  strip_prefix p s = Some rest <-> s = p +:+ rest.
Proof.
  revert s; induction p as [|a p IH]; intros s; cbn.
  - rewrite app_nil_l. split; [intros [= ->] | intros ->]; reflexivity.
  - rewrite app_cons. destruct s as [|b s]; [split; discriminate|].
    destruct (Ascii.eqb_spec a b) as [->|Hne].
    + rewrite IH. split; [intros -> | intros [= ->]]; reflexivity.
    + split; [discriminate | intros [= E _]; congruence].
Qed.

(** [str.lower()] on the ASCII range: the letters [A]..[Z] are folded,
    every other byte is kept. *)
Definition lower_char (c : ascii) : ascii :=
  let n := nat_of_ascii c in
  if (65 <=? n)%nat && (n <=? 90)%nat then ascii_of_nat (n + 32) else c.

Fixpoint lower (s : string) : string :=
  match s with
  | "" => ""
  | String c s' => String (lower_char c) (lower s')
  end.

(** Last index of a character, [str.rfind(c)]; [None] is Python's [-1]. *)
Fixpoint rfind (c : ascii) (s : string) : option nat :=
  match s with
  | "" => None
  | String a s' =>
      match rfind c s' with
      | Some i => Some (S i)
      | None => if Ascii.eqb a c then Some 0%nat else None
      end
  end.

Fixpoint take (n : nat) (s : string) : string :=
  match n, s with
  | S n', String c s' => String c (take n' s')
  | _, _ => ""
  end.

(** [s.endswith(suf)] *)
Fixpoint ends_with (suf s : string) : bool :=
  (String.eqb suf s) ||
  match s with
  | "" => false
  | String _ s' => ends_with suf s'
  end.

End Str.

(** ** Regular expressions of the script

    [newline] is the only character that the anchor [$] treats specially:
    without [re.MULTILINE] it holds at the end of the text and just before
    a newline that ends the text. *)

Definition newline : ascii := "010"%char.

(** The character class [[_\-]]. *)
Definition is_delim (c : ascii) : bool :=
  Ascii.eqb c "_" || Ascii.eqb c "-".

(** The anchor [$], tried on the text that remains. *)
Definition at_dollar (rest : string) : bool :=
  match rest with
  | "" => true
  | String c "" => Ascii.eqb c newline
  | _ => false
  end.

(** The closing group [([_\-]|$)], tried on the text after the keyword. *)
Definition key_end (rest : string) : bool :=
  match rest with
  | "" => true
  | String c _ => is_delim c || at_dollar rest
  end.

(** [k([_\-]|$)] anchored at the current position. *)
Definition key_here (k s : string) : bool :=
  match Str.strip_prefix k s with
  | Some rest => key_end rest
  | None => false
  end.

(** Start positions after the first one: the opening group [(^|[_\-])]
    can only consume a delimiter there. *)
Fixpoint key_after_delim (k s : string) : bool :=
  match s with
  | "" => false
  | String c s' => (is_delim c && key_here k s') || key_after_delim k s'
  end.

(** [re.search(rf"(^|[_\-]){k}([_\-]|$)", stem)] as a truth value, for a
    keyword [k] made of literal characters (every keyword of the tables
    below is). *)
Definition key_search (k stem : string) : bool :=
  key_here k stem || key_after_delim k stem.

(** ** Keyword tables *)

Definition TOP_KEYS : list string := ["top"; "up"; "upper"].
Definition BOTTOM_KEYS : list string := ["bottom"; "down"; "lower"].
Definition SIDE_KEYS : list string := ["side"; "sides"].

Inductive direction := north | south | east | west.

Definition FACE_KEYS (d : direction) : list string :=
  match d with
  | north => ["north"]
  | south => ["south"]
  | east => ["east"]
  | west => ["west"]
  end.

(** ** Paths and dictionaries *)

(** A [pathlib.Path]: the list of its components below the file-system root. *)
Definition Path : Type := list string.

(** A Python [dict] keeps its keys in insertion order; [d[k] = v] replaces
    the value in place when [k] is present and appends otherwise. *)
Definition dict (V : Type) : Type := list (string * V).

Fixpoint dict_set {V} (d : dict V) (k : string) (v : V) : dict V :=
  match d with
  | [] => [(k, v)]
  | (k', v') :: d' =>
      if String.eqb k' k then (k', v) :: d' else (k', v') :: dict_set d' k v
  end.

Definition dict_values {V} (d : dict V) : list V := map snd d.

(** ** Face resolver *)

(** The inner loop of [pick_by_keys]: does any keyword match the stem? *)
Definition any_key (keys : list string) (stem : string) : bool :=
  existsb (fun k => key_search k stem) keys.

Fixpoint pick_by_keys (base_stem_to_path : dict Path) (keys : list string)
  : option Path :=
  match base_stem_to_path with
  | [] => None
  | (stem, p) :: rest =>
      if any_key keys stem then Some p else pick_by_keys rest keys
  end.

Record Faces := mkFaces {
  f_top : option Path;
  f_bottom : option Path;
  f_left : option Path;
  f_right : option Path
}.

(** Python's [a or b] on values that are [None] or a [Path]: a [Path]
    object is always truthy. *)
Definition por {A} (a b : option A) : option A :=
  match a with Some _ => a | None => b end.

Infix "|||" := por (at level 50, left associativity).

(** Truthiness of a slot: [None] is falsy, a [Path] is truthy. *)
Definition truthy {A} (o : option A) : bool :=
  match o with Some _ => true | None => false end.

(** [any(faces.values())] *)
Definition any_face (f : Faces) : bool :=
  truthy (f_top f) || truthy (f_bottom f)
  || truthy (f_left f) || truthy (f_right f).

(** [next(iter(textures.values()))]; [None] stands for [StopIteration] on
    an empty dictionary. *)
Definition first_value {V} (d : dict V) : option V :=
  match d with
  | [] => None
  | (_, v) :: _ => Some v
  end.

(** The final loop over the four slots: [if faces[k] is None: faces[k] =
    base_tex]. *)
Definition fill (slot base_tex : option Path) : option Path :=
  match slot with Some _ => slot | None => base_tex end.

(** [find_faces]; the result is [None] exactly when the source raises
    [StopIteration], which needs an empty [textures]. *)
Definition find_faces (textures : dict Path) : option Faces :=
  let top_tex := pick_by_keys textures TOP_KEYS in
  let bottom_tex := pick_by_keys textures BOTTOM_KEYS in
  let side_tex := pick_by_keys textures SIDE_KEYS in
  let n := pick_by_keys textures (FACE_KEYS north) in
  let s := pick_by_keys textures (FACE_KEYS south) in
  let e := pick_by_keys textures (FACE_KEYS east) in
  let w := pick_by_keys textures (FACE_KEYS west) in
  let faces :=
    if truthy side_tex
    then mkFaces top_tex bottom_tex side_tex side_tex
    else mkFaces top_tex bottom_tex (w ||| s ||| e ||| n) (e ||| n ||| w ||| s) in
  match
    (if negb (any_face faces)
     then match first_value textures with
          | Some any_tex =>
              Some (mkFaces (Some any_tex) (Some any_tex)
                            (Some any_tex) (Some any_tex))
          | None => None
          end
     else Some faces)
  with
  | None => None
  | Some faces =>
      let base_tex :=
        f_top faces ||| f_left faces ||| f_right faces ||| f_bottom faces in
      Some (mkFaces (fill (f_top faces) base_tex)
                    (fill (f_bottom faces) base_tex)
                    (fill (f_left faces) base_tex)
                    (fill (f_right faces) base_tex))
  end.

(** ** The face resolver is total on non-empty groups *)

Definition ALL_KEYS : list string :=
  TOP_KEYS ++ BOTTOM_KEYS ++ SIDE_KEYS
  ++ FACE_KEYS north ++ FACE_KEYS south ++ FACE_KEYS east ++ FACE_KEYS west.

(** The first of a list of optional bindings that is present. *)
Fixpoint first_present (l : list (option Path)) : option Path :=
  match l with
  | [] => None
  | Some p :: _ => Some p
  | None :: l' => first_present l'
  end.

Lemma pick_by_keys_In (d : dict Path) (keys : list string) (p : Path) :
  pick_by_keys d keys = Some p -> In p (dict_values d).
Proof.
  induction d as [|[stem q] d IH]; cbn; [discriminate|].
  destruct (any_key keys stem).
  - intros [= ->]. now left.
  - intros H. right. now apply IH.
Qed.

(** [pick_by_keys] returns the value of the first entry, in dictionary
    order, whose stem matches one of the keywords. *)
Lemma pick_by_keys_first (d : dict Path) (keys : list string) (p : Path) :
  pick_by_keys d keys = Some p <->
  exists d1 stem d2,
    d = d1 ++ (stem, p) :: d2 /\ any_key keys stem = true
    /\ Forall (fun e => any_key keys (fst e) = false) d1.
Proof.
  induction d as [|[stem q] d IH]; cbn.
  - split; [discriminate|]. intros (d1 & s & d2 & E & _). now destruct d1.
  - destruct (any_key keys stem) eqn:K.
    + split.
      * intros [= ->]. exists [], stem, d. repeat split; auto.
      * intros (d1 & s & d2 & E & Ks & F).
        destruct d1 as [|e d1]; cbn in E.
        -- now injection E as _ -> _.
        -- injection E as <- _. inversion F as [|? ? Hx _]; subst.
           cbn in Hx. congruence.
    + rewrite IH. split.
      * intros (d1 & s & d2 & -> & Ks & F).
        exists ((stem, q) :: d1), s, d2. repeat split; auto.
      * intros (d1 & s & d2 & E & Ks & F).
        destruct d1 as [|e d1]; cbn in E.
        -- injection E as -> _ _. congruence.
        -- injection E as _ ->. inversion F; subst.
           exists d1, s, d2. repeat split; auto.
Qed.

Lemma pick_by_keys_none (d : dict Path) (keys : list string) :
  Forall (fun e => any_key keys (fst e) = false) d ->
  pick_by_keys d keys = None.
Proof.
  induction 1 as [|[stem q] d K _ IH]; cbn in *; [reflexivity|].
  now rewrite K.
Qed.

Lemma any_key_false (keys : list string) (stem : string) :
  (forall k, In k keys -> key_search k stem = false) ->
  any_key keys stem = false.
Proof.
  intros H. unfold any_key.
  destruct (existsb _ keys) eqn:E; [|reflexivity].
  apply existsb_exists in E as (k & Hk & Hs). rewrite (H k Hk) in Hs.
  discriminate.
Qed.

(** C1: on a non-empty texture map [find_faces] returns an assignment
    whose four slots are all bound, each to a location of the group; and
    when no keyword of steps 1-4 matches any candidate name, the four
    slots hold one and the same texture, the first value of the map. *)
Theorem find_faces_total (textures : dict Path) :
  textures <> [] ->
  exists t b l r,
    find_faces textures
    = Some (mkFaces (Some t) (Some b) (Some l) (Some r))
    /\ In t (dict_values textures) /\ In b (dict_values textures)
    /\ In l (dict_values textures) /\ In r (dict_values textures)
    /\ ((forall stem k, In stem (map fst textures) -> In k ALL_KEYS ->
           key_search k stem = false) ->
        exists rep, first_value textures = Some rep
                    /\ t = rep /\ b = rep /\ l = rep /\ r = rep).
Proof.
  intros Hne.
  destruct textures as [|[stem0 p0] rest] eqn:Et; [congruence|].
  rewrite <- Et. clear Hne.
  assert (Hfirst : first_value textures = Some p0) by now rewrite Et.
  assert (Hp0 : In p0 (dict_values textures)) by (rewrite Et; now left).
  pose proof (pick_by_keys_In textures TOP_KEYS) as Ht.
  pose proof (pick_by_keys_In textures BOTTOM_KEYS) as Hb.
  pose proof (pick_by_keys_In textures SIDE_KEYS) as Hs.
  pose proof (pick_by_keys_In textures (FACE_KEYS north)) as Hn.
  pose proof (pick_by_keys_In textures (FACE_KEYS south)) as Hso.
  pose proof (pick_by_keys_In textures (FACE_KEYS east)) as He.
  pose proof (pick_by_keys_In textures (FACE_KEYS west)) as Hw.
  assert (Hnone : (forall stem k, In stem (map fst textures) ->
                     In k ALL_KEYS -> key_search k stem = false) ->
                  forall keys, incl keys ALL_KEYS ->
                               pick_by_keys textures keys = None).
  { intros H keys Hk. apply pick_by_keys_none, List.Forall_forall.
    intros e He'. apply any_key_false. intros k Hin.
    apply H; [now apply in_map | now apply Hk]. }
  unfold find_faces. rewrite Hfirst.
  destruct (pick_by_keys textures TOP_KEYS) as [t|] eqn:Pt;
  destruct (pick_by_keys textures BOTTOM_KEYS) as [b|] eqn:Pb;
  destruct (pick_by_keys textures SIDE_KEYS) as [s|] eqn:Ps;
  destruct (pick_by_keys textures (FACE_KEYS north)) as [n|] eqn:Pn;
  destruct (pick_by_keys textures (FACE_KEYS south)) as [so|] eqn:Pso;
  destruct (pick_by_keys textures (FACE_KEYS east)) as [e|] eqn:Pe;
  destruct (pick_by_keys textures (FACE_KEYS west)) as [w|] eqn:Pw;
  cbn;
  do 4 eexists;
  (split; [reflexivity|]);
  (split; [solve [auto]|]); (split; [solve [auto]|]);
  (split; [solve [auto]|]); (split; [solve [auto]|]);
  intros H;
  pose proof (Hnone H) as Hk;
  first
    [ exists p0; repeat split; reflexivity
    | exfalso;
      assert (Hall : forall keys, In keys
                [TOP_KEYS; BOTTOM_KEYS; SIDE_KEYS; FACE_KEYS north;
                 FACE_KEYS south; FACE_KEYS east; FACE_KEYS west] ->
                pick_by_keys textures keys = None)
        by (intros keys Hin; apply Hk; cbn in Hin;
            intuition (subst; unfold ALL_KEYS; cbn; intros k Hkk;
                       cbn in Hkk; intuition (subst; cbn; tauto)));
      first
        [ pose proof (Hall TOP_KEYS ltac:(cbn; tauto)); congruence
        | pose proof (Hall BOTTOM_KEYS ltac:(cbn; tauto)); congruence
        | pose proof (Hall SIDE_KEYS ltac:(cbn; tauto)); congruence
        | pose proof (Hall (FACE_KEYS north) ltac:(cbn; tauto)); congruence
        | pose proof (Hall (FACE_KEYS south) ltac:(cbn; tauto)); congruence
        | pose proof (Hall (FACE_KEYS east) ltac:(cbn; tauto)); congruence
        | pose proof (Hall (FACE_KEYS west) ltac:(cbn; tauto)); congruence ] ].
Qed.

Definition stone_group : dict Path :=
  [("stone_side", ["mod"; "stone_side.png"]);
   ("stone_top", ["mod"; "stone_top.png"])].

Definition compass_group : dict Path :=
  [("stone_east", ["mod"; "stone_east.png"]);
   ("stone_north", ["mod"; "stone_north.png"]);
   ("stone_south", ["mod"; "stone_south.png"]);
   ("stone_west", ["mod"; "stone_west.png"])].

Lemma find_faces_total_witness :
  stone_group <> [] /\
  exists t b l r,
    find_faces stone_group
    = Some (mkFaces (Some t) (Some b) (Some l) (Some r))
    /\ In t (dict_values stone_group) /\ In b (dict_values stone_group)
    /\ In l (dict_values stone_group) /\ In r (dict_values stone_group)
    /\ ((forall stem k, In stem (map fst stone_group) -> In k ALL_KEYS ->
           key_search k stem = false) ->
        exists rep, first_value stone_group = Some rep
                    /\ t = rep /\ b = rep /\ l = rep /\ r = rep).
Proof.
  split; [discriminate|].
  apply (find_faces_total stone_group). discriminate.
Defined.

(** A lone texture without any face keyword is bound to all four slots. *)
Example find_faces_lever :
  find_faces [("lever", ["mod"; "lever.png"])]
  = Some (mkFaces (Some ["mod"; "lever.png"]) (Some ["mod"; "lever.png"])
                  (Some ["mod"; "lever.png"]) (Some ["mod"; "lever.png"])).
Proof. reflexivity. Qed.

(** C4: when some candidate matches a side keyword, left and right are
    both bound to that candidate (the first one matching, in dictionary
    order); otherwise left is the first present of west, south, east,
    north and right the first present of east, north, west, south. *)
Theorem find_faces_sides (textures : dict Path) :
  textures <> [] ->
  exists faces,
    find_faces textures = Some faces
    /\ (forall sd, pick_by_keys textures SIDE_KEYS = Some sd ->
          f_left faces = Some sd /\ f_right faces = Some sd)
    /\ (pick_by_keys textures SIDE_KEYS = None ->
        let n := pick_by_keys textures (FACE_KEYS north) in
        let s := pick_by_keys textures (FACE_KEYS south) in
        let e := pick_by_keys textures (FACE_KEYS east) in
        let w := pick_by_keys textures (FACE_KEYS west) in
        (forall p, first_present [w; s; e; n] = Some p ->
                   f_left faces = Some p)
        /\ (forall p, first_present [e; n; w; s] = Some p ->
                      f_right faces = Some p)).
Proof.
  intros Hne.
  destruct textures as [|[stem0 p0] rest] eqn:Et; [congruence|].
  rewrite <- Et. clear Hne.
  assert (Hfirst : first_value textures = Some p0) by now rewrite Et.
  unfold find_faces. rewrite Hfirst.
  destruct (pick_by_keys textures TOP_KEYS) as [t|];
  destruct (pick_by_keys textures BOTTOM_KEYS) as [b|];
  destruct (pick_by_keys textures SIDE_KEYS) as [sd|];
  destruct (pick_by_keys textures (FACE_KEYS north)) as [n|];
  destruct (pick_by_keys textures (FACE_KEYS south)) as [so|];
  destruct (pick_by_keys textures (FACE_KEYS east)) as [e|];
  destruct (pick_by_keys textures (FACE_KEYS west)) as [w|];
  cbn; eexists; (split; [reflexivity|]); cbn;
  (split; [intros x [= ->]; split; reflexivity || discriminate
          | intros Hs; try discriminate Hs;
            split; intros x [= ->]; reflexivity ]).
Qed.

Lemma find_faces_sides_witness :
  compass_group <> [] /\
  exists faces,
    find_faces compass_group = Some faces
    /\ f_left faces = Some ["mod"; "stone_west.png"]
    /\ f_right faces = Some ["mod"; "stone_east.png"].
Proof.
  split; [discriminate|].
  destruct (find_faces_sides compass_group ltac:(discriminate))
    as (faces & E & _ & Hdir).
  exists faces. split; [exact E|].
  destruct (Hdir eq_refl) as [Hl Hr].
  split; [apply Hl | apply Hr]; reflexivity.
Defined.

(** With both [stone_side] and [stone_top] in the group, left and right
    are the [stone_side] image. *)
Example find_faces_stone_side :
  exists faces,
    find_faces stone_group = Some faces
    /\ f_left faces = Some ["mod"; "stone_side.png"]
    /\ f_right faces = Some ["mod"; "stone_side.png"]
    /\ f_top faces = Some ["mod"; "stone_top.png"].
Proof. eexists. repeat split. Qed.

(** ** Delimited segments *)

(** The segments of a name: the pieces between underscores and hyphens,
    as [re.split("[_-]", name)] lists them. *)
Fixpoint segments (s : string) : list string :=
  match s with
  | "" => [""]
  | String c s' =>
      if is_delim c then "" :: segments s'
      else match segments s' with
           | seg :: rest => String c seg :: rest
           | [] => [String c ""]
           end
  end.

(** No underscore or hyphen occurs in the string. *)
Fixpoint delim_free (s : string) : bool :=
  match s with
  | "" => true
  | String c s' => negb (is_delim c) && delim_free s'
  end.

(** The closing group with [\Z] in place of [$]: the end of the text or a
    delimiter. *)
Definition strict_end (rest : string) : bool :=
  match rest with
  | "" => true
  | String c _ => is_delim c
  end.

Lemma segments_cons (s : string) : exists seg rest, segments s = seg :: rest.
Proof.
  induction s as [|c s (seg & rest & E)]; cbn; [eauto|].
  destruct (is_delim c); [eauto|]. rewrite E. eauto.
Qed.

(** A delimiter-free keyword sits at the head of [s], followed by the end
    or a delimiter, exactly when it is the first segment of [s]. *)
Lemma head_segment (k s : string) :
  delim_free k = true ->
  (exists rest, s = k +:+ rest /\ strict_end rest = true)
  <-> hd "" (segments s) = k.
Proof.
  revert s. induction k as [|a k IH]; intros s Hk.
  - split.
    + intros (rest & -> & He). rewrite Str.app_nil_l.
      destruct rest as [|c rest]; [reflexivity|]. cbn in *. now rewrite He.
    + intros H. exists s. split; [reflexivity|].
      destruct s as [|c s]; [reflexivity|]. cbn in *.
      destruct (is_delim c); [reflexivity|].
      destruct (segments_cons s) as (seg & r & E). rewrite E in H.
      discriminate.
  - cbn in Hk. apply andb_prop in Hk as [Ha Hk].
    apply negb_true_iff in Ha. split.
    + intros (rest & -> & He). rewrite Str.app_cons. cbn. rewrite Ha.
      destruct (segments_cons (k +:+ rest)) as (seg & r & E).
      pose proof (proj1 (IH (k +:+ rest) Hk)
                    (ex_intro _ rest (conj eq_refl He))) as Hh.
      rewrite E in *. cbn in *. now subst.
    + intros H. destruct s as [|c s]; [discriminate|]. cbn in H.
      destruct (is_delim c) eqn:Dc; [discriminate|].
      destruct (segments_cons s) as (seg & r & E). rewrite E in H.
      injection H as -> ->.
      destruct (proj2 (IH s Hk)) as (rest & -> & He).
      { now rewrite E. }
      exists rest. now rewrite Str.app_cons.
Qed.

(** The same keyword test after a delimiter further right corresponds to
    the segments after the first. *)
Lemma tail_segments (k s : string) :
  delim_free k = true ->
  (exists pre d rest, is_delim d = true
     /\ s = pre +:+ String d (k +:+ rest) /\ strict_end rest = true)
  <-> In k (tl (segments s)).
Proof.
  intros Hk. induction s as [|c s IH].
  - split; [|intros []]. intros (pre & d & rest & _ & E & _).
    destruct pre; discriminate.
  - cbn [segments]. destruct (is_delim c) eqn:Dc.
    + cbn [tl]. destruct (segments_cons s) as (seg & r & E).
      assert (Hin : In k (segments s)
                    <-> hd "" (segments s) = k \/ In k (tl (segments s))).
      { rewrite E. cbn. reflexivity. }
      rewrite Hin, <- IH, <- (head_segment k s Hk). split.
      * intros (pre & d & rest & Hd & E' & He).
        destruct pre as [|x pre].
        -- rewrite Str.app_nil_l in E'. injection E' as -> ->.
           left. eauto.
        -- rewrite Str.app_cons in E'. injection E' as -> ->.
           right. exists pre, d, rest. auto.
      * intros [(rest & -> & He) | (pre & d & rest & Hd & -> & He)].
        -- exists "", c, rest. auto.
        -- exists (String c pre), d, rest. auto.
    + destruct (segments_cons s) as (seg & r & E). rewrite E. cbn [tl].
      assert (Hr : r = tl (segments s)) by now rewrite E.
      rewrite Hr, <- IH. split.
      * intros (pre & d & rest & Hd & E' & He).
        destruct pre as [|x pre].
        -- rewrite Str.app_nil_l in E'. injection E' as -> ->. congruence.
        -- rewrite Str.app_cons in E'. injection E' as -> ->.
           exists pre, d, rest. auto.
      * intros (pre & d & rest & Hd & -> & He).
        exists (String c pre), d, rest. auto.
Qed.

Lemma key_here_spec (k s : string) :
  key_here k s = true <-> exists rest, s = k +:+ rest /\ key_end rest = true.
Proof.
  unfold key_here. destruct (Str.strip_prefix k s) as [rest|] eqn:E.
  - apply Str.strip_prefix_spec in E. split; [eauto|].
    intros (rest' & E' & He). subst s.
    apply Str.strip_prefix_spec in E'.
    rewrite (proj2 (Str.strip_prefix_spec k _ rest) eq_refl) in E'.
    now injection E' as ->.
  - split; [discriminate|]. intros (rest & E' & _).
    apply Str.strip_prefix_spec in E'. congruence.
Qed.

Lemma key_after_delim_spec (k s : string) :
  key_after_delim k s = true
  <-> exists pre d rest, is_delim d = true
        /\ s = pre +:+ String d (k +:+ rest) /\ key_end rest = true.
Proof.
  induction s as [|c s IH]; cbn.
  - split; [discriminate|]. intros (pre & d & rest & _ & E & _).
    destruct pre; discriminate.
  - rewrite orb_true_iff, andb_true_iff, IH, key_here_spec. split.
    + intros [[Hd (rest & -> & He)] | (pre & d & rest & Hd & -> & He)].
      * exists "", c, rest. auto.
      * exists (String c pre), d, rest. auto.
    + intros (pre & d & rest & Hd & E & He). destruct pre as [|x pre].
      * rewrite Str.app_nil_l in E. injection E as -> ->. left. eauto.
      * rewrite Str.app_cons in E. injection E as -> ->.
        right. exists pre, d, rest. auto.
Qed.

Lemma key_end_cases (rest : string) :
  key_end rest = true
  <-> strict_end rest = true \/ rest = String newline "".
Proof.
  destruct rest as [|c [|c' rest]]; cbn.
  - tauto.
  - rewrite orb_true_iff. destruct (Ascii.eqb_spec c newline) as [->|Hn].
    + split; auto.
    + split; [intros [H|H]; [auto | discriminate]|].
      intros [H|[= H]]; [auto | congruence].
  - rewrite orb_false_r. split; [auto | intros [H|H]; [auto | discriminate]].
Qed.

Lemma segments_In_iff (k s : string) :
  delim_free k = true ->
  In k (segments s)
  <-> (exists rest, s = k +:+ rest /\ strict_end rest = true)
      \/ (exists pre d rest, is_delim d = true
            /\ s = pre +:+ String d (k +:+ rest) /\ strict_end rest = true).
Proof.
  intros Hk. rewrite head_segment, tail_segments by assumption.
  destruct (segments_cons s) as (seg & r & E). rewrite E. cbn. reflexivity.
Qed.

(** What the keyword search decides, for a delimiter-free keyword: the
    keyword is a whole segment of the name, or of the name without the
    newline that ends it. *)
Lemma key_search_segments (k stem : string) :
  delim_free k = true ->
  key_search k stem = true
  <-> In k (segments stem)
      \/ exists s', stem = s' +:+ String newline "" /\ In k (segments s').
Proof.
  intros Hk. unfold key_search.
  rewrite orb_true_iff, key_here_spec, key_after_delim_spec.
  setoid_rewrite key_end_cases. split.
  - intros [(rest & E & [He | ->])
           | (pre & d & rest & Hd & E & [He | ->])].
    + left. apply segments_In_iff; eauto.
    + right. exists k. split; [assumption|].
      apply segments_In_iff; [assumption|]. left. exists "".
      now rewrite Str.app_nil_r.
    + left. apply segments_In_iff; [assumption|]. right. eauto 10.
    + right. exists (pre +:+ String d k). split.
      * now rewrite E, Str.app_assoc, Str.app_cons.
      * apply segments_In_iff; [assumption|]. right.
        exists pre, d, "". now rewrite Str.app_nil_r.
  - intros [Hin | (s' & -> & Hin)];
      apply segments_In_iff in Hin; try assumption;
      destruct Hin as [(rest & -> & He)
                      | (pre & d & rest & Hd & -> & He)].
    + left. eauto.
    + right. exists pre, d, rest. auto.
    + destruct rest as [|c rest].
      * left. exists (String newline ""). rewrite Str.app_nil_r. auto.
      * left. exists (String c rest +:+ String newline "").
        rewrite Str.app_assoc. split; [reflexivity|]. left. exact He.
    + right. exists pre, d. destruct rest as [|c rest].
      * exists (String newline ""). rewrite Str.app_nil_r.
        rewrite Str.app_assoc, Str.app_cons. auto.
      * exists (String c rest +:+ String newline "").
        rewrite !Str.app_assoc, !Str.app_cons, Str.app_assoc.
        repeat split; auto.
Qed.

(** The keywords of the tables contain no delimiter. *)
Lemma ALL_KEYS_delim_free (k : string) :
  In k ALL_KEYS -> delim_free k = true.
Proof.
  unfold ALL_KEYS. cbn. intros H.
  repeat (destruct H as [<- | H]; [reflexivity|]). destruct H.
Qed.

(** For a keyword of the tables and a name that does not end in a
    newline, the search is the whole-segment test. *)
Lemma table_key_search (k stem : string) :
  In k ALL_KEYS ->
  (forall s', stem <> s' +:+ String newline "") ->
  key_search k stem = true <-> In k (segments stem).
Proof.
  intros Hk Hnl.
  rewrite (key_search_segments k stem (ALL_KEYS_delim_free k Hk)).
  split; [|now left]. intros [H | (s' & E & _)]; [exact H|].
  now destruct (Hnl s').
Qed.

(** The two names of the specification: [north] is no segment of
    [northlands_block] and is one of [stone_north]. *)
Example northlands_no_match :
  forall p, pick_by_keys [("northlands_block", p)] (FACE_KEYS north) = None.
Proof. reflexivity. Qed.

Example stone_north_match :
  forall p, pick_by_keys [("stone_north", p)] (FACE_KEYS north) = Some p.
Proof. reflexivity. Qed.

(** C3, at a name that ends in a newline: the search for [north] succeeds
    on the stem of a file named [stone_north<LF>.png], although [north] is
    no segment of that stem (its last segment is [north<LF>]). *)
Theorem key_search_final_newline :
  let stem := "stone_north" +:+ String newline "" in
  pick_by_keys [(stem, ["mod"; stem +:+ ".png"])] (FACE_KEYS north)
  = Some ["mod"; stem +:+ ".png"]
  /\ ~ In "north" (segments stem).
Proof.
  split; [reflexivity|]. intros H. vm_compute in H.
  destruct H as [H|[H|[]]]; discriminate.
Qed.

(** ** Job grouper: the base identifier *)

Definition SUFFIX_TOKENS : list string :=
  ["top"; "bottom"; "side"; "north"; "south"; "east"; "west"].

(** The alternation [(top|bottom|...)] followed by [$], tried in order at
    the current position; the result is the text left after the match. *)
Fixpoint token_then_dollar (toks : list string) (s : string)
  : option string :=
  match toks with
  | [] => None
  | tok :: toks' =>
      match Str.strip_prefix tok s with
      | Some rest =>
          if at_dollar rest then Some rest else token_then_dollar toks' s
      | None => token_then_dollar toks' s
      end
  end.

(** The whole pattern [(_(top|bottom|side|north|south|east|west))$]
    anchored at the current position. *)
Definition suffix_here (s : string) : option string :=
  match s with
  | String c s' =>
      if Ascii.eqb c "_" then token_then_dollar SUFFIX_TOKENS s' else None
  | "" => None
  end.

(** [re.sub(r"(_(top|bottom|side|north|south|east|west))$", "", stem)]:
    the text is scanned from the left and a match is replaced by the empty
    string.  What is left after a match is empty or one newline, where the
    pattern cannot match again, so it is copied. *)
Fixpoint base_of (stem : string) : string :=
  match suffix_here stem with
  | Some rest => rest
  | None =>
      match stem with
      | "" => ""
      | String c s' => String c (base_of s')
      end
  end.

(** The trailing token as the specification words it: a token of the
    list that ends the name and is delimited on its left by an
    underscore, a hyphen or the start of the name. *)
Definition spec_trailing_token (tok stem : string) : Prop :=
  In tok SUFFIX_TOKENS
  /\ (stem = tok
      \/ exists pre d, is_delim d = true /\ stem = pre +:+ String d tok).

Fixpoint count_underscore (s : string) : nat :=
  match s with
  | "" => 0
  | String c s' => (if Ascii.eqb c "_" then 1 else 0) + count_underscore s'
  end.

Lemma count_underscore_app (a b : string) :
  count_underscore (a +:+ b) = count_underscore a + count_underscore b.
Proof.
  induction a as [|c a IH]; [reflexivity|].
  rewrite Str.app_cons. cbn. rewrite IH. lia.
Qed.

Lemma at_dollar_cases (rest : string) :
  at_dollar rest = true <-> rest = "" \/ rest = String newline "".
Proof.
  destruct rest as [|c [|c' rest]]; cbn.
  - tauto.
  - destruct (Ascii.eqb_spec c newline) as [->|Hn].
    + split; auto.
    + split; [discriminate|]. intros [H|[= H]]; [discriminate | congruence].
  - split; [discriminate | intros [H|H]; discriminate].
Qed.

Lemma token_then_dollar_spec (toks : list string) (s rest : string) :
  token_then_dollar toks s = Some rest ->
  exists tok, In tok toks /\ s = tok +:+ rest /\ at_dollar rest = true.
Proof.
  induction toks as [|tok toks IH]; cbn; [discriminate|].
  destruct (Str.strip_prefix tok s) as [r|] eqn:E.
  - destruct (at_dollar r) eqn:D.
    + intros [= <-]. apply Str.strip_prefix_spec in E. eauto.
    + intros H. destruct (IH H) as (t & ? & ? & ?). eauto.
  - intros H. destruct (IH H) as (t & ? & ? & ?). eauto.
Qed.

Lemma suffix_here_spec (s rest : string) :
  suffix_here s = Some rest ->
  exists tok, In tok SUFFIX_TOKENS /\ s = String "_" (tok +:+ rest)
              /\ at_dollar rest = true.
Proof.
  destruct s as [|c s]; [discriminate|]. unfold suffix_here.
  destruct (Ascii.eqb_spec c "_") as [->|]; [|discriminate].
  intros H. apply token_then_dollar_spec in H as (tok & ? & -> & ?). eauto.
Qed.

Lemma SUFFIX_TOKENS_no_underscore (tok : string) :
  In tok SUFFIX_TOKENS -> count_underscore tok = 0.
Proof.
  cbn. intros H. repeat (destruct H as [<- | H]; [reflexivity|]). destruct H.
Qed.

(** A match that starts left of the last underscore would need a token
    that contains an underscore. *)
Lemma suffix_here_inner (c : ascii) (pre tok : string) :
  In tok SUFFIX_TOKENS ->
  suffix_here (String c (pre +:+ String "_" tok)) = None.
Proof.
  intros Hin.
  destruct (suffix_here _) as [rest|] eqn:E; [exfalso | reflexivity].
  apply suffix_here_spec in E as (tok' & Hin' & E & D).
  injection E as -> E.
  apply (f_equal count_underscore) in E.
  rewrite !count_underscore_app in E. cbn in E.
  rewrite (SUFFIX_TOKENS_no_underscore tok Hin) in E.
  rewrite (SUFFIX_TOKENS_no_underscore tok' Hin') in E.
  apply at_dollar_cases in D as [-> | ->];
    [|change (count_underscore (String newline "")) with 0 in E];
    cbn in E; lia.
Qed.

Lemma base_of_eq (stem : string) :
  base_of stem =
  match suffix_here stem with
  | Some rest => rest
  | None =>
      match stem with
      | "" => ""
      | String c s' => String c (base_of s')
      end
  end.
Proof. destruct stem; reflexivity. Qed.

Lemma base_of_strips (pre tok : string) :
  In tok SUFFIX_TOKENS -> base_of (pre +:+ String "_" tok) = pre.
Proof.
  intros Hin. induction pre as [|c pre IH].
  - rewrite Str.app_nil_l. cbn in Hin.
    repeat (destruct Hin as [<- | Hin]; [reflexivity|]). destruct Hin.
  - rewrite Str.app_cons, base_of_eq, (suffix_here_inner c pre tok Hin).
    now rewrite IH.
Qed.

Lemma base_of_keeps (stem : string) :
  (forall pre suf rest, stem = pre +:+ suf -> suffix_here suf <> Some rest) ->
  base_of stem = stem.
Proof.
  induction stem as [|c s IH]; intros H.
  - reflexivity.
  - rewrite base_of_eq.
    destruct (suffix_here (String c s)) as [rest|] eqn:E.
    + exfalso. exact (H "" (String c s) rest eq_refl E).
    + f_equal. apply IH. intros pre suf rest ->.
      apply (H (String c pre) suf rest). reflexivity.
Qed.

(** C2, as the code has it: a trailing token preceded by an underscore is
    removed together with that underscore, whatever stands before it (so
    only the last of several suffixes goes, and no interior token); every
    other name that does not end in a newline is its own base identifier,
    in particular a bare token and a token after a hyphen. *)
Theorem base_of_underscore_suffix (stem : string) :
  (forall pre tok, In tok SUFFIX_TOKENS -> stem = pre +:+ String "_" tok ->
                   base_of stem = pre)
  /\ ((forall pre, stem <> pre +:+ String newline "") ->
      (forall pre tok, In tok SUFFIX_TOKENS ->
                       stem <> pre +:+ String "_" tok) ->
      base_of stem = stem).
Proof.
  split.
  - intros pre tok Hin ->. now apply base_of_strips.
  - intros Hnl Hno. apply base_of_keeps. intros pre suf rest -> E.
    apply suffix_here_spec in E as (tok & Hin & -> & D).
    apply at_dollar_cases in D as [-> | ->].
    + apply (Hno pre tok Hin). now rewrite Str.app_nil_r.
    + apply (Hnl (pre +:+ String "_" tok)).
      now rewrite Str.app_assoc, Str.app_cons.
Qed.

Lemma base_of_underscore_suffix_witness :
  base_of "stone_top_side" = "stone_top"
  /\ base_of "top_stone" = "top_stone".
Proof.
  split.
  - apply (proj1 (base_of_underscore_suffix "stone_top_side")
             "stone_top" "side"); [cbn; tauto | reflexivity].
  - reflexivity.
Defined.

(** C2 fails as stated: [top] ends the name [stone-top] and is delimited
    by a hyphen, and it is the whole of the name [top], yet neither name
    loses it. *)
Lemma base_of_hyphen_kept :
  spec_trailing_token "top" "stone-top" /\ base_of "stone-top" = "stone-top"
  /\ spec_trailing_token "top" "top" /\ base_of "top" = "top".
Proof.
  repeat split; try (cbn; tauto).
  right. exists "stone", "-"%char. split; reflexivity.
Qed.

(** ** Exceptions *)

Inductive exn :=
| ValueError
| StopIteration
| AttributeError
| UnidentifiedImageError
| FileNotFoundError
| IsADirectoryError
| NotADirectoryError
| FileExistsError.

Inductive result (A : Type) :=
| Ok (a : A)
| Raise (e : exn).

Arguments Ok {A} a.
Arguments Raise {A} e.

Definition rbind {A B} (m : result A) (k : A -> result B) : result B :=
  match m with
  | Ok a => k a
  | Raise e => Raise e
  end.

#[global] Instance result_ret : MRet result := @Ok.
#[global] Instance result_bind : MBind result :=
  fun A B k m => rbind m k.

(** ** Images

    The part of Pillow that the script calls, on RGBA images: an image is
    its size and its pixel raster, a pixel four bytes.  Sampling positions
    are computed exactly here (Pillow computes them in binary fixed and
    floating point). *)

Module Pil.

Local Open Scope Z_scope.

Record Pixel := mkPixel { R : Z; G : Z; B : Z; A : Z }.

Record Image := mkImage {
  width : Z;
  height : Z;
  px : Z -> Z -> Pixel
}.

(** The colour [(0,0,0,0)]. *)
Definition clear : Pixel := mkPixel 0 0 0 0.

(** Storing into a [UINT8]. *)
Definition u8 (v : Z) : Z := v mod 256.

Definition inside (img : Image) (x y : Z) : bool :=
  (0 <=? x) && (x <? width img) && (0 <=? y) && (y <? height img).

(** [[0; 1; ...; n-1]] *)
Definition zrange (n : Z) : list Z := map Z.of_nat (seq 0 (Z.to_nat n)).

(** [Image.new("RGBA", (w, h), (0,0,0,0))] *)
Definition new (w h : Z) : result Image :=
  if (w <? 0) || (h <? 0) then Raise ValueError
  else Ok (mkImage w h (fun _ _ => clear)).

(** [img.resize((w, h), resample=Image.NEAREST)]: the output pixel [x]
    takes the input pixel under its centre, [floor((x + 1/2) * win / w)];
    a target size below one is refused. *)
Definition resize_nearest (img : Image) (w h : Z) : result Image :=
  if (w <? 1) || (h <? 1) then Raise ValueError
  else Ok (mkImage w h (fun x y =>
             px img (((2 * x + 1) * width img) / (2 * w))
                    (((2 * y + 1) * height img) / (2 * h)))).

(** [img.transform((w, h), Image.AFFINE, (a, b, c, d, e, f),
    resample=Image.NEAREST)]: the output pixel [(x, y)] takes the input
    pixel that contains the point [(a x' + b y' + c, d x' + e y' + f)],
    where [(x', y')] is the centre of the output pixel; outside of the
    input the output stays [(0,0,0,0)]. *)
Definition transform_affine (img : Image) (w h : Z) (m : Q * Q * Q * Q * Q * Q)
  : result Image :=
  let '(a, b, c, d, e, f) := m in
  _ ← new w h;
  Ok (mkImage w h (fun x y =>
        let cx := (inject_Z x + (1 # 2))%Q in
        let cy := (inject_Z y + (1 # 2))%Q in
        let xin := Qfloor (a * cx + b * cy + c) in
        let yin := Qfloor (d * cx + e * cy + f) in
        if inside img xin yin then px img xin yin else clear)).

(** [round(math.cos(math.radians(45)), 15)], which is also
    [round(math.sin(math.radians(45)), 15)]. *)
Definition cos45 : Q := 707106781186548 # 1000000000000000.

Definition affine_apply (m : Q * Q * Q * Q * Q * Q) (x y : Q) : Q * Q :=
  let '(a, b, c, d, e, f) := m in
  ((a * x + b * y + c)%Q, (d * x + e * y + f)%Q).

Definition qmax4 (a b c d : Q) : Q := Qmax (Qmax (Qmax a b) c) d.
Definition qmin4 (a b c d : Q) : Q := Qmin (Qmin (Qmin a b) c) d.

(** The matrix of [Image.rotate] before the output is enlarged: the
    rotation by -45 degrees about the centre [(w/2, h/2)]. *)
Definition rotation_matrix (w h : Q) : Q * Q * Q * Q * Q * Q :=
  let cx := (w / 2)%Q in
  let cy := (h / 2)%Q in
  let m0 := (cos45, - cos45, 0, cos45, cos45, 0)%Q in
  let '(tx, ty) := affine_apply m0 (- cx)%Q (- cy)%Q in
  (cos45, - cos45, tx + cx, cos45, cos45, ty + cy)%Q.

(** The output size with [expand=True], from the images of the four
    corners: [ceil(max(xx)) - floor(min(xx))] and the same for [yy]. *)
Definition expanded_size (m : Q * Q * Q * Q * Q * Q) (w h : Q) : Z * Z :=
  let '(x1, y1) := affine_apply m 0 0 in
  let '(x2, y2) := affine_apply m w 0 in
  let '(x3, y3) := affine_apply m w h in
  let '(x4, y4) := affine_apply m 0 h in
  (Qceiling (qmax4 x1 x2 x3 x4) - Qfloor (qmin4 x1 x2 x3 x4),
   Qceiling (qmax4 y1 y2 y3 y4) - Qfloor (qmin4 y1 y2 y3 y4)).

(** [img.rotate(45, resample=Image.NEAREST, expand=True)], following
    [Image.rotate]: the rotation matrix, the enlarged output size, the
    translation that centres the input in the output, and an affine
    transform. *)
Definition rotate45_expand (img : Image) : result Image :=
  let w := inject_Z (width img) in
  let h := inject_Z (height img) in
  let m1 := rotation_matrix w h in
  let '(nw, nh) := expanded_size m1 w h in
  let '(ux, uy) :=
    affine_apply m1 (- (inject_Z nw - w) / 2)%Q (- (inject_Z nh - h) / 2)%Q in
  transform_affine img nw nh (cos45, - cos45, ux, cos45, cos45, uy)%Q.

(** [min(255, max(0, v))] *)
Definition clip8 (v : Z) : Z := Z.min 255 (Z.max 0 v).

(** [ImageEnhance.Brightness(img).enhance(factor)]: the blend of a black
    image that carries the alpha band of [img] with [img] itself; each
    colour byte [v] becomes [factor * v] cut to an integer (and clipped
    when the factor leaves [0..1]), alpha is kept. *)
Definition enhance_brightness (img : Image) (factor : Q) : Image :=
  let shade v := clip8 (Qfloor (factor * inject_Z v)) in
  mkImage (width img) (height img) (fun x y =>
    let p := px img x y in
    mkPixel (shade (R p)) (shade (G p)) (shade (B p)) (A p)).

(** Rounded division by 255 in Pillow's integer arithmetic:
    [DIV255(a) = (tmp = a + 128, ((tmp >> 8) + tmp) >> 8)]. *)
Definition shift_div255 (a : Z) : Z := Z.shiftr (Z.shiftr a 8 + a) 8.
Definition div255 (a : Z) : Z := shift_div255 (a + 128).

(** [BLEND(mask, in1, in2)] of [Image.paste] with a mask. *)
Definition blend (mask in1 in2 : Z) : Z :=
  u8 (div255 (in1 * (255 - mask) + in2 * mask)).

(** [dest.paste(src, (ox, oy), mask)] with an RGBA mask: inside the pasted
    box every byte of the pixel, alpha included, is blended by the alpha
    of the mask. *)
Definition paste (dest src : Image) (ox oy : Z) (mask : Image) : Image :=
  mkImage (width dest) (height dest) (fun x y =>
    let d := px dest x y in
    if inside src (x - ox) (y - oy) then
      let s := px src (x - ox) (y - oy) in
      let m := A (px mask (x - ox) (y - oy)) in
      mkPixel (blend m (R d) (R s)) (blend m (G d) (G s))
              (blend m (B d) (B s)) (blend m (A d) (A s))
    else d).

(** One pixel of [Image.alpha_composite]: [src] over [dst]. *)
Definition over (dst src : Pixel) : Pixel :=
  if A src =? 0 then dst
  else
    let blend := A dst * (255 - A src) in
    let outa255 := A src * 255 + blend in
    let coef1 := (A src * 255 * 255 * 128) / outa255 in
    let coef2 := 255 * 128 - coef1 in
    let chan s d :=
      u8 (Z.shiftr (shift_div255 (s * coef1 + d * coef2 + 128 * 128)) 7) in
    mkPixel (chan (R src) (R dst)) (chan (G src) (G dst))
            (chan (B src) (B dst)) (u8 (shift_div255 (outa255 + 128))).

(** [Image.alpha_composite(im1, im2)], for images of one size. *)
Definition alpha_composite_images (im1 im2 : Image) : Image :=
  mkImage (width im1) (height im1) (fun x y => over (px im1 x y) (px im2 x y)).

(** A pixel that is not fully transparent. *)
Definition visible (img : Image) (x y : Z) : bool :=
  negb (A (px img x y) =? 0).

Definition col_has (img : Image) (x : Z) : bool :=
  existsb (fun y => visible img x y) (zrange (height img)).

Definition row_has (img : Image) (y : Z) : bool :=
  existsb (fun x => visible img x y) (zrange (width img)).

(** [img.getbbox()] of an RGBA image: the box [(x0, y0, x1, y1)] around the
    pixels whose alpha is not zero, [None] when there is none. *)
Definition getbbox (img : Image) : option (Z * Z * Z * Z) :=
  match List.filter (col_has img) (zrange (width img)),
        List.filter (row_has img) (zrange (height img)) with
  | x0 :: xs, y0 :: ys =>
      Some (x0, y0, List.last xs x0 + 1, List.last ys y0 + 1)
  | _, _ => None
  end.

(** [img.crop((x0, y0, x1, y1))] *)
Definition crop (img : Image) (box : Z * Z * Z * Z) : Image :=
  let '(x0, y0, x1, y1) := box in
  mkImage (x1 - x0) (y1 - y0) (fun x y =>
    if inside img (x + x0) (y + y0) then px img (x + x0) (y + y0) else clear).

End Pil.

(** ** Isometric compositor *)

Import Pil.

Local Open Scope Z_scope.

(** Python's [int(q)] on a float: truncation towards zero.  The floats of
    the script are products of integers by [0.5], which are exact. *)
Definition py_int (q : Q) : Z := Z.quot (Qnum q) (Z.pos (Qden q)).

Definition nearest_resize (img : Image) (w h : Z) : result Image :=
  resize_nearest img w h.

Definition brighten (img : Image) (factor : Q) : Image :=
  if Qeq_bool factor 1 then img else enhance_brightness img factor.

Definition alpha_composite (dest src : Image) (offset : Z * Z)
  : result Image :=
  tmp ← new (width dest) (height dest);
  let tmp := paste tmp src (fst offset) (snd offset) src in
  Ok (alpha_composite_images dest tmp).

(** The sheared and shaded side face: lines 92-100 with [shear = -0.5] and
    [factor = 0.92] for the left face, lines 102-109 with [shear = +0.5]
    and [factor = 0.82] for the right face. *)
Definition sheared (side : Image) (shear : Q) : result Image :=
  let scale_y := 0.5%Q in
  let side_w := width side in
  let side_h := height side in
  let new_w := py_int (inject_Z side_w + Qabs shear * inject_Z side_h) in
  let new_h := py_int (inject_Z side_h * scale_y) in
  transform_affine side new_w new_h (1, shear, 0, 0, scale_y, 0)%Q.

Definition shear_left : Q := (-0.5)%Q.
Definition shear_right : Q := 0.5%Q.

Definition left_iso_of (left : Image) : result Image :=
  left_iso ← sheared left shear_left;
  Ok (brighten left_iso 0.92).

Definition right_iso_of (right : Image) : result Image :=
  right_iso ← sheared right shear_right;
  Ok (brighten right_iso 0.82).

(** Lines 84-124 of [make_iso_cube]: the composite before it is cropped. *)
Definition iso_canvas (top_img left_img right_img : Image) (size : Z)
  : result Image :=
  top ← nearest_resize top_img size size;
  left ← nearest_resize left_img size size;
  right ← nearest_resize right_img size size;
  top_rot ← rotate45_expand top;
  let top_w := width top_rot in
  let top_h := height top_rot in
  top_iso ← nearest_resize top_rot top_w
              (Z.max 1 (py_int (inject_Z top_h * 0.5)));
  left_iso ← left_iso_of left;
  right_iso ← right_iso_of right;
  let canvas_w := width top_iso + width left_iso + width right_iso in
  let canvas_h := height top_iso + Z.max (height left_iso) (height right_iso) in
  canvas ← new canvas_w canvas_h;
  let top_x := (canvas_w - width top_iso) / 2 in
  let top_y := 0 in
  let left_x := top_x - width left_iso / 2 in
  let left_y := height top_iso - 1 in
  let right_x := top_x + width top_iso - width right_iso / 2 in
  let right_y := height top_iso - 1 in
  canvas ← alpha_composite canvas left_iso (left_x, left_y);
  canvas ← alpha_composite canvas right_iso (right_x, right_y);
  alpha_composite canvas top_iso (top_x, top_y).

(** Lines 126-129: [bbox = canvas.getbbox()], crop when there is a box. *)
Definition crop_to_bbox (canvas : Image) : Image :=
  match getbbox canvas with
  | Some bbox => crop canvas bbox
  | None => canvas
  end.

Definition make_iso_cube (top_img left_img right_img : Image) (size : Z)
  : result Image :=
  canvas ← iso_canvas top_img left_img right_img size;
  Ok (crop_to_bbox canvas).

(** An image of one colour. *)
Definition solid (w h : Z) (p : Pixel) : Image := mkImage w h (fun _ _ => p).

(** A transparent image with one opaque white pixel in its corner. *)
Definition dot (w h : Z) : Image :=
  mkImage w h (fun x y =>
    if (x =? 0) && (y =? 0) then mkPixel 255 255 255 255 else clear).

(** The raster as rows of pixels, for inspection. *)
Definition raster (img : Image) : list (list Pixel) :=
  map (fun y => map (fun x => px img x y) (zrange (width img)))
      (zrange (height img)).

Definition has_opaque (img : Image) : bool :=
  existsb (fun y => existsb (fun x => A (px img x y) =? 255)
                            (zrange (width img)))
          (zrange (height img)).

Definition has_visible (img : Image) : bool :=
  existsb (fun y => existsb (fun x => visible img x y) (zrange (width img)))
          (zrange (height img)).

(** ** The bounding box *)

Section Ascending.

Lemma StronglySorted_filter (f : Z -> bool) (l : list Z) :
  StronglySorted Z.lt l -> StronglySorted Z.lt (List.filter f l).
Proof.
  induction 1 as [|a l Hs IH Hall]; cbn; [constructor|].
  destruct (f a); [|assumption].
  constructor; [assumption|].
  apply List.Forall_forall. intros x Hx. apply filter_In in Hx as [Hx _].
  exact (proj1 (List.Forall_forall _ _) Hall x Hx).
Qed.

Lemma last_cons (a d : Z) (xs : list Z) :
  List.last (a :: xs) d = List.last xs a.
Proof.
  revert a d. induction xs as [|b xs IH]; intros a d; [reflexivity|].
  change (List.last (a :: b :: xs) d) with (List.last (b :: xs) d).
  now rewrite (IH b d), (IH b a).
Qed.

Lemma last_In (x0 : Z) (xs : list Z) : In (List.last xs x0) (x0 :: xs).
Proof.
  revert x0. induction xs as [|a xs IH]; intros x0; [now left|].
  right. rewrite last_cons. apply IH.
Qed.

Lemma ascending_bounds (x0 : Z) (xs : list Z) :
  StronglySorted Z.lt (x0 :: xs) ->
  forall x, In x (x0 :: xs) -> x0 <= x <= List.last xs x0.
Proof.
  revert x0. induction xs as [|a xs IH]; intros x0 Hs x Hx.
  - destruct Hx as [<-|[]]. cbn. lia.
  - apply StronglySorted_inv in Hs as [Hs Hall].
    pose proof (proj1 (List.Forall_forall _ _) Hall) as Hlt.
    assert (Ha : x0 < a) by (apply Hlt; now left).
    rewrite last_cons. destruct Hx as [<-|Hx].
    + pose proof (IH a Hs a (or_introl eq_refl)). lia.
    + pose proof (IH a Hs x Hx). lia.
Qed.

Lemma zrange_In (n x : Z) : In x (zrange n) <-> 0 <= x < n.
Proof.
  unfold zrange. rewrite in_map_iff. split.
  - intros (k & <- & Hk). apply in_seq in Hk. lia.
  - intros H. exists (Z.to_nat x). split; [lia|]. apply in_seq. lia.
Qed.

Lemma zrange_ascending (n : Z) : StronglySorted Z.lt (zrange n).
Proof.
  unfold zrange. generalize (Z.to_nat n) as k, 0%nat as s.
  induction k as [|k IH]; intros s; cbn; constructor; [apply IH|].
  apply List.Forall_forall. intros x Hx.
  apply in_map_iff in Hx as (j & <- & Hj). apply in_seq in Hj. lia.
Qed.

(** The first and the last element that pass a test over [0..n-1] pass
    it, and enclose every other element that does. *)
Lemma filter_zrange_bounds (f : Z -> bool) (n x0 : Z) (xs : list Z) :
  List.filter f (zrange n) = x0 :: xs ->
  (0 <= x0 < n /\ f x0 = true)
  /\ (0 <= List.last xs x0 < n /\ f (List.last xs x0) = true)
  /\ forall x, 0 <= x < n -> f x = true -> x0 <= x <= List.last xs x0.
Proof.
  intros E.
  pose proof (StronglySorted_filter f _ (zrange_ascending n)) as Hs.
  rewrite E in Hs.
  assert (Hin : forall x, In x (x0 :: xs) <-> (0 <= x < n) /\ f x = true).
  { intros x. rewrite <- E, filter_In, zrange_In. reflexivity. }
  split; [apply Hin; now left|].
  split; [apply Hin, last_In|].
  intros x Hx Hf. apply (ascending_bounds x0 xs Hs). apply Hin. auto.
Qed.

Lemma filter_zrange_nil (f : Z -> bool) (n : Z) :
  List.filter f (zrange n) = [] -> forall x, 0 <= x < n -> f x = false.
Proof.
  intros E x Hx. destruct (f x) eqn:Hf; [|reflexivity].
  assert (Hin : In x (List.filter f (zrange n)))
    by (apply filter_In; split; [now apply zrange_In | assumption]).
  rewrite E in Hin. destruct Hin.
Qed.

End Ascending.

Lemma inside_spec (img : Image) (x y : Z) :
  inside img x y = true <-> (0 <= x < width img /\ 0 <= y < height img).
Proof. unfold inside. rewrite !andb_true_iff. lia. Qed.

Lemma col_has_spec (img : Image) (x : Z) :
  col_has img x = true
  <-> exists y, 0 <= y < height img /\ visible img x y = true.
Proof.
  unfold col_has. rewrite existsb_exists. setoid_rewrite zrange_In.
  reflexivity.
Qed.

Lemma row_has_spec (img : Image) (y : Z) :
  row_has img y = true
  <-> exists x, 0 <= x < width img /\ visible img x y = true.
Proof.
  unfold row_has. rewrite existsb_exists. setoid_rewrite zrange_In.
  reflexivity.
Qed.

(** [getbbox] finds no box exactly when no pixel inside is visible. *)
Lemma getbbox_None (img : Image) :
  getbbox img = None ->
  forall x y, inside img x y = true -> visible img x y = false.
Proof.
  unfold getbbox. intros E x y Hin. apply inside_spec in Hin as [Hx Hy].
  destruct (visible img x y) eqn:V; [exfalso | reflexivity].
  destruct (List.filter (col_has img) (zrange (width img))) as [|x0 xs] eqn:Ec.
  - pose proof (filter_zrange_nil _ _ Ec x Hx) as Hc.
    assert (col_has img x = true) by (apply col_has_spec; eauto).
    congruence.
  - destruct (List.filter (row_has img) (zrange (height img)))
      as [|y0 ys] eqn:Er; [|discriminate].
    pose proof (filter_zrange_nil _ _ Er y Hy) as Hr.
    assert (row_has img y = true) by (apply row_has_spec; eauto).
    congruence.
Qed.

(** A column, or a row, of the image [img] that shows a visible pixel. *)
Definition col_visible (img : Image) (x : Z) : Prop :=
  exists y, 0 <= y < height img /\ visible img x y = true.

Definition row_visible (img : Image) (y : Z) : Prop :=
  exists x, 0 <= x < width img /\ visible img x y = true.

(** The box of [getbbox] lies inside the image, holds every visible
    pixel, and each of its four sides touches one. *)
Lemma getbbox_Some (img : Image) (x0 y0 x1 y1 : Z) :
  getbbox img = Some (x0, y0, x1, y1) ->
  (0 <= x0 < x1 /\ x1 <= width img) /\ (0 <= y0 < y1 /\ y1 <= height img)
  /\ (forall x y, inside img x y = true -> visible img x y = true ->
                  x0 <= x < x1 /\ y0 <= y < y1)
  /\ col_visible img x0 /\ col_visible img (x1 - 1)
  /\ row_visible img y0 /\ row_visible img (y1 - 1).
Proof.
  unfold getbbox.
  destruct (List.filter (col_has img) (zrange (width img))) as [|a xs] eqn:Ec;
    [discriminate|].
  destruct (List.filter (row_has img) (zrange (height img))) as [|b ys] eqn:Er;
    [discriminate|].
  intros [= <- <- <- <-].
  destruct (filter_zrange_bounds _ _ _ _ Ec) as ((Ha & Hfa) & (Hl & Hfl) & Hx).
  destruct (filter_zrange_bounds _ _ _ _ Er) as ((Hb & Hfb) & (Hm & Hfm) & Hy).
  pose proof (Hx a Ha Hfa). pose proof (Hy b Hb Hfb).
  replace (List.last xs a + 1 - 1) with (List.last xs a) by lia.
  replace (List.last ys b + 1 - 1) with (List.last ys b) by lia.
  repeat split; try lia;
    try (apply col_has_spec; assumption);
    try (apply row_has_spec; assumption);
    match goal with
    | Hi : inside _ ?x ?y = true, Hv : visible _ ?x ?y = true |- _ =>
        apply inside_spec in Hi as [Hix Hiy];
        assert (col_has img x = true) by (apply col_has_spec; eauto);
        assert (row_has img y = true) by (apply row_has_spec; eauto);
        pose proof (Hx x Hix ltac:(assumption));
        pose proof (Hy y Hiy ltac:(assumption)); lia
    end.
Qed.

(** Cropping to the box keeps the pixels of the box. *)
Lemma crop_px (img : Image) (x0 y0 x1 y1 x y : Z) :
  0 <= x0 -> x1 <= width img -> 0 <= y0 -> y1 <= height img ->
  inside (crop img (x0, y0, x1, y1)) x y = true ->
  px (crop img (x0, y0, x1, y1)) x y = px img (x + x0) (y + y0).
Proof.
  intros Hx0 Hx1 Hy0 Hy1 Hin. apply inside_spec in Hin. cbn in *.
  assert (Hi : inside img (x + x0) (y + y0) = true)
    by (apply inside_spec; lia).
  now rewrite Hi.
Qed.

(** The four sides of an image each show a visible pixel. *)
Definition tight (img : Image) : Prop :=
  col_visible img 0 /\ col_visible img (width img - 1)
  /\ row_visible img 0 /\ row_visible img (height img - 1).

(** What lines 126-129 return: the canvas itself when nothing is visible,
    otherwise exactly the box around the visible pixels, which is tight. *)
Lemma crop_to_bbox_spec (canvas : Image) :
  ((forall x y, inside canvas x y = true -> visible canvas x y = false)
   /\ crop_to_bbox canvas = canvas)
  \/ (exists x0 y0 x1 y1,
        crop_to_bbox canvas = crop canvas (x0, y0, x1, y1)
        /\ (0 <= x0 < x1 /\ x1 <= width canvas)
        /\ (0 <= y0 < y1 /\ y1 <= height canvas)
        /\ (forall x y, inside canvas x y = true ->
                        visible canvas x y = true ->
                        x0 <= x < x1 /\ y0 <= y < y1)
        /\ (forall x y, inside (crop_to_bbox canvas) x y = true ->
                        px (crop_to_bbox canvas) x y
                        = px canvas (x + x0) (y + y0))
        /\ tight (crop_to_bbox canvas)).
Proof.
  unfold crop_to_bbox. destruct (getbbox canvas) as [[[[x0 y0] x1] y1]|] eqn:E.
  - right. exists x0, y0, x1, y1.
    destruct (getbbox_Some _ _ _ _ _ E)
      as (Hx & Hy & Hbox & Hc0 & Hc1 & Hr0 & Hr1).
    assert (Hpx : forall x y, inside (crop canvas (x0, y0, x1, y1)) x y = true ->
                    px (crop canvas (x0, y0, x1, y1)) x y
                    = px canvas (x + x0) (y + y0))
      by (intros; apply crop_px; lia || assumption).
    split; [reflexivity|]. split; [lia|]. split; [lia|].
    split; [exact Hbox|]. split; [exact Hpx|].
    unfold tight. split; [|split; [|split]].
    + destruct Hc0 as (y & Hyr & Hv).
      assert (Hi : inside canvas x0 y = true) by (apply inside_spec; lia).
      destruct (Hbox x0 y Hi Hv) as [_ Hyb].
      exists (y - y0). split; [cbn; lia|]. unfold visible in *.
      rewrite Hpx by (apply inside_spec; cbn; lia).
      now replace (0 + x0) with x0 by lia; replace (y - y0 + y0) with y by lia.
    + destruct Hc1 as (y & Hyr & Hv).
      assert (Hi : inside canvas (x1 - 1) y = true)
        by (apply inside_spec; lia).
      destruct (Hbox _ y Hi Hv) as [_ Hyb].
      exists (y - y0). split; [cbn; lia|]. unfold visible in *.
      rewrite Hpx by (apply inside_spec; cbn; lia). cbn.
      now replace (x1 - x0 - 1 + x0) with (x1 - 1) by lia;
        replace (y - y0 + y0) with y by lia.
    + destruct Hr0 as (x & Hxr & Hv).
      assert (Hi : inside canvas x y0 = true) by (apply inside_spec; lia).
      destruct (Hbox x y0 Hi Hv) as [Hxb _].
      exists (x - x0). split; [cbn; lia|]. unfold visible in *.
      rewrite Hpx by (apply inside_spec; cbn; lia).
      now replace (0 + y0) with y0 by lia; replace (x - x0 + x0) with x by lia.
    + destruct Hr1 as (x & Hxr & Hv).
      assert (Hi : inside canvas x (y1 - 1) = true)
        by (apply inside_spec; lia).
      destruct (Hbox x _ Hi Hv) as [Hxb _].
      exists (x - x0). split; [cbn; lia|]. unfold visible in *.
      rewrite Hpx by (apply inside_spec; cbn; lia). cbn.
      now replace (y1 - y0 - 1 + y0) with (y1 - 1) by lia;
        replace (x - x0 + x0) with x by lia.
  - left. split; [|reflexivity]. now apply getbbox_None.
Qed.

(** ** Sizes and validity of the intermediate images *)

Definition wf_pixel (p : Pixel) : Prop :=
  0 <= R p <= 255 /\ 0 <= G p <= 255 /\ 0 <= B p <= 255 /\ 0 <= A p <= 255.

(** A valid RGBA image: a size that is not negative and four bytes in
    every pixel of the raster. *)
Definition valid_image (img : Image) : Prop :=
  0 <= width img /\ 0 <= height img
  /\ forall x y, inside img x y = true -> wf_pixel (px img x y).

Lemma bind_Ok {A B} (a : A) (k : A -> result B) : (Ok a ≫= k) = k a.
Proof. reflexivity. Qed.

Lemma wf_clear : wf_pixel clear.
Proof. unfold wf_pixel, clear; cbn; lia. Qed.

Lemma u8_range (v : Z) : 0 <= u8 v <= 255.
Proof. unfold u8. pose proof (Z.mod_pos_bound v 256). lia. Qed.

Lemma new_spec (w h : Z) :
  0 <= w -> 0 <= h ->
  exists out, new w h = Ok out /\ width out = w /\ height out = h
              /\ valid_image out
              /\ forall x y, px out x y = clear.
Proof.
  intros Hw Hh. unfold new.
  destruct (Z.ltb_spec w 0); [lia|]. destruct (Z.ltb_spec h 0); [lia|].
  eexists. split; [reflexivity|]. cbn.
  split; [reflexivity|]. split; [reflexivity|].
  split; [|reflexivity].
  split; [assumption|]. split; [assumption|]. intros x y _. apply wf_clear.
Qed.

(** Every pixel of the image is opaque. *)
Definition opaque_everywhere (img : Image) : Prop :=
  1 <= width img /\ 1 <= height img
  /\ forall x y, inside img x y = true -> A (px img x y) = 255.

Lemma resize_nearest_spec (img : Image) (w h : Z) :
  1 <= w -> 1 <= h ->
  exists out, resize_nearest img w h = Ok out
              /\ width out = w /\ height out = h
              /\ (opaque_everywhere img -> opaque_everywhere out).
Proof.
  intros Hw Hh. unfold resize_nearest.
  destruct (Z.ltb_spec w 1); [lia|]. destruct (Z.ltb_spec h 1); [lia|].
  eexists. split; [reflexivity|]. split; [reflexivity|].
  split; [reflexivity|].
  intros (HW & HH & Hop). unfold opaque_everywhere. cbn [width height px].
  split; [lia|]. split; [lia|]. intros x y Hin.
  apply inside_spec in Hin. cbn [width height] in Hin.
  apply Hop, inside_spec. split; split;
    try (apply Z.div_pos; nia); apply Z.div_lt_upper_bound; nia.
Qed.

Lemma resize_nearest_raises (img : Image) (size : Z) :
  size < 1 -> resize_nearest img size size = Raise ValueError.
Proof.
  intros H. unfold resize_nearest. destruct (Z.ltb_spec size 1); [|lia].
  reflexivity.
Qed.

Lemma transform_affine_spec (img : Image) (w h : Z)
      (m : Q * Q * Q * Q * Q * Q) :
  0 <= w -> 0 <= h ->
  exists out, transform_affine img w h m = Ok out
              /\ width out = w /\ height out = h
              /\ forall x y,
                  px out x y =
                  let '(a, b, c, d, e, f) := m in
                  let cx := (inject_Z x + (1 # 2))%Q in
                  let cy := (inject_Z y + (1 # 2))%Q in
                  let xin := Qfloor (a * cx + b * cy + c) in
                  let yin := Qfloor (d * cx + e * cy + f) in
                  if inside img xin yin then px img xin yin else clear.
Proof.
  intros Hw Hh. destruct m as [[[[[a b] c] d] e] f]. unfold transform_affine.
  destruct (new_spec w h Hw Hh) as (t & -> & _). rewrite bind_Ok.
  eexists. split; [reflexivity|]. split; [reflexivity|].
  split; reflexivity.
Qed.

Lemma corner_span (a b c d : Q) :
  (d < b)%Q -> 1 <= Qceiling (qmax4 a b c d) - Qfloor (qmin4 a b c d).
Proof.
  intros H.
  assert (Hmax : (b <= qmax4 a b c d)%Q).
  { unfold qmax4. eapply Qle_trans; [|apply Q.le_max_l].
    eapply Qle_trans; [|apply Q.le_max_l]. apply Q.le_max_r. }
  assert (Hmin : (qmin4 a b c d <= d)%Q) by (unfold qmin4; apply Q.le_min_r).
  pose proof (Qle_ceiling (qmax4 a b c d)) as Hc.
  pose proof (Qfloor_le (qmin4 a b c d)) as Hf.
  assert (Hlt : (inject_Z (Qfloor (qmin4 a b c d))
                 < inject_Z (Qceiling (qmax4 a b c d)))%Q).
  { eapply Qle_lt_trans; [exact Hf|]. eapply Qle_lt_trans; [exact Hmin|].
    eapply Qlt_le_trans; [exact H|]. eapply Qle_trans; [exact Hmax|exact Hc]. }
  rewrite <- Zlt_Qlt in Hlt. lia.
Qed.

Lemma corner_span' (a b c d : Q) :
  (a < c)%Q -> 1 <= Qceiling (qmax4 a b c d) - Qfloor (qmin4 a b c d).
Proof.
  intros H.
  assert (Hmax : (c <= qmax4 a b c d)%Q).
  { unfold qmax4. eapply Qle_trans; [|apply Q.le_max_l]. apply Q.le_max_r. }
  assert (Hmin : (qmin4 a b c d <= a)%Q).
  { unfold qmin4. eapply Qle_trans; [apply Q.le_min_l|].
    eapply Qle_trans; [apply Q.le_min_l|]. apply Q.le_min_l. }
  pose proof (Qle_ceiling (qmax4 a b c d)) as Hc.
  pose proof (Qfloor_le (qmin4 a b c d)) as Hf.
  assert (Hlt : (inject_Z (Qfloor (qmin4 a b c d))
                 < inject_Z (Qceiling (qmax4 a b c d)))%Q).
  { eapply Qle_lt_trans; [exact Hf|]. eapply Qle_lt_trans; [exact Hmin|].
    eapply Qlt_le_trans; [exact H|]. eapply Qle_trans; [exact Hmax|exact Hc]. }
  rewrite <- Zlt_Qlt in Hlt. lia.
Qed.

(** A rotated image of at least one pixel has at least one pixel. *)
Lemma expanded_size_pos (w h : Z) :
  1 <= w -> 1 <= h ->
  let '(nw, nh) :=
    expanded_size (rotation_matrix (inject_Z w) (inject_Z h))
                  (inject_Z w) (inject_Z h) in
  1 <= nw /\ 1 <= nh.
Proof.
  intros Hw Hh.
  assert (HW : (inject_Z 1 <= inject_Z w)%Q) by (now rewrite <- Zle_Qle).
  assert (HH : (inject_Z 1 <= inject_Z h)%Q) by (now rewrite <- Zle_Qle).
  change (inject_Z 1) with 1%Q in HW, HH.
  unfold expanded_size, rotation_matrix.
  cbv beta iota zeta delta [affine_apply]. split.
  - apply corner_span. unfold cos45. lra.
  - apply corner_span'. unfold cos45. lra.
Qed.

Lemma rotate45_expand_spec (img : Image) :
  1 <= width img -> 1 <= height img ->
  exists out, rotate45_expand img = Ok out
              /\ 1 <= width out /\ 1 <= height out.
Proof.
  intros Hw Hh. unfold rotate45_expand.
  pose proof (expanded_size_pos (width img) (height img) Hw Hh) as Hs.
  cbv zeta.
  destruct (expanded_size _ _ _) as [nw nh]. destruct Hs as [Hnw Hnh].
  destruct (affine_apply _ _ _) as [ux uy].
  destruct (transform_affine_spec img nw nh
              (cos45, - cos45, ux, cos45, cos45, uy)%Q
              ltac:(lia) ltac:(lia)) as (out & E & Ew & Eh & _).
  exists out. rewrite Ew, Eh. auto.
Qed.

Lemma sheared_spec (side : Image) (shear : Q) :
  shear = shear_left \/ shear = shear_right ->
  0 <= width side -> 0 <= height side ->
  exists out, sheared side shear = Ok out
              /\ width out = width side + height side / 2
              /\ height out = height side / 2
              /\ forall x, inside side x 0 = true ->
                           px out x 0 = px side x 0.
Proof.
  intros Hs Hw Hh. unfold sheared.
  assert (Ew : py_int (inject_Z (width side)
                       + Qabs shear * inject_Z (height side))
               = width side + height side / 2).
  { destruct Hs as [-> | ->]; unfold py_int, shear_left, shear_right; cbn;
      rewrite Z.quot_div_nonneg by lia; Z.div_mod_to_equations; lia. }
  assert (Eh : py_int (inject_Z (height side) * 0.5) = height side / 2).
  { unfold py_int; cbn.
    rewrite Z.quot_div_nonneg by lia; Z.div_mod_to_equations; lia. }
  cbv zeta. rewrite Ew, Eh.
  pose proof (Z.div_pos (height side) 2 Hh ltac:(lia)) as H2.
  destruct (transform_affine_spec side (width side + height side / 2)
              (height side / 2) (1, shear, 0, 0, 0.5, 0)%Q
              ltac:(lia) H2) as (out & E & Eow & Eoh & Hpx).
  exists out. split; [exact E|]. split; [exact Eow|]. split; [exact Eoh|].
  intros x Hin. rewrite Hpx. cbv zeta beta iota.
  assert (Ex : Qfloor (1 * (inject_Z x + (1 # 2))
                       + shear * (inject_Z 0 + (1 # 2)) + 0) = x).
  { destruct Hs as [-> | ->]; unfold shear_left, shear_right; cbn;
      Z.div_mod_to_equations; lia. }
  assert (Ey : Qfloor (0 * (inject_Z x + (1 # 2))
                       + 0.5 * (inject_Z 0 + (1 # 2)) + 0) = 0).
  { cbn. Z.div_mod_to_equations. lia. }
  rewrite Ex, Ey, Hin. reflexivity.
Qed.

Lemma brighten_size (img : Image) (factor : Q) :
  width (brighten img factor) = width img
  /\ height (brighten img factor) = height img.
Proof. unfold brighten. destruct (Qeq_bool factor 1); split; reflexivity. Qed.

Lemma brighten_alpha (img : Image) (factor : Q) (x y : Z) :
  A (px (brighten img factor) x y) = A (px img x y).
Proof. unfold brighten. destruct (Qeq_bool factor 1); reflexivity. Qed.

(** An opaque pixel stays opaque whatever is composited over it, and an
    opaque pixel composited over anything is opaque. *)
Lemma over_keeps_opaque (dst src : Pixel) :
  A dst = 255 -> A (over dst src) = 255.
Proof.
  intros H. unfold over. destruct (A src =? 0); [assumption|]. cbn [A].
  rewrite H.
  replace (A src * 255 + 255 * (255 - A src) + 128) with 65153 by lia.
  reflexivity.
Qed.

Lemma over_opaque (dst src : Pixel) :
  A src = 255 -> 0 <= A dst <= 255 -> A (over dst src) = 255.
Proof.
  intros H Hd. unfold over. rewrite H. cbn [Z.eqb A].
  replace (255 * 255 + A dst * (255 - 255) + 128) with 65153 by lia.
  reflexivity.
Qed.

Lemma over_wf (dst src : Pixel) : wf_pixel dst -> wf_pixel (over dst src).
Proof.
  intros Hd. unfold over. destruct (A src =? 0); [assumption|].
  unfold wf_pixel. cbn [R G B A]. repeat split; apply u8_range.
Qed.

(** The script's [alpha_composite] keeps the size of [dest] and, bytes
    being bytes, its validity. *)
Lemma alpha_composite_spec (dest src : Image) (offset : Z * Z) :
  0 <= width dest -> 0 <= height dest ->
  exists out, alpha_composite dest src offset = Ok out
              /\ width out = width dest /\ height out = height dest
              /\ (valid_image dest -> valid_image out)
              /\ (forall x y, A (px dest x y) = 255 -> A (px out x y) = 255)
              /\ (forall x y,
                    inside src (x - fst offset) (y - snd offset) = true ->
                    A (px src (x - fst offset) (y - snd offset)) = 255 ->
                    0 <= A (px dest x y) <= 255 ->
                    A (px out x y) = 255).
Proof.
  intros Hw Hh. unfold alpha_composite.
  destruct (new_spec _ _ Hw Hh) as (tmp & -> & _ & _ & _ & Htmp).
  rewrite bind_Ok.
  eexists. split; [reflexivity|]. cbn [width height].
  split; [reflexivity|]. split; [reflexivity|].
  unfold alpha_composite_images. cbn [px]. split; [|split].
  - intros (_ & _ & Hpx). unfold valid_image. cbn [width height px].
    split; [assumption|]. split; [assumption|]. intros x y Hin.
    apply over_wf, Hpx.
    apply inside_spec. apply inside_spec in Hin. exact Hin.
  - intros x y H. now apply over_keeps_opaque.
  - intros x y Hin Ha Hd. apply over_opaque; [|assumption].
    unfold paste. cbn [px]. rewrite Hin, Ha, Htmp. reflexivity.
Qed.

(** For a size of at least one, lines 84-124 raise nothing and yield a
    valid canvas of at least one pixel; for a size of at least two, a
    side texture that is opaque everywhere leaves an opaque pixel on it. *)
Lemma iso_canvas_spec (top_img left_img right_img : Image) (size : Z) :
  1 <= size ->
  exists canvas,
    iso_canvas top_img left_img right_img size = Ok canvas
    /\ 1 <= width canvas /\ 1 <= height canvas /\ valid_image canvas
    /\ (2 <= size ->
        opaque_everywhere left_img \/ opaque_everywhere right_img ->
        exists x y, inside canvas x y = true /\ A (px canvas x y) = 255).
Proof.
  intros Hs. unfold iso_canvas, nearest_resize.
  destruct (resize_nearest_spec top_img size size Hs Hs)
    as (top & -> & Tw & Th & _).
  rewrite bind_Ok.
  destruct (resize_nearest_spec left_img size size Hs Hs)
    as (left & -> & Lw & Lh & Lop).
  rewrite bind_Ok.
  destruct (resize_nearest_spec right_img size size Hs Hs)
    as (right & -> & Rw & Rh & Rop).
  rewrite bind_Ok.
  destruct (rotate45_expand_spec top ltac:(lia) ltac:(lia))
    as (top_rot & -> & TRw & TRh).
  rewrite bind_Ok. cbv zeta.
  destruct (resize_nearest_spec top_rot (width top_rot)
              (Z.max 1 (py_int (inject_Z (height top_rot) * 0.5)))
              TRw ltac:(lia)) as (top_iso & -> & TIw & TIh & _).
  rewrite bind_Ok.
  unfold left_iso_of, right_iso_of.
  destruct (sheared_spec left shear_left (or_introl eq_refl)
              ltac:(lia) ltac:(lia)) as (li & -> & LIw & LIh & LIpx).
  rewrite !bind_Ok.
  destruct (sheared_spec right shear_right (or_intror eq_refl)
              ltac:(lia) ltac:(lia)) as (ri & -> & RIw & RIh & RIpx).
  rewrite !bind_Ok.
  destruct (brighten_size li 0.92) as [BLw BLh].
  destruct (brighten_size ri 0.82) as [BRw BRh].
  pose proof (brighten_alpha li 0.92) as BLa.
  pose proof (brighten_alpha ri 0.82) as BRa.
  set (bl := brighten li 0.92) in *. set (br := brighten ri 0.82) in *.
  rewrite Lw, Lh in LIw. rewrite Lh in LIh.
  rewrite Rw, Rh in RIw. rewrite Rh in RIh.
  assert (H0 : 0 <= size / 2) by (apply Z.div_pos; lia).
  assert (Hcw : 1 <= width top_iso + width bl + width br) by lia.
  assert (Hch : 1 <= height top_iso + Z.max (height bl) (height br)) by lia.
  destruct (new_spec (width top_iso + width bl + width br)
              (height top_iso + Z.max (height bl) (height br))
              ltac:(lia) ltac:(lia)) as (c0 & -> & C0w & C0h & C0v & C0px).
  rewrite bind_Ok.
  set (top_x := (width top_iso + width bl + width br - width top_iso) / 2).
  destruct (alpha_composite_spec c0 bl
              (top_x - width bl / 2, height top_iso - 1)
              ltac:(lia) ltac:(lia))
    as (c1 & -> & C1w & C1h & C1v & C1keep & C1put).
  rewrite bind_Ok.
  destruct (alpha_composite_spec c1 br
              (top_x + width top_iso - width br / 2, height top_iso - 1)
              ltac:(lia) ltac:(lia))
    as (c2 & -> & C2w & C2h & C2v & C2keep & C2put).
  rewrite bind_Ok.
  destruct (alpha_composite_spec c2 top_iso (top_x, 0)
              ltac:(lia) ltac:(lia))
    as (c3 & -> & C3w & C3h & C3v & C3keep & _).
  exists c3. split; [reflexivity|]. split; [lia|]. split; [lia|].
  split; [auto|]. intros Hs2 Hop.
  set (s := size + size / 2) in *.
  assert (Hh2 : 1 <= size / 2) by (Z.div_mod_to_equations; lia).
  assert (Etx : top_x = s).
  { unfold top_x. rewrite BLw, BRw, LIw, RIw.
    replace (width top_iso + s + s - width top_iso) with (s * 2) by lia.
    apply Z.div_mul. lia. }
  assert (Hs2' : 0 <= s / 2 <= s) by (Z.div_mod_to_equations; lia).
  destruct Hop as [Hop | Hop].
  - destruct (Lop Hop) as (_ & _ & Hleft).
    exists (top_x - width bl / 2), (height top_iso - 1).
    assert (Hin : inside c3 (top_x - width bl / 2) (height top_iso - 1)
                  = true).
    { apply inside_spec. rewrite C3w, C3h, C2w, C2h, C1w, C1h, C0w, C0h.
      rewrite Etx, BLw, BRw, LIw, RIw. lia. }
    split; [exact Hin|]. apply C3keep, C2keep, C1put; cbn [fst snd].
    + replace (top_x - width bl / 2 - (top_x - width bl / 2)) with 0 by lia.
      replace (height top_iso - 1 - (height top_iso - 1)) with 0 by lia.
      apply inside_spec. lia.
    + replace (top_x - width bl / 2 - (top_x - width bl / 2)) with 0 by lia.
      replace (height top_iso - 1 - (height top_iso - 1)) with 0 by lia.
      assert (Hi : inside left 0 0 = true) by (apply inside_spec; lia).
      rewrite BLa, (LIpx 0 Hi). now apply Hleft.
    + rewrite C0px. cbn. lia.
  - destruct (Rop Hop) as (_ & _ & Hright).
    exists (top_x + width top_iso - width br / 2), (height top_iso - 1).
    assert (Hin : inside c3 (top_x + width top_iso - width br / 2)
                    (height top_iso - 1) = true).
    { apply inside_spec. rewrite C3w, C3h, C2w, C2h, C1w, C1h, C0w, C0h.
      rewrite Etx, BLw, BRw, LIw, RIw. lia. }
    split; [exact Hin|]. apply C3keep, C2put; cbn [fst snd].
    + replace (top_x + width top_iso - width br / 2
               - (top_x + width top_iso - width br / 2)) with 0 by lia.
      replace (height top_iso - 1 - (height top_iso - 1)) with 0 by lia.
      apply inside_spec. lia.
    + replace (top_x + width top_iso - width br / 2
               - (top_x + width top_iso - width br / 2)) with 0 by lia.
      replace (height top_iso - 1 - (height top_iso - 1)) with 0 by lia.
      assert (Hi : inside right 0 0 = true) by (apply inside_spec; lia).
      rewrite BRa, (RIpx 0 Hi). now apply Hright.
    + destruct C1v as (_ & _ & Hwf); [exact C0v|].
      assert (Hi1 : inside c1 (top_x + width top_iso - width br / 2)
                      (height top_iso - 1) = true).
      { apply inside_spec. rewrite C1w, C1h, C0w, C0h.
        rewrite Etx, BLw, BRw, LIw, RIw. lia. }
      apply (Hwf _ _ Hi1).
Qed.

Lemma crop_to_bbox_valid (canvas : Image) :
  valid_image canvas -> 1 <= width canvas -> 1 <= height canvas ->
  valid_image (crop_to_bbox canvas)
  /\ 1 <= width (crop_to_bbox canvas) /\ 1 <= height (crop_to_bbox canvas).
Proof.
  intros Hv Hw Hh.
  destruct (crop_to_bbox_spec canvas)
    as [[_ ->] | (x0 & y0 & x1 & y1 & E & Hx & Hy & _ & Hpx & _)]; [auto|].
  rewrite E in *. split; [|cbn [crop width height]; lia].
  split; [cbn [crop width height]; lia|].
  split; [cbn [crop width height]; lia|]. intros x y Hin.
  rewrite (Hpx x y Hin). destruct Hv as (_ & _ & Hwf). apply Hwf.
  apply inside_spec in Hin. cbn [crop width height] in Hin.
  apply inside_spec. lia.
Qed.

(** C7: for a size of at least one [make_iso_cube] returns the composite
    cropped to the exact box around its pixels that are not fully
    transparent: the box leaves out no such pixel, and the first and last
    column and the first and last row of the result each hold one.  When
    the composite has no such pixel, the canvas is returned as it is. *)
Theorem make_iso_cube_cropped (top_img left_img right_img : Image) (size : Z) :
  1 <= size ->
  exists canvas out,
    iso_canvas top_img left_img right_img size = Ok canvas
    /\ make_iso_cube top_img left_img right_img size = Ok out
    /\ ((forall x y, inside canvas x y = true -> visible canvas x y = false) ->
        out = canvas)
    /\ ((exists x y, inside canvas x y = true /\ visible canvas x y = true) ->
        exists x0 y0 x1 y1,
          out = crop canvas (x0, y0, x1, y1)
          /\ (0 <= x0 < x1 /\ x1 <= width canvas)
          /\ (0 <= y0 < y1 /\ y1 <= height canvas)
          /\ (forall x y, inside canvas x y = true ->
                          visible canvas x y = true ->
                          x0 <= x < x1 /\ y0 <= y < y1)
          /\ (forall x y, inside out x y = true ->
                          px out x y = px canvas (x + x0) (y + y0))
          /\ tight out).
Proof.
  intros Hs.
  destruct (iso_canvas_spec top_img left_img right_img size Hs)
    as (canvas & E & Hw & Hh & Hv & _).
  exists canvas, (crop_to_bbox canvas). split; [exact E|].
  split; [unfold make_iso_cube; now rewrite E|].
  destruct (crop_to_bbox_spec canvas)
    as [[Hnone Eq] | (x0 & y0 & x1 & y1 & Eq & Hx & Hy & Hbox & Hpx & Ht)].
  - split; [auto|]. intros (x & y & Hin & Hvis).
    rewrite (Hnone x y Hin) in Hvis. discriminate.
  - split.
    + intros Hnone. exfalso.
      destruct Ht as ((y & Hyr & Hvis) & _).
      unfold visible in Hvis. rewrite Eq in Hyr. cbn [crop height] in Hyr.
      rewrite Hpx in Hvis
        by (apply inside_spec; rewrite Eq; cbn [crop width height]; lia).
      assert (Hin : inside canvas (0 + x0) (y + y0) = true)
        by (apply inside_spec; lia).
      specialize (Hnone _ _ Hin). unfold visible in Hnone.
      rewrite Hnone in Hvis. discriminate.
    + intros _. exists x0, y0, x1, y1. auto 10.
Qed.

Lemma make_iso_cube_cropped_witness :
  1 <= 4 /\
  exists canvas out,
    iso_canvas (dot 4 4) (dot 4 4) (dot 4 4) 4 = Ok canvas
    /\ make_iso_cube (dot 4 4) (dot 4 4) (dot 4 4) 4 = Ok out
    /\ ((exists x y, inside canvas x y = true /\ visible canvas x y = true) ->
        tight out).
Proof.
  split; [lia|].
  destruct (make_iso_cube_cropped (dot 4 4) (dot 4 4) (dot 4 4) 4 ltac:(lia))
    as (canvas & out & E1 & E2 & _ & Hbox).
  exists canvas, out. split; [exact E1|]. split; [exact E2|].
  intros Hvis. destruct (Hbox Hvis) as (x0 & y0 & x1 & y1 & H).
  apply H.
Defined.

(** What can be observed of a result: the size of the image, and whether
    it holds a visible and an opaque pixel. *)
Definition observe (r : result Image) : result (Z * Z * bool * bool) :=
  img ← r; Ok (width img, height img, has_visible img, has_opaque img).

(** A solid opaque texture at size 4: the composite is 18 by 5 pixels and
    the cropped result 10 by 4. *)
Example make_iso_cube_solid :
  let red := solid 4 4 (mkPixel 200 10 10 255) in
  observe (iso_canvas red red red 4) = Ok (18, 5, true, true)
  /\ observe (make_iso_cube red red red 4) = Ok (10, 4, true, true)
  /\ (canvas ← iso_canvas red red red 4; Ok (getbbox canvas))
     = Ok (Some (3, 0, 13, 4)).
Proof. repeat split; vm_compute; reflexivity. Qed.

Lemma has_opaque_spec (img : Image) :
  has_opaque img = true
  <-> exists x y, inside img x y = true /\ A (px img x y) = 255.
Proof.
  unfold has_opaque. rewrite existsb_exists. split.
  - intros (y & Hy & H). apply existsb_exists in H as (x & Hx & H).
    apply zrange_In in Hx, Hy. exists x, y.
    split; [apply inside_spec; lia | lia].
  - intros (x & y & Hin & H). apply inside_spec in Hin.
    exists y. split; [apply zrange_In; lia|].
    apply existsb_exists. exists x. split; [apply zrange_In; lia | lia].
Qed.

(** Cropping to the bounding box keeps every opaque pixel. *)
Lemma crop_to_bbox_opaque (canvas : Image) :
  (exists x y, inside canvas x y = true /\ A (px canvas x y) = 255) ->
  exists x y, inside (crop_to_bbox canvas) x y = true
              /\ A (px (crop_to_bbox canvas) x y) = 255.
Proof.
  intros (x & y & Hin & Ha).
  destruct (crop_to_bbox_spec canvas)
    as [[_ ->] | (x0 & y0 & x1 & y1 & E & Hx & Hy & Hbox & Hpx & _)];
    [eauto|].
  assert (Hvis : visible canvas x y = true)
    by (unfold visible; rewrite Ha; reflexivity).
  destruct (Hbox x y Hin Hvis) as [Hbx Hby].
  assert (Hin' : inside (crop_to_bbox canvas) (x - x0) (y - y0) = true)
    by (rewrite E; apply inside_spec; cbn [crop width height]; lia).
  exists (x - x0), (y - y0). split; [exact Hin'|].
  rewrite (Hpx _ _ Hin').
  now replace (x - x0 + x0) with x by lia; replace (y - y0 + y0) with y by lia.
Qed.

(** ** The layers of the composite *)

Lemma byte_cases (P : Z -> bool) :
  forallb P (zrange 256) = true -> forall v, 0 <= v <= 255 -> P v = true.
Proof.
  intros H v Hv. apply (proj1 (forallb_forall P (zrange 256)) H).
  apply zrange_In. lia.
Qed.

(** A full mask pastes the byte as it is. *)
Lemma blend_full (v : Z) : 0 <= v <= 255 -> blend 255 0 v = v.
Proof.
  intros Hv. apply Z.eqb_eq.
  apply (byte_cases (fun v => blend 255 0 v =? v)); [|exact Hv].
  vm_compute. reflexivity.
Qed.

(** An opaque pixel composited over any pixel is the result. *)
Lemma over_opaque_src (dst src : Pixel) :
  wf_pixel src -> A src = 255 -> over dst src = src.
Proof.
  intros (HR & HG & HB & _) Ha. unfold over. rewrite Ha. cbn [Z.eqb].
  replace (A dst * (255 - 255)) with 0 by lia.
  change ((255 * 255 * 255 * 128) / (255 * 255 + 0)) with 32640.
  change (255 * 128 - 32640) with 0.
  change (shift_div255 (255 * 255 + 0 + 128)) with 255.
  assert (Hc : forall s d, 0 <= s <= 255 ->
             u8 (Z.shiftr (shift_div255 (s * 32640 + d * 0 + 128 * 128)) 7)
             = s).
  { intros s d Hs. rewrite Z.mul_0_r, Z.add_0_r. apply Z.eqb_eq.
    apply (byte_cases
             (fun s => u8 (Z.shiftr (shift_div255 (s * 32640 + 128 * 128)) 7)
                       =? s)); [|exact Hs].
    vm_compute. reflexivity. }
  rewrite !Hc by assumption. destruct src. cbn in *. now subst.
Qed.

Lemma qmax4_is (a b c d m : Q) :
  (a <= m)%Q -> (b <= m)%Q -> (c <= m)%Q -> (d <= m)%Q ->
  (a == m \/ b == m \/ c == m \/ d == m)%Q ->
  (qmax4 a b c d == m)%Q.
Proof.
  intros Ha Hb Hc Hd Hm. unfold qmax4. apply Qle_antisym.
  - repeat apply Q.max_lub; assumption.
  - assert (Ha' : (a <= Qmax (Qmax (Qmax a b) c) d)%Q).
    { eapply Qle_trans; [|apply Q.le_max_l].
      eapply Qle_trans; [|apply Q.le_max_l]. apply Q.le_max_l. }
    assert (Hb' : (b <= Qmax (Qmax (Qmax a b) c) d)%Q).
    { eapply Qle_trans; [|apply Q.le_max_l].
      eapply Qle_trans; [|apply Q.le_max_l]. apply Q.le_max_r. }
    assert (Hc' : (c <= Qmax (Qmax (Qmax a b) c) d)%Q).
    { eapply Qle_trans; [|apply Q.le_max_l]. apply Q.le_max_r. }
    assert (Hd' : (d <= Qmax (Qmax (Qmax a b) c) d)%Q) by apply Q.le_max_r.
    destruct Hm as [E | [E | [E | E]]]; rewrite <- E; assumption.
Qed.

Lemma qmin4_is (a b c d m : Q) :
  (m <= a)%Q -> (m <= b)%Q -> (m <= c)%Q -> (m <= d)%Q ->
  (a == m \/ b == m \/ c == m \/ d == m)%Q ->
  (qmin4 a b c d == m)%Q.
Proof.
  intros Ha Hb Hc Hd Hm. unfold qmin4. apply Qle_antisym.
  - assert (Ha' : (Qmin (Qmin (Qmin a b) c) d <= a)%Q).
    { eapply Qle_trans; [apply Q.le_min_l|].
      eapply Qle_trans; [apply Q.le_min_l|]. apply Q.le_min_l. }
    assert (Hb' : (Qmin (Qmin (Qmin a b) c) d <= b)%Q).
    { eapply Qle_trans; [apply Q.le_min_l|].
      eapply Qle_trans; [apply Q.le_min_l|]. apply Q.le_min_r. }
    assert (Hc' : (Qmin (Qmin (Qmin a b) c) d <= c)%Q).
    { eapply Qle_trans; [apply Q.le_min_l|]. apply Q.le_min_r. }
    assert (Hd' : (Qmin (Qmin (Qmin a b) c) d <= d)%Q) by apply Q.le_min_r.
    destruct Hm as [E | [E | [E | E]]]; rewrite <- E; assumption.
  - repeat apply Q.min_glb; assumption.
Qed.

(** Linear arithmetic on [Q], halves written as products. *)
Ltac qlin := unfold Qdiv in *; change (/ 2)%Q with (1 # 2)%Q in *; lra.

(** The rotation of a square image is a square image of at least two
    pixels a side. *)
Lemma expanded_size_square (s : Z) :
  1 <= s ->
  exists n,
    expanded_size (rotation_matrix (inject_Z s) (inject_Z s))
                  (inject_Z s) (inject_Z s) = (n, n)
    /\ 2 <= n.
Proof.
  intros Hs.
  assert (HS : (1 <= inject_Z s)%Q)
    by (change 1%Q with (inject_Z 1); now rewrite <- Zle_Qle).
  set (S := inject_Z s) in *.
  set (hi := (cos45 * S + S / 2)%Q).
  set (lo := (S / 2 - cos45 * S)%Q).
  exists (Qceiling hi - Qfloor lo).
  unfold expanded_size, rotation_matrix.
  cbv beta iota zeta delta [affine_apply].
  split.
  - f_equal; f_equal.
    + apply Qceiling_comp. apply qmax4_is; unfold hi, cos45; qlin.
    + apply Qfloor_comp. apply qmin4_is; unfold lo, cos45; qlin.
    + apply Qceiling_comp. apply qmax4_is; unfold hi, cos45; qlin.
    + apply Qfloor_comp. apply qmin4_is; unfold lo, cos45; qlin.
  - pose proof (Qle_ceiling hi) as Hc. pose proof (Qfloor_le lo) as Hf.
    assert (Hlt : (inject_Z (Qfloor lo + 1) < inject_Z (Qceiling hi))%Q).
    { rewrite inject_Z_plus. change (inject_Z 1) with 1%Q.
      unfold hi, lo, cos45 in *. qlin. }
    rewrite <- Zlt_Qlt in Hlt. lia.
Qed.

Lemma Qfloor_range (e : Q) (s : Z) :
  (0 <= e)%Q -> (e < inject_Z s)%Q -> 0 <= Qfloor e < s.
Proof.
  intros H0 Hs.
  pose proof (Qfloor_le e) as Hf. pose proof (Qlt_floor e) as Hl.
  assert (H1 : (inject_Z 0 < inject_Z (Qfloor e + 1))%Q)
    by (change (inject_Z 0) with 0%Q; lra).
  assert (H2 : (inject_Z (Qfloor e) < inject_Z s)%Q) by lra.
  rewrite <- Zlt_Qlt in H1, H2. lia.
Qed.

(** The pixels about the centre of the rotated square are drawn from the
    square: [x - r] and [x + r + 1 - n] tell how far the pixel [(x, r)]
    of the rotated image of side [n] is from its centre. *)
Lemma rotated_pixel_inside (top : Image) (s n x r : Z) :
  1 <= s -> width top = s -> height top = s ->
  (x - r = 0 /\ x + r + 1 - n = 0)
  \/ (2 <= s /\ -1 <= x - r <= 1 /\ -1 <= x + r + 1 - n <= 1) ->
  let S := inject_Z s in
  let d := (- (inject_Z n - S) / 2)%Q in
  let u := affine_apply (rotation_matrix S S) d d in
  inside top
    (Qfloor (cos45 * (inject_Z x + (1 # 2))
             + - cos45 * (inject_Z r + (1 # 2)) + fst u))
    (Qfloor (cos45 * (inject_Z x + (1 # 2))
             + cos45 * (inject_Z r + (1 # 2)) + snd u)) = true.
Proof.
  intros Hs Hw Hh Hnear. cbv zeta.
  unfold rotation_matrix. cbv beta iota zeta delta [affine_apply fst snd].
  apply inside_spec. rewrite Hw, Hh.
  assert (HS : (1 <= inject_Z s)%Q)
    by (change 1%Q with (inject_Z 1); now rewrite <- Zle_Qle).
  set (a := x - r) in *. set (b := x + r + 1 - n) in *.
  assert (Ex : inject_Z x = (inject_Z r + inject_Z a)%Q)
    by (rewrite <- inject_Z_plus; f_equal; lia).
  assert (En : inject_Z n
               = (inject_Z r + inject_Z r + inject_Z a + 1 - inject_Z b)%Q).
  { change 1%Q with (inject_Z 1). unfold Qminus.
    rewrite <- inject_Z_opp, <- !inject_Z_plus. f_equal. lia. }
  rewrite Ex, En.
  assert (Hab : (inject_Z a == 0 /\ inject_Z b == 0
                 \/ 2 <= inject_Z s
                    /\ (-1 <= inject_Z a /\ inject_Z a <= 1)
                    /\ (-1 <= inject_Z b /\ inject_Z b <= 1))%Q).
  { destruct Hnear as [[-> ->] | (H2 & Ha & Hb)].
    - left. split; reflexivity.
    - right. change 2%Q with (inject_Z 2). change 1%Q with (inject_Z 1).
      change (-1)%Q with (inject_Z (-1)). rewrite <- !Zle_Qle. lia. }
  clear Ex En.
  split; apply Qfloor_range; unfold cos45;
    generalize dependent (inject_Z a); generalize dependent (inject_Z b);
    generalize dependent (inject_Z r); generalize dependent (inject_Z s);
    intros S HS R B A [[Ea Eb] | (H2 & [Ha1 Ha2] & [Hb1 Hb2])]; qlin.
Qed.

Lemma py_int_half (n : Z) : 0 <= n -> py_int (inject_Z n * 0.5) = n / 2.
Proof.
  intros Hn. unfold py_int; cbn.
  rewrite Z.quot_div_nonneg by lia. Z.div_mod_to_equations. lia.
Qed.

(** Sampling a column of the same width, and a row of half the height. *)
Lemma same_index (x n : Z) : 1 <= n -> ((2 * x + 1) * n) / (2 * n) = x.
Proof.
  intros Hn. rewrite Z.div_mul_cancel_r by lia.
  Z.div_mod_to_equations. lia.
Qed.

Lemma half_index (y n : Z) :
  2 <= n -> 0 <= y < n / 2 -> ((2 * y + 1) * n) / (2 * (n / 2)) = 2 * y + 1.
Proof.
  intros Hn Hy. symmetry.
  apply Z.div_unique with (r := (2 * y + 1) * (n mod 2)).
  - left. pose proof (Z.mod_pos_bound n 2). nia.
  - pose proof (Z.div_mod n 2). nia.
Qed.

(** Lines 84 and 88-90: the top face, turned by 45 degrees and squeezed
    to half its height. *)
Definition top_face (top_img : Image) (size : Z) : result Image :=
  top ← nearest_resize top_img size size;
  top_rot ← rotate45_expand top;
  nearest_resize top_rot (width top_rot)
    (Z.max 1 (py_int (inject_Z (height top_rot) * 0.5))).

(** The top face of a texture that is opaque everywhere holds an opaque
    pixel, about its centre. *)
Lemma top_face_opaque (top_img : Image) (size : Z) :
  1 <= size -> opaque_everywhere top_img ->
  exists top_iso,
    top_face top_img size = Ok top_iso
    /\ exists x y, inside top_iso x y = true /\ A (px top_iso x y) = 255.
Proof.
  intros Hs Hop. unfold top_face, nearest_resize.
  destruct (resize_nearest_spec top_img size size Hs Hs)
    as (top & -> & Tw & Th & Top).
  rewrite bind_Ok. destruct (Top Hop) as (_ & _ & Hopaque).
  unfold rotate45_expand. rewrite Tw, Th.
  destruct (expanded_size_square size Hs) as (n & En & Hn).
  cbv zeta. rewrite En.
  pose proof (rotated_pixel_inside top size n) as Hrot.
  cbv zeta in Hrot.
  destruct (affine_apply (rotation_matrix (inject_Z size) (inject_Z size))
              (- (inject_Z n - inject_Z size) / 2)
              (- (inject_Z n - inject_Z size) / 2)) as [ux uy].
  cbn [fst snd] in Hrot.
  destruct (transform_affine_spec top n n
              (cos45, - cos45, ux, cos45, cos45, uy)%Q
              ltac:(lia) ltac:(lia)) as (top_rot & -> & Rw & Rh & Rpx).
  rewrite bind_Ok, Rw, Rh, (py_int_half n) by lia.
  replace (Z.max 1 (n / 2)) with (n / 2)
    by (Z.div_mod_to_equations; lia).
  unfold resize_nearest.
  destruct (Z.ltb_spec n 1); [lia|].
  destruct (Z.ltb_spec (n / 2) 1); [Z.div_mod_to_equations; lia|].
  eexists. split; [reflexivity|].
  exists (n / 2), ((n - 2) / 4).
  split; [apply inside_spec; cbn [width height];
          Z.div_mod_to_equations; lia|].
  cbn [px]. rewrite Rw, Rh.
  rewrite same_index by lia.
  rewrite half_index by (Z.div_mod_to_equations; lia).
  rewrite Rpx. cbv zeta beta iota.
  assert (Hnear :
            (n / 2 - (2 * ((n - 2) / 4) + 1) = 0
             /\ n / 2 + (2 * ((n - 2) / 4) + 1) + 1 - n = 0)
            \/ (2 <= size
                /\ -1 <= n / 2 - (2 * ((n - 2) / 4) + 1) <= 1
                /\ -1 <= n / 2 + (2 * ((n - 2) / 4) + 1) + 1 - n <= 1)).
  { destruct (Z.eq_dec size 1) as [->|Hne].
    - left.
      assert (E3 : expanded_size (rotation_matrix (inject_Z 1) (inject_Z 1))
                     (inject_Z 1) (inject_Z 1) = (3, 3))
        by (vm_compute; reflexivity).
      rewrite E3 in En. injection En as <-. split; reflexivity.
    - right. split; [lia|]. Z.div_mod_to_equations. lia. }
  rewrite (Hrot (n / 2) (2 * ((n - 2) / 4) + 1) Hs Tw Th Hnear).
  apply Hopaque.
  exact (Hrot (n / 2) (2 * ((n - 2) / 4) + 1) Hs Tw Th Hnear).
Qed.

(** Lines 85 and 92-99, 86 and 102-108: a side face before it is shaded. *)
Definition side_face (img : Image) (size : Z) (shear : Q) : result Image :=
  side ← nearest_resize img size size;
  sheared side shear.

(** The image has an opaque pixel at the position; the image has no
    pixel, or a fully transparent one, at the position. *)
Definition shows (img : Image) (x y : Z) : bool :=
  inside img x y && (A (px img x y) =? 255).

Definition hidden (img : Image) (x y : Z) : bool :=
  negb (inside img x y) || (A (px img x y) =? 0).

Lemma shows_spec (img : Image) (x y : Z) :
  shows img x y = true <-> inside img x y = true /\ A (px img x y) = 255.
Proof. unfold shows. rewrite andb_true_iff, Z.eqb_eq. reflexivity. Qed.

Lemma hidden_spec (img : Image) (x y : Z) :
  hidden img x y = true <-> inside img x y = false \/ A (px img x y) = 0.
Proof.
  unfold hidden. rewrite orb_true_iff, negb_true_iff, Z.eqb_eq. reflexivity.
Qed.

(** The script's [alpha_composite], pixel by pixel: [dest] shows where
    [src] is hidden, and an opaque pixel of [src] replaces the pixel below
    it. *)
Lemma alpha_composite_px (dest src : Image) (ox oy : Z) :
  0 <= width dest -> 0 <= height dest ->
  exists out,
    alpha_composite dest src (ox, oy) = Ok out
    /\ width out = width dest /\ height out = height dest
    /\ forall x y,
        (hidden src (x - ox) (y - oy) = true -> px out x y = px dest x y)
        /\ (shows src (x - ox) (y - oy) = true ->
            wf_pixel (px src (x - ox) (y - oy)) ->
            px out x y = px src (x - ox) (y - oy)).
Proof.
  intros Hw Hh. unfold alpha_composite.
  destruct (new_spec _ _ Hw Hh) as (tmp & -> & _ & _ & _ & Htmp).
  rewrite bind_Ok. eexists. split; [reflexivity|].
  split; [reflexivity|]. split; [reflexivity|].
  intros x y. unfold alpha_composite_images, paste. cbn [px fst snd].
  rewrite Htmp. split.
  - intros Hhid. apply hidden_spec in Hhid as [-> | Ha]; [reflexivity|].
    destruct (inside src (x - ox) (y - oy)); [|reflexivity].
    unfold over. cbn [A]. rewrite Ha. reflexivity.
  - intros Hsh Hwf. apply shows_spec in Hsh as [-> Ha].
    destruct (px src (x - ox) (y - oy)) as [r g b a].
    unfold wf_pixel in Hwf. cbn [R G B A clear] in *. subst a.
    destruct Hwf as (HR & HG & HB & HA).
    rewrite !blend_full by assumption.
    apply over_opaque_src; [|reflexivity].
    unfold wf_pixel. cbn [R G B A]. auto.
Qed.

(** A resized image is made of pixels of the image. *)
Lemma resize_nearest_px (img : Image) (w h : Z) :
  1 <= w -> 1 <= h -> 1 <= width img -> 1 <= height img ->
  exists out,
    resize_nearest img w h = Ok out
    /\ forall x y,
        inside out x y = true ->
        exists i j, inside img i j = true /\ px out x y = px img i j.
Proof.
  intros Hw Hh HW HH. unfold resize_nearest.
  destruct (Z.ltb_spec w 1); [lia|]. destruct (Z.ltb_spec h 1); [lia|].
  eexists. split; [reflexivity|]. intros x y Hin.
  apply inside_spec in Hin. cbn [width height] in Hin. cbn [px].
  eexists _, _. split; [|reflexivity].
  apply inside_spec. split; split;
    try (apply Z.div_pos; nia); apply Z.div_lt_upper_bound; nia.
Qed.

(** A sheared image is made of pixels of the image and of transparent
    pixels. *)
Lemma sheared_px (side : Image) (shear : Q) :
  shear = shear_left \/ shear = shear_right ->
  0 <= width side -> 0 <= height side ->
  exists out,
    sheared side shear = Ok out
    /\ forall x y,
        px out x y = clear
        \/ exists i j, inside side i j = true /\ px out x y = px side i j.
Proof.
  intros Hs Hw Hh.
  destruct (sheared_spec side shear Hs Hw Hh) as (out & E & Ew & Eh & _).
  exists out. split; [exact E|]. intros x y.
  unfold sheared in E. cbv zeta in E.
  destruct (py_int (inject_Z (width side)
                    + Qabs shear * inject_Z (height side))) as [|nw|nw] eqn:Enw;
    destruct (py_int (inject_Z (height side) * 0.5)) as [|nh|nh] eqn:Enh;
    unfold transform_affine, new in E; cbn in E;
    try discriminate; injection E as <-; cbn [px];
    match goal with
    | |- context [inside side ?i ?j] =>
        destruct (inside side i j) eqn:Hi; [right; eauto | now left]
    end.
Qed.

Lemma brighten_shows (img : Image) (factor : Q) (x y : Z) :
  shows (brighten img factor) x y = shows img x y.
Proof.
  unfold shows, inside. destruct (brighten_size img factor) as [-> ->].
  now rewrite brighten_alpha.
Qed.

Lemma brighten_hidden (img : Image) (factor : Q) (x y : Z) :
  hidden (brighten img factor) x y = hidden img x y.
Proof.
  unfold hidden, inside. destruct (brighten_size img factor) as [-> ->].
  now rewrite brighten_alpha.
Qed.

(** A side face: its size, its pixels, and its first row, which is the
    first row of the resized texture. *)
Lemma side_face_spec (img : Image) (size : Z) (shear : Q) :
  1 <= size -> shear = shear_left \/ shear = shear_right ->
  exists fc,
    side_face img size shear = Ok fc
    /\ width fc = size + size / 2 /\ height fc = size / 2
    /\ (valid_image img -> 1 <= width img -> 1 <= height img ->
        (forall x y, wf_pixel (px fc x y))
        /\ forall x, 0 <= x < size ->
                     exists i j, inside img i j = true
                                 /\ px fc x 0 = px img i j)
    /\ (opaque_everywhere img ->
        forall x, 0 <= x < size -> A (px fc x 0) = 255).
Proof.
  intros Hs Hsh. unfold side_face, nearest_resize.
  destruct (resize_nearest_spec img size size Hs Hs)
    as (side & E & Sw & Sh & Sop).
  rewrite E, bind_Ok.
  destruct (sheared_spec side shear Hsh ltac:(lia) ltac:(lia))
    as (fc & Ef & Fw & Fh & Frow).
  exists fc. split; [exact Ef|]. rewrite Sw, Sh in Fw. rewrite Sh in Fh.
  split; [exact Fw|]. split; [exact Fh|]. split.
  - intros Hv HW HH.
    destruct (resize_nearest_px img size size Hs Hs HW HH)
      as (side' & E' & Hpx).
    assert (side' = side) by congruence. subst side'.
    destruct (sheared_px side shear Hsh ltac:(lia) ltac:(lia))
      as (fc' & Ef' & Hfc).
    assert (fc' = fc) by congruence. subst fc'.
    destruct Hv as (_ & _ & Hwf). split.
    + intros x y. destruct (Hfc x y) as [-> | (i & j & Hi & ->)];
        [apply wf_clear|].
      destruct (Hpx i j Hi) as (i' & j' & Hi' & ->). now apply Hwf.
    + intros x Hx.
      assert (Hi : inside side x 0 = true) by (apply inside_spec; lia).
      rewrite (Frow x Hi). exact (Hpx x 0 Hi).
  - intros Hop x Hx. destruct (Sop Hop) as (_ & _ & Hside).
    assert (Hi : inside side x 0 = true) by (apply inside_spec; lia).
    rewrite (Frow x Hi). now apply Hside.
Qed.

Lemma top_face_spec (top_img : Image) (size : Z) :
  1 <= size ->
  exists top_iso,
    top_face top_img size = Ok top_iso
    /\ 1 <= width top_iso /\ 1 <= height top_iso.
Proof.
  intros Hs. unfold top_face, nearest_resize.
  destruct (resize_nearest_spec top_img size size Hs Hs)
    as (top & -> & Tw & Th & _).
  rewrite bind_Ok.
  destruct (rotate45_expand_spec top ltac:(lia) ltac:(lia))
    as (top_rot & -> & TRw & TRh).
  rewrite bind_Ok.
  destruct (resize_nearest_spec top_rot (width top_rot)
              (Z.max 1 (py_int (inject_Z (height top_rot) * 0.5)))
              TRw ltac:(lia)) as (top_iso & -> & TIw & TIh & _).
  exists top_iso. split; [reflexivity|]. lia.
Qed.

(** Lines 84-124 as three layers: the shaded left face, the shaded right
    face over it, the top face over both, each at its place on a
    transparent canvas. *)
Lemma iso_canvas_layers (top_img left_img right_img : Image) (size : Z) :
  1 <= size ->
  exists top_iso ls rs c0 c1 c2 canvas,
    top_face top_img size = Ok top_iso
    /\ side_face left_img size shear_left = Ok ls
    /\ side_face right_img size shear_right = Ok rs
    /\ iso_canvas top_img left_img right_img size = Ok canvas
    /\ new (width top_iso + width ls + width rs)
           (height top_iso + Z.max (height ls) (height rs)) = Ok c0
    /\ let top_x := (width canvas - width top_iso) / 2 in
       let left_x := top_x - width ls / 2 in
       let right_x := top_x + width top_iso - width rs / 2 in
       let side_y := height top_iso - 1 in
       alpha_composite c0 (brighten ls 0.92) (left_x, side_y) = Ok c1
       /\ alpha_composite c1 (brighten rs 0.82) (right_x, side_y) = Ok c2
       /\ alpha_composite c2 top_iso (top_x, 0) = Ok canvas
       /\ width canvas = width top_iso + width ls + width rs
       /\ height canvas = height top_iso + Z.max (height ls) (height rs).
Proof.
  intros Hs.
  destruct (top_face_spec top_img size Hs) as (top_iso & Et & TIw & TIh).
  destruct (side_face_spec left_img size shear_left Hs (or_introl eq_refl))
    as (ls & El & Lw & Lh & _).
  destruct (side_face_spec right_img size shear_right Hs (or_intror eq_refl))
    as (rs & Er & Rw & Rh & _).
  assert (H0 : 0 <= size / 2) by (apply Z.div_pos; lia).
  destruct (new_spec (width top_iso + width ls + width rs)
              (height top_iso + Z.max (height ls) (height rs))
              ltac:(lia) ltac:(lia)) as (c0 & E0 & C0w & C0h & _).
  set (top_x := (width top_iso + width ls + width rs - width top_iso) / 2).
  destruct (alpha_composite_px c0 (brighten ls 0.92)
              (top_x - width ls / 2) (height top_iso - 1)
              ltac:(lia) ltac:(lia)) as (c1 & E1 & C1w & C1h & _).
  destruct (alpha_composite_px c1 (brighten rs 0.82)
              (top_x + width top_iso - width rs / 2) (height top_iso - 1)
              ltac:(lia) ltac:(lia)) as (c2 & E2 & C2w & C2h & _).
  destruct (alpha_composite_px c2 top_iso top_x 0
              ltac:(lia) ltac:(lia)) as (c3 & E3 & C3w & C3h & _).
  exists top_iso, ls, rs, c0, c1, c2, c3.
  split; [exact Et|]. split; [exact El|]. split; [exact Er|].
  assert (Ecw : width c3 = width top_iso + width ls + width rs) by lia.
  assert (Ech : height c3
                = height top_iso + Z.max (height ls) (height rs)) by lia.
  split.
  - unfold iso_canvas. unfold top_face in Et. unfold side_face in El, Er.
    destruct (nearest_resize top_img size size) as [top|]; [|discriminate].
    rewrite bind_Ok in Et |- *.
    destruct (nearest_resize left_img size size) as [left|]; [|discriminate].
    rewrite bind_Ok in El |- *.
    destruct (nearest_resize right_img size size) as [right|];
      [|discriminate].
    rewrite bind_Ok in Er |- *.
    destruct (rotate45_expand top) as [top_rot|]; [|discriminate].
    rewrite bind_Ok in Et |- *. cbv zeta. rewrite Et, bind_Ok.
    unfold left_iso_of, right_iso_of. rewrite El, Er, !bind_Ok.
    destruct (brighten_size ls 0.92) as [-> ->].
    destruct (brighten_size rs 0.82) as [-> ->].
    rewrite E0, bind_Ok. fold top_x. rewrite E1, bind_Ok, E2, bind_Ok.
    exact E3.
  - split; [exact E0|]. cbv zeta. rewrite Ecw. fold top_x.
    split; [exact E1|]. split; [exact E2|]. split; [exact E3|].
    split; [reflexivity | exact Ech].
Qed.

(** When the top texture is opaque everywhere, the composite holds an
    opaque pixel of the top face. *)
Lemma iso_canvas_top_opaque (top_img left_img right_img : Image) (size : Z) :
  1 <= size -> opaque_everywhere top_img ->
  exists canvas,
    iso_canvas top_img left_img right_img size = Ok canvas
    /\ exists x y, inside canvas x y = true /\ A (px canvas x y) = 255.
Proof.
  intros Hs Hop.
  destruct (iso_canvas_layers top_img left_img right_img size Hs)
    as (top_iso & ls & rs & c0 & c1 & c2 & canvas & Et & El & Er & Ec & E0
        & H).
  cbv zeta in H. destruct H as (E1 & E2 & E3 & Cw & Ch).
  exists canvas. split; [exact Ec|].
  destruct (top_face_opaque top_img size Hs Hop) as (t' & Et' & x & y & Hin & Ha).
  assert (t' = top_iso) by congruence. subst t'.
  destruct (side_face_spec left_img size shear_left Hs (or_introl eq_refl))
    as (ls' & El' & Lw & Lh & _).
  assert (ls' = ls) by congruence. subst ls'.
  destruct (side_face_spec right_img size shear_right Hs (or_intror eq_refl))
    as (rs' & Er' & Rw & Rh & _).
  assert (rs' = rs) by congruence. subst rs'.
  assert (H0 : 0 <= size / 2) by (apply Z.div_pos; lia).
  apply inside_spec in Hin.
  destruct (new_spec (width top_iso + width ls + width rs)
              (height top_iso + Z.max (height ls) (height rs))
              ltac:(lia) ltac:(lia)) as (c0' & E0' & C0w & C0h & C0v & _).
  assert (c0' = c0) by congruence. subst c0'.
  set (top_x := (width canvas - width top_iso) / 2) in *.
  destruct (alpha_composite_spec c0 (brighten ls 0.92)
              (top_x - width ls / 2, height top_iso - 1)
              ltac:(lia) ltac:(lia)) as (c1' & E1' & C1w & C1h & C1v & _).
  assert (c1' = c1) by congruence. subst c1'.
  destruct (alpha_composite_spec c1 (brighten rs 0.82)
              (top_x + width top_iso - width rs / 2, height top_iso - 1)
              ltac:(lia) ltac:(lia)) as (c2' & E2' & C2w & C2h & C2v & _).
  assert (c2' = c2) by congruence. subst c2'.
  destruct (alpha_composite_spec c2 top_iso (top_x, 0)
              ltac:(lia) ltac:(lia)) as (c3 & E3' & _ & _ & _ & _ & C3put).
  assert (c3 = canvas) by congruence. subst c3.
  assert (Etx : top_x = size + size / 2).
  { unfold top_x. rewrite Cw, Lw, Rw.
    replace (width top_iso + (size + size / 2) + (size + size / 2)
             - width top_iso) with ((size + size / 2) * 2) by lia.
    apply Z.div_mul. lia. }
  exists (x + top_x), y.
  assert (Hin2 : inside c2 (x + top_x) y = true)
    by (apply inside_spec; lia).
  split; [apply inside_spec; lia|].
  apply C3put; cbn [fst snd].
  - replace (x + top_x - top_x) with x by lia.
    replace (y - 0) with y by lia. apply inside_spec. lia.
  - replace (x + top_x - top_x) with x by lia.
    now replace (y - 0) with y by lia.
  - destruct (C2v (C1v C0v)) as (_ & _ & Hwf). apply (Hwf _ _ Hin2).
Qed.

(** C6, as the code has it: for every size of at least one
    [make_iso_cube] returns a valid RGBA image of at least one pixel; the
    result holds an opaque pixel whenever the composite does, which is so
    when the top face image is opaque in every pixel, and for a size of
    at least two when the left or the right face image is opaque in every
    pixel. *)
Theorem make_iso_cube_valid (top_img left_img right_img : Image) (size : Z) :
  1 <= size ->
  exists canvas out,
    iso_canvas top_img left_img right_img size = Ok canvas
    /\ make_iso_cube top_img left_img right_img size = Ok out
    /\ valid_image out /\ 1 <= width out /\ 1 <= height out
    /\ ((exists x y, inside canvas x y = true /\ A (px canvas x y) = 255) ->
        exists x y, inside out x y = true /\ A (px out x y) = 255)
    /\ (opaque_everywhere top_img ->
        exists x y, inside out x y = true /\ A (px out x y) = 255)
    /\ (2 <= size ->
        opaque_everywhere left_img \/ opaque_everywhere right_img ->
        exists x y, inside out x y = true /\ A (px out x y) = 255).
Proof.
  intros Hs.
  destruct (iso_canvas_spec top_img left_img right_img size Hs)
    as (canvas & E & Hw & Hh & Hv & Hop).
  exists canvas, (crop_to_bbox canvas). split; [exact E|].
  split; [unfold make_iso_cube; now rewrite E|].
  destruct (crop_to_bbox_valid canvas Hv Hw Hh) as (Hv' & Hw' & Hh').
  split; [exact Hv'|]. split; [exact Hw'|]. split; [exact Hh'|].
  split; [apply crop_to_bbox_opaque|]. split.
  - intros Htop. apply crop_to_bbox_opaque.
    destruct (iso_canvas_top_opaque top_img left_img right_img size Hs Htop)
      as (canvas' & E' & Hpix).
    assert (canvas' = canvas) by congruence. now subst canvas'.
  - intros Hs2 Hside. apply crop_to_bbox_opaque. now apply Hop.
Qed.

Lemma make_iso_cube_valid_witness :
  1 <= 2 /\
  exists out,
    make_iso_cube (dot 4 4) (solid 4 4 (mkPixel 9 9 9 255)) (dot 4 4) 2
    = Ok out
    /\ valid_image out
    /\ exists x y, inside out x y = true /\ A (px out x y) = 255.
Proof.
  split; [lia|].
  destruct (make_iso_cube_valid (dot 4 4) (solid 4 4 (mkPixel 9 9 9 255))
              (dot 4 4) 2 ltac:(lia))
    as (canvas & out & _ & E & Hv & _ & _ & _ & _ & Hop).
  exists out. split; [exact E|]. split; [exact Hv|].
  apply Hop; [lia|]. left. unfold opaque_everywhere. cbn [solid width height px A].
  split; [lia|]. split; [lia|]. reflexivity.
Defined.

(** C6 fails as stated: the three face images below hold an opaque pixel
    (their corner), the resize from 4 by 4 to 2 by 2 samples the pixels
    (1,1), (3,1), (1,3) and (3,3) only, and the result has no pixel that
    is opaque, or even visible; and for the size 0 no image is returned at
    all. *)
Lemma make_iso_cube_loses_pixel :
  has_opaque (dot 4 4) = true
  /\ observe (make_iso_cube (dot 4 4) (dot 4 4) (dot 4 4) 2)
     = Ok (10, 3, false, false)
  /\ observe (make_iso_cube (dot 4 4) (dot 4 4) (dot 4 4) 0)
     = Raise ValueError.
Proof. repeat split; vm_compute; reflexivity. Qed.

(** The bound on the size is needed for the side faces: at the size 1 a
    sheared side face has no row, and opaque side textures under a
    transparent top texture leave nothing to see; an opaque top texture
    shows at the size 1 too. *)
Example side_faces_need_two_rows :
  let grey := solid 4 4 (mkPixel 9 9 9 255) in
  let none := solid 4 4 clear in
  observe (make_iso_cube none grey grey 1) = Ok (5, 1, false, false)
  /\ observe (make_iso_cube grey none none 1) = Ok (1, 1, true, true).
Proof. repeat split; vm_compute; reflexivity. Qed.

(** ** Shading of the side faces *)

(** The sum of the colour bytes over the raster. *)
Definition brightness (img : Image) : Z :=
  fold_right Z.add 0
    (map (fun p => R p + G p + B p) (concat (raster img))).

Lemma shade_92 (v : Z) :
  0 <= v <= 255 -> clip8 (Qfloor (0.92 * inject_Z v)) = 92 * v / 100.
Proof.
  intros Hv. unfold clip8. cbn. Z.div_mod_to_equations. lia.
Qed.

Lemma shade_82 (v : Z) :
  0 <= v <= 255 -> clip8 (Qfloor (0.82 * inject_Z v)) = 82 * v / 100.
Proof.
  intros Hv. unfold clip8. cbn. Z.div_mod_to_equations. lia.
Qed.

Lemma shade_order (v : Z) :
  0 <= v <= 255 ->
  82 * v / 100 <= 92 * v / 100 /\ (6 <= v -> 82 * v / 100 < 92 * v / 100).
Proof. intros Hv. Z.div_mod_to_equations. lia. Qed.

(** A colour shaded to [percent] hundredths, alpha kept. *)
Definition shade (percent : Z) (c : Pixel) : Pixel :=
  mkPixel (percent * R c / 100) (percent * G c / 100) (percent * B c / 100)
          (A c).

Lemma shade_wf (percent : Z) (c : Pixel) :
  0 <= percent <= 100 -> wf_pixel c -> wf_pixel (shade percent c).
Proof.
  intros Hp (HR & HG & HB & HA). unfold wf_pixel, shade. cbn [R G B A].
  repeat split; try lia;
    try (apply Z.div_pos; nia); apply Z.div_le_upper_bound; nia.
Qed.

Lemma brighten_92 (img : Image) (x y : Z) :
  wf_pixel (px img x y) -> px (brighten img 0.92) x y = shade 92 (px img x y).
Proof.
  intros (HR & HG & HB & _). unfold brighten.
  change (Qeq_bool 0.92 1) with false.
  unfold enhance_brightness, shade. cbn [px].
  now rewrite !shade_92 by assumption.
Qed.

Lemma brighten_82 (img : Image) (x y : Z) :
  wf_pixel (px img x y) -> px (brighten img 0.82) x y = shade 82 (px img x y).
Proof.
  intros (HR & HG & HB & _). unfold brighten.
  change (Qeq_bool 0.82 1) with false.
  unfold enhance_brightness, shade. cbn [px].
  now rewrite !shade_82 by assumption.
Qed.

(** Cropping to the bounding box keeps every visible pixel. *)
Lemma crop_to_bbox_keeps (canvas : Image) (x y : Z) :
  inside canvas x y = true -> visible canvas x y = true ->
  exists x' y', inside (crop_to_bbox canvas) x' y' = true
                /\ px (crop_to_bbox canvas) x' y' = px canvas x y.
Proof.
  intros Hin Hvis.
  destruct (crop_to_bbox_spec canvas)
    as [[_ ->] | (x0 & y0 & x1 & y1 & E & Hx & Hy & Hbox & Hpx & _)];
    [eauto|].
  destruct (Hbox x y Hin Hvis) as [Hbx Hby].
  assert (Hin' : inside (crop_to_bbox canvas) (x - x0) (y - y0) = true)
    by (rewrite E; apply inside_spec; cbn [crop width height]; lia).
  exists (x - x0), (y - y0). split; [exact Hin'|].
  rewrite (Hpx _ _ Hin').
  now replace (x - x0 + x0) with x by lia; replace (y - y0 + y0) with y by lia.
Qed.

Lemma shade_bytes (c : Pixel) :
  wf_pixel c ->
  (A (shade 92 c) = A c /\ A (shade 82 c) = A c)
  /\ (R (shade 82 c) <= R (shade 92 c) /\ G (shade 82 c) <= G (shade 92 c)
      /\ B (shade 82 c) <= B (shade 92 c))
  /\ (6 <= R c -> R (shade 82 c) < R (shade 92 c))
  /\ (6 <= G c -> G (shade 82 c) < G (shade 92 c))
  /\ (6 <= B c -> B (shade 82 c) < B (shade 92 c)).
Proof.
  intros (HR & HG & HB & _). unfold shade. cbn [R G B A].
  pose proof (shade_order _ HR) as [? ?].
  pose proof (shade_order _ HG) as [? ?].
  pose proof (shade_order _ HB) as [? ?].
  repeat split; assumption.
Qed.

(** C8, as the code has it: in the composite of [make_iso_cube], where
    the sheared left face has an opaque pixel that neither the right face
    nor the top face covers with a pixel that is not fully transparent,
    that pixel shows with every colour byte [v] turned into
    [floor(0.92 v)], alpha kept; where the sheared right face has an
    opaque pixel that the top face does not cover, it shows with
    [floor(0.82 v)].  The crop keeps every pixel that is not fully
    transparent, so these pixels are in the output; for a size of at
    least two and side textures that are opaque everywhere the output
    holds a pixel of the left texture shaded to 92 hundredths and one of
    the right texture shaded to 82.  A byte shaded for the left face is
    never darker than the same byte shaded for the right face, and
    brighter when the byte is at least 6. *)
Theorem side_shading (top_img left_img right_img : Image) (size : Z) :
  1 <= size ->
  valid_image left_img -> 1 <= width left_img -> 1 <= height left_img ->
  valid_image right_img -> 1 <= width right_img -> 1 <= height right_img ->
  exists top_iso ls rs canvas out,
    top_face top_img size = Ok top_iso
    /\ side_face left_img size shear_left = Ok ls
    /\ side_face right_img size shear_right = Ok rs
    /\ iso_canvas top_img left_img right_img size = Ok canvas
    /\ make_iso_cube top_img left_img right_img size = Ok out
    /\ (let top_x := (width canvas - width top_iso) / 2 in
        let left_x := top_x - width ls / 2 in
        let right_x := top_x + width top_iso - width rs / 2 in
        let side_y := height top_iso - 1 in
        forall x y,
          (shows ls (x - left_x) (y - side_y) = true ->
           hidden rs (x - right_x) (y - side_y) = true ->
           hidden top_iso (x - top_x) y = true ->
           px canvas x y = shade 92 (px ls (x - left_x) (y - side_y)))
          /\ (shows rs (x - right_x) (y - side_y) = true ->
              hidden top_iso (x - top_x) y = true ->
              px canvas x y = shade 82 (px rs (x - right_x) (y - side_y))))
    /\ (forall x y,
          inside canvas x y = true -> visible canvas x y = true ->
          exists x' y', inside out x' y' = true
                        /\ px out x' y' = px canvas x y)
    /\ (2 <= size ->
        opaque_everywhere left_img -> opaque_everywhere right_img ->
        (exists x y i j,
            inside out x y = true /\ inside left_img i j = true
            /\ px out x y = shade 92 (px left_img i j))
        /\ (exists x y i j,
              inside out x y = true /\ inside right_img i j = true
              /\ px out x y = shade 82 (px right_img i j)))
    /\ forall c,
        wf_pixel c ->
        (A (shade 92 c) = A c /\ A (shade 82 c) = A c)
        /\ (R (shade 82 c) <= R (shade 92 c)
            /\ G (shade 82 c) <= G (shade 92 c)
            /\ B (shade 82 c) <= B (shade 92 c))
        /\ (6 <= R c -> R (shade 82 c) < R (shade 92 c))
        /\ (6 <= G c -> G (shade 82 c) < G (shade 92 c))
        /\ (6 <= B c -> B (shade 82 c) < B (shade 92 c)).
Proof.
  intros Hs Lv LW LH Rv RW RH.
  destruct (iso_canvas_layers top_img left_img right_img size Hs)
    as (top_iso & ls & rs & c0 & c1 & c2 & canvas & Et & El & Er & Ec & E0
        & H).
  cbv zeta in H. destruct H as (E1 & E2 & E3 & Cw & Ch).
  exists top_iso, ls, rs, canvas, (crop_to_bbox canvas).
  split; [exact Et|]. split; [exact El|]. split; [exact Er|].
  split; [exact Ec|].
  split; [unfold make_iso_cube; now rewrite Ec|].
  destruct (top_face_spec top_img size Hs) as (t' & Et' & TIw & TIh).
  assert (t' = top_iso) by congruence. subst t'.
  destruct (side_face_spec left_img size shear_left Hs (or_introl eq_refl))
    as (ls' & El' & Lw & Lh & Lpx & Lop).
  assert (ls' = ls) by congruence. subst ls'.
  destruct (side_face_spec right_img size shear_right Hs (or_intror eq_refl))
    as (rs' & Er' & Rw & Rh & Rpx & Rop).
  assert (rs' = rs) by congruence. subst rs'.
  destruct (Lpx Lv LW LH) as [Lwf Lrow].
  destruct (Rpx Rv RW RH) as [Rwf Rrow].
  assert (H0 : 0 <= size / 2) by (apply Z.div_pos; lia).
  destruct (new_spec (width top_iso + width ls + width rs)
              (height top_iso + Z.max (height ls) (height rs))
              ltac:(lia) ltac:(lia)) as (c0' & E0' & C0w & C0h & _).
  assert (c0' = c0) by congruence. subst c0'.
  set (top_x := (width canvas - width top_iso) / 2) in *.
  set (left_x := top_x - width ls / 2) in *.
  set (right_x := top_x + width top_iso - width rs / 2) in *.
  set (side_y := height top_iso - 1) in *.
  destruct (alpha_composite_px c0 (brighten ls 0.92) left_x side_y
              ltac:(lia) ltac:(lia)) as (c1' & E1' & C1w & C1h & P1).
  assert (c1' = c1) by congruence. subst c1'.
  destruct (alpha_composite_px c1 (brighten rs 0.82) right_x side_y
              ltac:(lia) ltac:(lia)) as (c2' & E2' & C2w & C2h & P2).
  assert (c2' = c2) by congruence. subst c2'.
  destruct (alpha_composite_px c2 top_iso top_x 0
              ltac:(lia) ltac:(lia)) as (c3 & E3' & _ & _ & P3).
  assert (c3 = canvas) by congruence. subst c3.
  assert (Hleft : forall x y,
             shows ls (x - left_x) (y - side_y) = true ->
             hidden rs (x - right_x) (y - side_y) = true ->
             hidden top_iso (x - top_x) y = true ->
             px canvas x y = shade 92 (px ls (x - left_x) (y - side_y))).
  { intros x y Hsh Hhr Hht.
    rewrite (proj1 (P3 x y))
      by (now replace (y - 0) with y by lia).
    rewrite (proj1 (P2 x y)) by (now rewrite brighten_hidden).
    rewrite (proj2 (P1 x y)).
    - apply brighten_92, Lwf.
    - now rewrite brighten_shows.
    - rewrite brighten_92 by apply Lwf. apply shade_wf; [lia | apply Lwf]. }
  assert (Hright : forall x y,
             shows rs (x - right_x) (y - side_y) = true ->
             hidden top_iso (x - top_x) y = true ->
             px canvas x y = shade 82 (px rs (x - right_x) (y - side_y))).
  { intros x y Hsh Hht.
    rewrite (proj1 (P3 x y))
      by (now replace (y - 0) with y by lia).
    rewrite (proj2 (P2 x y)).
    - apply brighten_82, Rwf.
    - now rewrite brighten_shows.
    - rewrite brighten_82 by apply Rwf. apply shade_wf; [lia | apply Rwf]. }
  split; [cbv zeta; intros x y; split; [apply Hleft | apply Hright]|].
  split; [intros x y; apply crop_to_bbox_keeps|].
  split; [|apply shade_bytes].
  intros Hs2 Lopq Ropq.
  assert (Hh2 : 1 <= size / 2) by (Z.div_mod_to_equations; lia).
  assert (Etx : top_x = size + size / 2).
  { unfold top_x. rewrite Cw, Lw, Rw.
    replace (width top_iso + (size + size / 2) + (size + size / 2)
             - width top_iso) with ((size + size / 2) * 2) by lia.
    apply Z.div_mul. lia. }
  assert (Hhalf : 1 <= (size + size / 2) / 2 <= size - 1)
    by (Z.div_mod_to_equations; lia).
  split.
  - destruct (Lrow 0 ltac:(lia)) as (i & j & Hij & Epx).
    assert (Hc : px canvas left_x side_y = shade 92 (px ls 0 0)).
    { rewrite (Hleft left_x side_y); rewrite ?Z.sub_diag; [reflexivity | | |].
      - apply shows_spec. split; [apply inside_spec; lia|].
        apply (Lop Lopq). lia.
      - apply hidden_spec. left. apply not_true_is_false. intros Hi.
        apply inside_spec in Hi. unfold left_x, right_x in Hi.
        rewrite ?Lw, ?Rw in Hi. lia.
      - apply hidden_spec. left. apply not_true_is_false. intros Hi.
        apply inside_spec in Hi. unfold left_x in Hi.
        rewrite ?Lw in Hi. lia. }
    destruct (crop_to_bbox_keeps canvas left_x side_y)
      as (x' & y' & Hin' & Epx').
    + apply inside_spec. unfold left_x, side_y. rewrite ?Lw, ?Rw in *. lia.
    + unfold visible. rewrite Hc. cbn [shade A].
      rewrite (Lop Lopq 0) by lia. reflexivity.
    + exists x', y', i, j. split; [exact Hin'|]. split; [exact Hij|].
      now rewrite Epx', Hc, Epx.
  - destruct (Rrow (size - 1) ltac:(lia)) as (i & j & Hij & Epx).
    assert (Hc : px canvas (right_x + (size - 1)) side_y
                 = shade 82 (px rs (size - 1) 0)).
    { rewrite (Hright (right_x + (size - 1)) side_y);
        replace (right_x + (size - 1) - right_x) with (size - 1) by lia;
        rewrite ?Z.sub_diag; [reflexivity | |].
      - apply shows_spec. split; [apply inside_spec; lia|].
        apply (Rop Ropq). lia.
      - apply hidden_spec. left. apply not_true_is_false. intros Hi.
        apply inside_spec in Hi. unfold right_x in Hi.
        rewrite ?Rw in Hi. lia. }
    destruct (crop_to_bbox_keeps canvas (right_x + (size - 1)) side_y)
      as (x' & y' & Hin' & Epx').
    + apply inside_spec. unfold right_x, side_y. rewrite ?Lw, ?Rw in *. lia.
    + unfold visible. rewrite Hc. cbn [shade A].
      rewrite (Rop Ropq (size - 1)) by lia. reflexivity.
    + exists x', y', i, j. split; [exact Hin'|]. split; [exact Hij|].
      now rewrite Epx', Hc, Epx.
Qed.

Lemma side_shading_witness :
  let red := solid 4 4 (mkPixel 200 10 3 255) in
  exists out x y,
    make_iso_cube red red red 4 = Ok out
    /\ inside out x y = true
    /\ px out x y = mkPixel 184 9 2 255.
Proof.
  cbv zeta.
  assert (Hv : valid_image (solid 4 4 (mkPixel 200 10 3 255))).
  { unfold valid_image, wf_pixel. cbn [solid width height px R G B A].
    repeat split; lia. }
  assert (Ho : opaque_everywhere (solid 4 4 (mkPixel 200 10 3 255))).
  { unfold opaque_everywhere. cbn [solid width height px A].
    repeat split; lia. }
  destruct (side_shading (solid 4 4 (mkPixel 200 10 3 255))
              (solid 4 4 (mkPixel 200 10 3 255))
              (solid 4 4 (mkPixel 200 10 3 255)) 4
              ltac:(lia) Hv ltac:(cbn; lia) ltac:(cbn; lia)
              Hv ltac:(cbn; lia) ltac:(cbn; lia))
    as (top_iso & ls & rs & canvas & out & _ & _ & _ & _ & Eout & _ & _
        & Hex & _).
  destruct (Hex ltac:(lia) Ho Ho) as [(x & y & i & j & Hin & _ & Epx) _].
  exists out, x, y. split; [exact Eout|]. split; [exact Hin|].
  rewrite Epx. reflexivity.
Defined.

(** C8 fails as stated: on a black opaque texture both side faces, and
    the whole picture, are black, so the left region is not brighter than
    the right one. *)
Lemma black_faces_equally_dark :
  let black := solid 4 4 (mkPixel 0 0 0 255) in
  (l ← left_iso_of black; Ok (has_opaque l, brightness l))
  = Ok (true, 0)
  /\ (r ← right_iso_of black; Ok (has_opaque r, brightness r))
     = Ok (true, 0)
  /\ (out ← make_iso_cube black black black 4;
      Ok (has_opaque out, brightness out)) = Ok (true, 0).
Proof. repeat split; vm_compute; reflexivity. Qed.

(** ** Sorting paths *)

Section Lex.

Context {T : Type} (cmp : T -> T -> comparison).
Hypothesis cmp_eq : forall a b, cmp a b = Eq <-> a = b.
Hypothesis cmp_antisym : forall a b, cmp b a = CompOpp (cmp a b).
Hypothesis cmp_trans : forall a b c, cmp a b = Lt -> cmp b c = Lt -> cmp a c = Lt.

(** Python's comparison of two sequences: the first position where they
    differ decides, a proper prefix comes first. *)
Fixpoint lex_compare (l m : list T) : comparison :=
  match l, m with
  | [], [] => Eq
  | [], _ :: _ => Lt
  | _ :: _, [] => Gt
  | a :: l', b :: m' =>
      match cmp a b with
      | Eq => lex_compare l' m'
      | c => c
      end
  end.

Lemma lex_compare_eq (l m : list T) : lex_compare l m = Eq <-> l = m.
Proof.
  revert m. induction l as [|a l IH]; intros [|b m]; cbn;
    try (split; [discriminate | discriminate]); [tauto|].
  destruct (cmp a b) eqn:E.
  - apply cmp_eq in E as ->. rewrite IH. split; [now intros -> | now intros [= ->]].
  - split; [discriminate|]. intros [= -> _].
    rewrite (proj2 (cmp_eq b b) eq_refl) in E. discriminate.
  - split; [discriminate|]. intros [= -> _].
    rewrite (proj2 (cmp_eq b b) eq_refl) in E. discriminate.
Qed.

Lemma lex_compare_antisym (l m : list T) :
  lex_compare m l = CompOpp (lex_compare l m).
Proof.
  revert m. induction l as [|a l IH]; intros [|b m]; cbn; try reflexivity.
  rewrite (cmp_antisym a b). destruct (cmp a b); cbn; auto.
Qed.

Lemma lex_compare_trans (l m n : list T) :
  lex_compare l m = Lt -> lex_compare m n = Lt -> lex_compare l n = Lt.
Proof.
  revert m n. induction l as [|a l IH]; intros [|b m] [|c n]; cbn;
    try discriminate; try reflexivity.
  destruct (cmp a b) eqn:Eab; try discriminate.
  - apply cmp_eq in Eab as ->. destruct (cmp b c); try discriminate; eauto.
  - intros _. destruct (cmp b c) eqn:Ebc; try discriminate.
    + apply cmp_eq in Ebc as ->. now rewrite Eab.
    + now rewrite (cmp_trans _ _ _ Eab Ebc).
Qed.

Definition lex_le (l m : list T) : Prop := lex_compare l m <> Gt.

Lemma lex_le_total (l m : list T) : lex_le l m \/ lex_le m l.
Proof.
  unfold lex_le. rewrite (lex_compare_antisym l m).
  destruct (lex_compare l m); cbn; [left | left | right]; discriminate.
Qed.

Lemma lex_le_antisym (l m : list T) : lex_le l m -> lex_le m l -> l = m.
Proof.
  unfold lex_le. rewrite (lex_compare_antisym l m).
  destruct (lex_compare l m) eqn:E; cbn; intros H1 H2; try congruence.
  now apply lex_compare_eq.
Qed.

Lemma lex_le_trans (l m n : list T) : lex_le l m -> lex_le m n -> lex_le l n.
Proof.
  unfold lex_le. intros H1 H2.
  destruct (lex_compare l m) eqn:E1; [| |congruence].
  - apply lex_compare_eq in E1 as ->. exact H2.
  - destruct (lex_compare m n) eqn:E2; [| |congruence].
    + apply lex_compare_eq in E2 as <-. congruence.
    + rewrite (lex_compare_trans _ _ _ E1 E2). discriminate.
Qed.

End Lex.

Lemma ascii_compare_eq (a b : ascii) : Ascii.compare a b = Eq <-> a = b.
Proof.
  split; [apply Ascii.compare_eq_iff|]. intros ->.
  unfold Ascii.compare. apply N.compare_refl.
Qed.

Lemma ascii_compare_trans (a b c : ascii) :
  Ascii.compare a b = Lt -> Ascii.compare b c = Lt -> Ascii.compare a c = Lt.
Proof.
  unfold Ascii.compare. rewrite !N.compare_lt_iff. apply N.lt_trans.
Qed.

(** Strings compare by their bytes, paths by their components. *)
Definition string_compare (s t : string) : comparison :=
  lex_compare Ascii.compare (list_ascii_of_string s) (list_ascii_of_string t).

Lemma string_compare_eq (s t : string) : string_compare s t = Eq <-> s = t.
Proof.
  unfold string_compare. rewrite (lex_compare_eq _ ascii_compare_eq). split.
  - intros H. apply (f_equal string_of_list_ascii) in H.
    now rewrite !string_of_list_ascii_of_string in H.
  - now intros ->.
Qed.

Lemma string_compare_antisym (s t : string) :
  string_compare t s = CompOpp (string_compare s t).
Proof.
  apply lex_compare_antisym. intros a b. apply Ascii.compare_antisym.
Qed.

Lemma string_compare_trans (s t u : string) :
  string_compare s t = Lt -> string_compare t u = Lt -> string_compare s u = Lt.
Proof.
  apply lex_compare_trans;
    [apply ascii_compare_eq | apply ascii_compare_trans].
Qed.

(** [p <= q] on [Path] objects. *)
Definition path_le : relation Path := lex_le string_compare.

#[global] Instance path_le_dec : RelDecision path_le.
Proof.
  intros p q. unfold path_le, lex_le.
  destruct (lex_compare string_compare p q);
    [left | left | right]; congruence.
Defined.

#[global] Instance path_le_total : Total path_le.
Proof. intros p q. apply lex_le_total, string_compare_antisym. Qed.

#[global] Instance path_le_trans : Transitive path_le.
Proof.
  intros p q r.
  apply lex_le_trans; [apply string_compare_eq | apply string_compare_trans].
Qed.

#[global] Instance path_le_antisym : AntiSymm (=) path_le.
Proof.
  intros p q.
  apply lex_le_antisym; [apply string_compare_eq | apply string_compare_antisym].
Qed.

(** [sorted(paths)] *)
Definition sorted (paths : list Path) : list Path := merge_sort path_le paths.


(** ** The file system and the console *)

(** An entry of the file system: a directory, or a file that decodes to
    an image or holds something else. *)
Inductive node :=
| Dir
| File (content : option Image).

(** The lines that the script prints. *)
Inductive message :=
| MissingRoot (blocks_root : Path)
| NothingToRender
| LoadWarning (modid base : string) (e : exn)
| Progress (done total pct : Z) (modid base : string)
| Summary (done total : Z)
| OutputAt (out_root : Path).

(** The state of the world: the entries of the file system by path (the
    root [[]] is a directory and has no entry) and what was printed. *)
Record World := mkWorld {
  fs : gmap Path node;
  stdout : list message
}.

Definition lookup_node (files : gmap Path node) (p : Path) : option node :=
  match p with
  | [] => Some Dir
  | _ => files !! p
  end.

(** State and exceptions: an action maps the world to its outcome and the
    world it leaves, also when it raises. *)
Definition M (X : Type) : Type := World -> result X * World.

Definition ret {X} (x : X) : M X := fun w => (Ok x, w).

Definition bind {X Y} (m : M X) (k : X -> M Y) : M Y :=
  fun w =>
    match m w with
    | (Ok x, w') => k x w'
    | (Raise e, w') => (Raise e, w')
    end.

#[global] Instance M_ret : MRet M := @ret.
#[global] Instance M_bind : MBind M := fun X Y k m => bind m k.

Definition lift {X} (r : result X) : M X := fun w => (r, w).

(** [try: body except Exception as e: handler(e)] *)
Definition try_except {X} (body : M X) (handler : exn -> M X) : M X :=
  fun w =>
    match body w with
    | (Ok x, w') => (Ok x, w')
    | (Raise e, w') => handler e w'
    end.

Definition get_fs : M (gmap Path node) := fun w => (Ok (fs w), w).

Definition print (m : message) : M unit :=
  fun w => (Ok tt, mkWorld (fs w) (stdout w ++ [m])).

(** [p.mkdir(parents=True, exist_ok=True)], walking down from the root:
    a missing component is created, a directory is passed, a file in the
    way raises. *)
Fixpoint mkdir_from (done : Path) (rest : list string) (files : gmap Path node)
  : result (gmap Path node) :=
  match rest with
  | [] => Ok files
  | c :: rest' =>
      let p := done ++ [c] in
      match files !! p with
      | Some Dir => mkdir_from p rest' files
      | Some (File _) =>
          Raise (match rest' with
                 | [] => FileExistsError
                 | _ => NotADirectoryError
                 end)
      | None => mkdir_from p rest' (<[p := Dir]> files)
      end
  end.

Definition mkdir_parents (p : Path) : M unit :=
  fun w =>
    match mkdir_from [] p (fs w) with
    | Ok files => (Ok tt, mkWorld files (stdout w))
    | Raise e => (Raise e, w)
    end.

(** [p.exists()] *)
Definition path_exists (files : gmap Path node) (p : Path) : bool :=
  match lookup_node files p with Some _ => true | None => false end.

(** [p.is_dir()] *)
Definition is_dir (files : gmap Path node) (p : Path) : bool :=
  match lookup_node files p with Some Dir => true | _ => false end.

(** [p.name] and [p.stem] *)
Definition name (p : Path) : string := List.last p "".

Definition stem (p : Path) : string :=
  let n := name p in
  match Str.rfind "." n with
  | Some i =>
      if (0 <? i)%nat && (i <? String.length n - 1)%nat
      then Str.take i n else n
  | None => n
  end.

(** [dir / name]; joining the empty name changes nothing. *)
Definition joinpath (dir : Path) (n : string) : Path :=
  if String.eqb n "" then dir else dir ++ [n].

Fixpoint is_prefix (p q : Path) : bool :=
  match p, q with
  | [], _ => true
  | a :: p', b :: q' => String.eqb a b && is_prefix p' q'
  | _ :: _, [] => false
  end.

(** The entries directly in [dir], and all entries below it. *)
Definition is_child (dir q : Path) : bool :=
  is_prefix dir q && (length q =? S (length dir))%nat.

Definition is_below (dir q : Path) : bool :=
  is_prefix dir q && (length dir <? length q)%nat.

Section Listing.

(** The order in which the operating system enumerates entries is not
    fixed: [dir_order] is the order of a directory listing and
    [walk_order] the order of a recursive walk, each reordering the
    entries it is given. *)
Variable dir_order : list Path -> list Path.
Variable walk_order : list Path -> list Path.

(** [dir.iterdir()] *)
Definition iterdir (files : gmap Path node) (dir : Path)
  : result (list Path) :=
  match lookup_node files dir with
  | Some Dir =>
      Ok (dir_order (List.filter (is_child dir) (map fst (map_to_list files))))
  | Some (File _) => Raise NotADirectoryError
  | None => Raise FileNotFoundError
  end.

(** [dir.rglob("*.png")]: every entry below [dir] whose name ends in
    [.png]. *)
Definition rglob_png (files : gmap Path node) (dir : Path) : list Path :=
  walk_order
    (List.filter (fun q => is_below dir q && Str.ends_with ".png" (name q))
       (map fst (map_to_list files))).

(** The loop of [collect_textures_in_moddir] over the sorted paths. *)
Fixpoint collect (paths : list Path) (textures : dict Path) : dict Path :=
  match paths with
  | [] => textures
  | p :: rest =>
      if Str.ends_with ".png.mcmeta" (name p) then collect rest textures
      else collect rest (dict_set textures (Str.lower (stem p)) p)
  end.

Definition collect_textures_in_moddir (files : gmap Path node) (moddir : Path)
  : dict Path :=
  collect (sorted (rglob_png files moddir)) [].

(** [groups.setdefault(base, {})[stem] = path] *)
Fixpoint group_add (groups : dict (dict Path)) (base stem : string) (path : Path)
  : dict (dict Path) :=
  match groups with
  | [] => [(base, [(stem, path)])]
  | (b, texmap) :: rest =>
      if String.eqb b base then (b, dict_set texmap stem path) :: rest
      else (b, texmap) :: group_add rest base stem path
  end.

Fixpoint group_textures (textures : dict Path) (groups : dict (dict Path))
  : dict (dict Path) :=
  match textures with
  | [] => groups
  | (stem, path) :: rest =>
      group_textures rest (group_add groups (base_of stem) stem path)
  end.

Definition job : Type := string * string * dict Path.

(** The jobs of one mod directory: lines 164-172. *)
Definition jobs_of_moddir (files : gmap Path node) (moddir : Path) : list job :=
  let textures := collect_textures_in_moddir files moddir in
  match textures with
  | [] => []
  | _ =>
      map (fun g => (name moddir, fst g, snd g)) (group_textures textures [])
  end.

(** Lines 157-172. *)
Definition plan_jobs (files : gmap Path node) (blocks_root : Path)
  : result (list job) :=
  entries ← iterdir files blocks_root;
  let mod_dirs := List.filter (is_dir files) entries in
  let mod_dirs := match mod_dirs with [] => [blocks_root] | _ => mod_dirs end in
  Ok (concat (map (jobs_of_moddir files) mod_dirs)).

(** [load_png(path)]; a slot that is [None] cannot be opened. *)
Definition load_png (slot : option Path) : M Image :=
  fun w =>
    match slot with
    | None => (Raise AttributeError, w)
    | Some p =>
        match lookup_node (fs w) p with
        | Some (File (Some img)) => (Ok img, w)
        | Some (File None) => (Raise UnidentifiedImageError, w)
        | Some Dir => (Raise IsADirectoryError, w)
        | None => (Raise FileNotFoundError, w)
        end
    end.

(** The body of the [try] block: the three face images. *)
Definition load_faces (faces : Faces) : M (Image * Image * Image) :=
  top_img ← load_png (f_top faces);
  left_img ← load_png (f_left faces);
  right_img ← load_png (f_right faces);
  ret (top_img, left_img, right_img).

(** [os.path.splitext(name)[1]] is not empty: the last dot of the name
    has a character before it that is not a dot. *)
Fixpoint only_dots (s : string) : bool :=
  match s with
  | "" => true
  | String c rest => Ascii.eqb c "." && only_dots rest
  end.

Definition has_extension (n : string) : bool :=
  match Str.rfind "." n with
  | Some i => negb (only_dots (Str.take i n))
  | None => false
  end.

(** [iso.save(out_path)]: the format is taken from the extension of the
    name, before the file is opened, and a name without an extension is
    refused; the names that the script saves end in [.png]. *)
Definition save (iso : Image) (out_path : Path) : M unit :=
  fun w =>
    if negb (has_extension (name out_path)) then (Raise ValueError, w)
    else
      match lookup_node (fs w) out_path with
      | Some Dir => (Raise IsADirectoryError, w)
      | _ =>
          match lookup_node (fs w) (removelast out_path) with
          | Some Dir =>
              (Ok tt,
               mkWorld (<[out_path := File (Some iso)]> (fs w)) (stdout w))
          | Some (File _) => (Raise NotADirectoryError, w)
          | None => (Raise FileNotFoundError, w)
          end
      end.

(** The loop of lines 181-200; the result is [done]. *)
Fixpoint run_jobs (out_root : Path) (size total : Z) (jobs : list job)
         (done : Z) : M Z :=
  match jobs with
  | [] => ret done
  | (modid, base, texmap) :: rest =>
      faces ← lift (match find_faces texmap with
                    | Some faces => Ok faces
                    | None => Raise StopIteration
                    end);
      loaded ← try_except
                 (imgs ← load_faces faces; ret (Some imgs))
                 (fun e => _ ← print (LoadWarning modid base e); ret None);
      match loaded with
      | None => run_jobs out_root size total rest (done + 1)
      | Some (top_img, left_img, right_img) =>
          iso ← lift (make_iso_cube top_img left_img right_img size);
          let out_mod := joinpath out_root modid in
          _ ← mkdir_parents out_mod;
          let out_path := out_mod ++ [base +:+ ".png"] in
          _ ← save iso out_path;
          let done := done + 1 in
          let pct := done * 100 / total in
          _ ← print (Progress done total pct modid base);
          run_jobs out_root size total rest done
      end
  end.

(** [main], after the arguments are parsed and the two paths resolved. *)
Definition main (blocks_root out_root : Path) (size : Z) : M unit :=
  _ ← mkdir_parents out_root;
  files ← get_fs;
  if negb (path_exists files blocks_root) then print (MissingRoot blocks_root)
  else
    jobs ← lift (plan_jobs files blocks_root);
    let total := Z.of_nat (length jobs) in
    if total =? 0 then print NothingToRender
    else
      done ← run_jobs out_root size total jobs 0;
      _ ← print (Summary done total);
      print (OutputAt out_root).

End Listing.

(** A scan: the paths are sorted (the capital letter first), a later file
    replaces the path of an earlier one with the same folded stem without
    moving the key, and the stems are grouped by their base identifier. *)
Example plan_jobs_example :
  let files : gmap Path node :=
    list_to_map
      [(["blocks"], Dir); (["blocks"; "m"], Dir);
       (["blocks"; "m"; "stone_top.png"], File None);
       (["blocks"; "m"; "stone_side.png"], File None);
       (["blocks"; "m"; "lever.png"], File None);
       (["blocks"; "m"; "lever.png.mcmeta"], File None);
       (["blocks"; "m"; "Stone_Top.png"], File None)] in
  plan_jobs (fun l => l) (@List.rev Path) files ["blocks"]
  = Ok [("m", "stone",
         [("stone_top", ["blocks"; "m"; "stone_top.png"]);
          ("stone_side", ["blocks"; "m"; "stone_side.png"])]);
        ("m", "lever", [("lever", ["blocks"; "m"; "lever.png"])])].
Proof. vm_compute. reflexivity. Qed.

(** ** Determinism of the pipeline *)

(** An enumeration order: the entries come back, in some order. *)
Definition reorders (order : list Path -> list Path) : Prop :=
  forall l, order l ≡ₚ l.








Definition two_jobs_world : World :=
  mkWorld
    (list_to_map
       [(["blocks"], Dir); (["blocks"; "m"], Dir);
        (["blocks"; "m"; "stone_top.png"],
         File (Some (solid 2 2 (mkPixel 10 20 30 255))));
        (["blocks"; "m"; "stone_side.png"],
         File (Some (solid 2 2 (mkPixel 90 90 90 255))));
        (["blocks"; "m"; "zinc.png"], File None)])
    [].

Lemma reorders_id : reorders (fun l => l).
Proof. intros l. reflexivity. Qed.



(** ** The job runner *)

Lemma load_png_world (slot : option Path) (w : World) :
  snd (load_png slot w) = w.
Proof.
  unfold load_png. destruct slot as [p|]; [|reflexivity].
  destruct (lookup_node (fs w) p) as [[|[img|]]|]; reflexivity.
Qed.

(** Loading reads the file system and changes nothing. *)
Lemma load_faces_world (faces : Faces) (w : World) :
  snd (load_faces faces w) = w.
Proof.
  unfold load_faces, mbind, M_bind, bind.
  pose proof (load_png_world (f_top faces) w) as H1.
  destruct (load_png (f_top faces) w) as [[t|e] w1]; cbn in H1; subst w1;
    [|reflexivity].
  pose proof (load_png_world (f_left faces) w) as H2.
  destruct (load_png (f_left faces) w) as [[l|e] w2]; cbn in H2; subst w2;
    [|reflexivity].
  pose proof (load_png_world (f_right faces) w) as H3.
  destruct (load_png (f_right faces) w) as [[r|e] w3]; cbn in H3; subst w3;
    reflexivity.
Qed.

(** C5, as the code has it: an error raised while the three face images
    of a job are loaded is caught: a warning is printed, nothing is
    written, the job counts as done and the loop goes on with the next
    job.  An error raised after that, by the compositor, is not caught:
    it ends the loop with the remaining jobs untouched. *)
Theorem load_errors_caught
        (out_root : Path) (size total : Z) (modid base : string)
        (texmap : dict Path) (rest : list job) (done : Z) (w : World)
        (faces : Faces) :
  find_faces texmap = Some faces ->
  (forall e,
      fst (load_faces faces w) = Raise e ->
      run_jobs out_root size total ((modid, base, texmap) :: rest) done w
      = run_jobs out_root size total rest (done + 1)
          (mkWorld (fs w) (stdout w ++ [LoadWarning modid base e])))
  /\ (forall top_img left_img right_img e,
        fst (load_faces faces w) = Ok (top_img, left_img, right_img) ->
        make_iso_cube top_img left_img right_img size = Raise e ->
        run_jobs out_root size total ((modid, base, texmap) :: rest) done w
        = (Raise e, w)).
Proof.
  intros Hf.
  pose proof (load_faces_world faces w) as Hw.
  split.
  - intros e He. cbn [run_jobs]. rewrite Hf.
    unfold mbind, M_bind, bind, lift, try_except, ret, print.
    destruct (load_faces faces w) as [r w1]. cbn in He, Hw. subst r w1.
    reflexivity.
  - intros t l r e He Hiso. cbn [run_jobs]. rewrite Hf.
    unfold mbind, M_bind, bind, lift, try_except, ret, print.
    destruct (load_faces faces w) as [r0 w1]. cbn in He, Hw. subst r0 w1.
    rewrite Hiso. reflexivity.
Qed.

Lemma load_errors_caught_witness :
  let texmap := [("zinc", ["blocks"; "m"; "zinc.png"])] in
  run_jobs ["out"] 2 1 [("m", "zinc", texmap)] 0 two_jobs_world
  = (Ok 1, mkWorld (fs two_jobs_world)
                   [LoadWarning "m" "zinc" UnidentifiedImageError]).
Proof.
  cbv zeta. etransitivity.
  - eapply (proj1 (load_errors_caught ["out"] 2 1 "m" "zinc"
                     [("zinc", ["blocks"; "m"; "zinc.png"])] [] 0
                     two_jobs_world _ eq_refl) UnidentifiedImageError).
    reflexivity.
  - reflexivity.
Defined.

(** C5 fails as stated: with [--size 0] the compositor raises
    [ValueError] on the first of the two jobs; the error is not turned
    into a warning, nothing is printed, and the second job is never
    tried. *)
Lemma render_error_aborts_batch :
  (jobs ← plan_jobs (fun l => l) (fun l => l)
            (fs two_jobs_world) ["blocks"];
   Ok (map (fun j => snd (fst j)) jobs)) = Ok ["stone"; "zinc"]
  /\ fst (main (fun l => l) (fun l => l) ["blocks"] ["out"] 0 two_jobs_world)
     = Raise ValueError
  /\ stdout (snd (main (fun l => l) (fun l => l) ["blocks"] ["out"] 0
                   two_jobs_world)) = [].
Proof. repeat split; vm_compute; reflexivity. Qed.

(** ** The missing root *)

(** The path itself and its parents, from the top; the root is left out. *)
Fixpoint ancestors_from (done : Path) (rest : list string) : list Path :=
  match rest with
  | [] => []
  | c :: rest' => (done ++ [c]) :: ancestors_from (done ++ [c]) rest'
  end.

Definition parents_and_self (p : Path) : list Path := ancestors_from [] p.

Lemma ancestors_from_length (done : Path) (rest : list string) (q : Path) :
  q ∈ ancestors_from done rest ->
  (length done < length q <= length done + length rest)%nat.
Proof.
  revert done. induction rest as [|c rest IH]; intros done; cbn.
  - intros H. inversion H.
  - rewrite elem_of_cons. intros [-> | H].
    + rewrite length_app. cbn. lia.
    + apply IH in H. rewrite length_app in H. cbn in H. lia.
Qed.

Lemma ancestors_from_self (done : Path) (rest : list string) :
  rest <> [] -> done ++ rest ∈ ancestors_from done rest.
Proof.
  revert done. induction rest as [|c rest IH]; intros done Hne; [congruence|].
  cbn. destruct rest as [|c' rest].
  - left.
  - right. rewrite (cons_middle c), app_assoc. apply IH. discriminate.
Qed.

Lemma mkdir_from_spec (done : Path) (rest : list string)
      (files : gmap Path node) :
  (forall q c, q ∈ ancestors_from done rest -> files !! q <> Some (File c)) ->
  exists files',
    mkdir_from done rest files = Ok files'
    /\ (forall q, q ∈ ancestors_from done rest -> files' !! q = Some Dir)
    /\ (forall q, q ∉ ancestors_from done rest -> files' !! q = files !! q).
Proof.
  revert done files. induction rest as [|c rest IH]; intros done files Hok.
  - exists files. split; [reflexivity|]. split; [|reflexivity].
    intros q H. inversion H.
  - cbn [mkdir_from ancestors_from] in *.
    set (p := done ++ [c]) in *.
    assert (Hp : p ∉ ancestors_from p rest).
    { intros H. apply ancestors_from_length in H. lia. }
    destruct (files !! p) as [[|content]|] eqn:E.
    + destruct (IH p files) as (files' & Em & Hin & Hout).
      { intros q c0 Hq. apply Hok. now right. }
      exists files'. split; [exact Em|]. split.
      * intros q. rewrite elem_of_cons. intros [-> | Hq]; [|auto].
        now rewrite (Hout p Hp).
      * intros q Hq. apply Hout. intros H. apply Hq. now right.
    + exfalso. apply (Hok p content); [left | exact E].
    + destruct (IH p (<[p := Dir]> files)) as (files' & Em & Hin & Hout).
      { intros q c0 Hq. rewrite lookup_insert_ne by (intros ->; auto).
        apply Hok. now right. }
      exists files'. split; [exact Em|]. split.
      * intros q. rewrite elem_of_cons. intros [-> | Hq]; [|auto].
        rewrite (Hout p Hp). apply lookup_insert_eq.
      * intros q Hq. rewrite Hout by (intros H; apply Hq; now right).
        apply lookup_insert_ne. intros ->. apply Hq. left.
Qed.

Lemma is_below_length (dir q : Path) :
  is_below dir q = true -> (length dir < length q)%nat.
Proof.
  unfold is_below. rewrite andb_true_iff, Nat.ltb_lt. tauto.
Qed.

(** C10, as the code has it: when [blocks_dir] does not exist and is
    neither [out_dir] nor a parent of it, [main] first makes [out_dir] and
    its missing parents directories (no file being in the way), changes
    nothing else, reports the missing root and returns; an [out_dir] that
    did not exist is left new and empty. *)
Theorem missing_root_creates_out_dir
        (io wo : list Path -> list Path) (blocks_root out_root : Path)
        (size : Z) (w : World) :
  lookup_node (fs w) blocks_root = None ->
  blocks_root ∉ parents_and_self out_root ->
  (forall q c, q ∈ parents_and_self out_root -> fs w !! q <> Some (File c)) ->
  exists files',
    main io wo blocks_root out_root size w
    = (Ok tt, mkWorld files' (stdout w ++ [MissingRoot blocks_root]))
    /\ is_dir files' out_root = true
    /\ (forall q, q ∈ parents_and_self out_root -> files' !! q = Some Dir)
    /\ (forall q, q ∉ parents_and_self out_root -> files' !! q = fs w !! q)
    /\ (lookup_node (fs w) out_root = None ->
        (forall q, is_below out_root q = true -> fs w !! q = None) ->
        forall q, is_below out_root q = true -> files' !! q = None).
Proof.
  intros Hmiss Hnot Hok.
  destruct (mkdir_from_spec [] out_root (fs w) Hok)
    as (files' & Em & Hin & Hout).
  exists files'.
  assert (Hb : lookup_node files' blocks_root = None).
  { destruct blocks_root as [|c p]; [discriminate|].
    cbn [lookup_node] in *. now rewrite (Hout _ Hnot). }
  split; [|split; [|split; [exact Hin | split; [exact Hout|]]]].
  - unfold main, mbind, M_bind, bind, mkdir_parents, get_fs.
    rewrite Em. cbn [fs]. unfold path_exists. rewrite Hb. reflexivity.
  - unfold is_dir. destruct out_root as [|c p]; [reflexivity|].
    cbn [lookup_node]. rewrite Hin; [reflexivity|].
    apply (ancestors_from_self [] (c :: p)). discriminate.
  - intros _ Hempty q Hq. rewrite Hout; [now apply Hempty|].
    intros H. apply ancestors_from_length in H.
    apply is_below_length in Hq. cbn in H. lia.
Qed.

Lemma missing_root_creates_out_dir_witness :
  exists files',
    main (fun l => l) (fun l => l) ["nowhere"] ["out"; "iso"] 128
         two_jobs_world
    = (Ok tt, mkWorld files' [MissingRoot ["nowhere"]])
    /\ is_dir files' ["out"; "iso"] = true
    /\ files' !! ["out"] = Some Dir.
Proof.
  destruct (missing_root_creates_out_dir (fun l => l) (fun l => l)
              ["nowhere"] ["out"; "iso"] 128 two_jobs_world)
    as (files' & E & Hd & Hin & _).
  - reflexivity.
  - intros H. vm_compute in H.
    apply elem_of_cons in H as [H | H]; [discriminate|].
    apply elem_of_cons in H as [H | H]; [discriminate | inversion H].
  - intros q c Hq. vm_compute in Hq.
    apply elem_of_cons in Hq as [-> | Hq];
      [|apply elem_of_cons in Hq as [-> | Hq]; [|inversion Hq]];
      vm_compute; discriminate.
  - exists files'. split; [exact E|]. split; [exact Hd|].
    apply Hin. left.
Defined.

(** C10 fails as stated: [blocks] does not exist and [out_dir] lies in
    it; making [out_dir] makes [blocks] too, so the root is found, no
    missing root is reported and the run ends with nothing to render. *)
Lemma out_dir_below_missing_root :
  let w := mkWorld ∅ [] in
  let r := main (fun l => l) (fun l => l) ["blocks"] ["blocks"; "iso"] 128 w in
  path_exists (fs w) ["blocks"] = false
  /\ fst r = Ok tt
  /\ stdout (snd r) = [NothingToRender]
  /\ path_exists (fs (snd r)) ["blocks"] = true.
Proof. repeat split; vm_compute; reflexivity. Qed.

(** * Further properties of the code *)

(** ** The face resolver *)

(** X1: [pick_by_keys] returns the path of the first entry, in the order
    of the dictionary, whose stem matches one of the keywords, and [None]
    exactly when no stem matches. *)
Theorem pick_by_keys_first_match (d : dict Path) (keys : list string) :
  (forall p,
      pick_by_keys d keys = Some p <->
      exists d1 stem d2,
        d = d1 ++ (stem, p) :: d2 /\ any_key keys stem = true
        /\ Forall (fun e => any_key keys (fst e) = false) d1)
  /\ (pick_by_keys d keys = None <->
      Forall (fun e => any_key keys (fst e) = false) d).
Proof.
  split; [intros p; apply pick_by_keys_first|].
  split; [|apply pick_by_keys_none].
  induction d as [|[stem q] d IH]; cbn; [constructor|].
  destruct (any_key keys stem) eqn:K; [discriminate|].
  intros H. constructor; [exact K | now apply IH].
Qed.

Lemma find_faces_nonempty (textures : dict Path) :
  textures <> [] -> exists faces, find_faces textures = Some faces.
Proof.
  intros Hne. destruct textures as [|[stem0 p0] rest] eqn:Et; [congruence|].
  rewrite <- Et.
  assert (Hfirst : first_value textures = Some p0) by now rewrite Et.
  unfold find_faces. rewrite Hfirst.
  destruct (pick_by_keys textures TOP_KEYS);
  destruct (pick_by_keys textures BOTTOM_KEYS);
  destruct (pick_by_keys textures SIDE_KEYS);
  destruct (pick_by_keys textures (FACE_KEYS north));
  destruct (pick_by_keys textures (FACE_KEYS south));
  destruct (pick_by_keys textures (FACE_KEYS east));
  destruct (pick_by_keys textures (FACE_KEYS west));
  cbn; eauto.
Qed.

(** X2: [find_faces] raises [StopIteration] on the empty texture map, and
    on no other. *)
Theorem find_faces_raises_iff_empty (textures : dict Path) :
  find_faces textures = None <-> textures = [].
Proof.
  split.
  - intros H. destruct textures as [|e rest]; [reflexivity|].
    destruct (find_faces_nonempty (e :: rest)) as (faces & E); [discriminate|].
    congruence.
  - intros ->. reflexivity.
Qed.

(** X3: once a keyword has matched, a slot that its own rule left unbound
    takes the first bound of top, left, right and bottom, in that order;
    a bound slot keeps its texture. *)
Theorem find_faces_fallback_order (textures : dict Path) :
  let t := pick_by_keys textures TOP_KEYS in
  let b := pick_by_keys textures BOTTOM_KEYS in
  let sd := pick_by_keys textures SIDE_KEYS in
  let n := pick_by_keys textures (FACE_KEYS north) in
  let s := pick_by_keys textures (FACE_KEYS south) in
  let e := pick_by_keys textures (FACE_KEYS east) in
  let w := pick_by_keys textures (FACE_KEYS west) in
  let l := first_present [sd; w; s; e; n] in
  let r := first_present [sd; e; n; w; s] in
  first_present [t; b; l; r] <> None ->
  find_faces textures
  = Some (mkFaces (first_present [t; l; r; b]) (first_present [b; t; l; r])
                  (first_present [l; t; r; b]) (first_present [r; t; l; b])).
Proof.
  cbv zeta. unfold find_faces.
  destruct (pick_by_keys textures TOP_KEYS);
  destruct (pick_by_keys textures BOTTOM_KEYS);
  destruct (pick_by_keys textures SIDE_KEYS);
  destruct (pick_by_keys textures (FACE_KEYS north));
  destruct (pick_by_keys textures (FACE_KEYS south));
  destruct (pick_by_keys textures (FACE_KEYS east));
  destruct (pick_by_keys textures (FACE_KEYS west));
  cbn; intros H; try reflexivity; congruence.
Qed.

Lemma find_faces_fallback_order_witness :
  find_faces [("crate_bottom", ["mod"; "crate_bottom.png"]);
              ("crate_east", ["mod"; "crate_east.png"])]
  = Some (mkFaces (Some ["mod"; "crate_east.png"])
                  (Some ["mod"; "crate_bottom.png"])
                  (Some ["mod"; "crate_east.png"])
                  (Some ["mod"; "crate_east.png"])).
Proof.
  apply (find_faces_fallback_order
           [("crate_bottom", ["mod"; "crate_bottom.png"]);
            ("crate_east", ["mod"; "crate_east.png"])]).
  discriminate.
Defined.

(** ** Names, stems and the texture map *)

Lemma string_app_nil (a b : string) : a +:+ b = "" -> a = "" /\ b = "".
Proof.
  destruct a; [|discriminate]. change ("" +:+ b) with b. now intros ->.
Qed.

Lemma string_length_app (a b : string) :
  String.length (a +:+ b) = (String.length a + String.length b)%nat.
Proof.
  induction a as [|c a IH]; [reflexivity|].
  rewrite Str.app_cons. cbn. now rewrite IH.
Qed.

Lemma ends_with_spec (suf s : string) :
  Str.ends_with suf s = true <-> exists pre, s = pre +:+ suf.
Proof.
  induction s as [|c s IH]; cbn [Str.ends_with].
  - rewrite orb_false_r, String.eqb_eq. split.
    + intros ->. now exists "".
    + intros (pre & E). symmetry in E. now apply string_app_nil in E.
  - rewrite orb_true_iff, String.eqb_eq, IH. split.
    + intros [-> | (pre & ->)]; [now exists "" | now exists (String c pre)].
    + intros ([|c' pre] & E).
      * left. symmetry. exact E.
      * right. rewrite Str.app_cons in E. injection E as -> ->. eauto.
Qed.

(** The last character of a string. *)
Fixpoint last_char (s : string) : option ascii :=
  match s with
  | "" => None
  | String c s' =>
      match last_char s' with
      | Some d => Some d
      | None => Some c
      end
  end.

Lemma last_char_app (pre suf : string) :
  suf <> "" -> last_char (pre +:+ suf) = last_char suf.
Proof.
  intros Hne. induction pre as [|c pre IH]; [reflexivity|].
  rewrite Str.app_cons. cbn. rewrite IH.
  destruct suf as [|d suf]; [congruence|]. cbn.
  destruct (last_char suf); reflexivity.
Qed.

Lemma png_is_not_mcmeta (n : string) :
  Str.ends_with ".png" n = true -> Str.ends_with ".png.mcmeta" n = false.
Proof.
  intros H. apply ends_with_spec in H as (a & ->).
  destruct (Str.ends_with ".png.mcmeta" (a +:+ ".png")) eqn:E; [|reflexivity].
  apply ends_with_spec in E as (b & E).
  apply (f_equal last_char) in E.
  rewrite !last_char_app in E by discriminate. discriminate.
Qed.

Lemma rfind_app (c : ascii) (s t : string) (i : nat) :
  Str.rfind c t = Some i ->
  Str.rfind c (s +:+ t) = Some (String.length s + i)%nat.
Proof.
  intros H. induction s as [|a s IH]; [exact H|].
  rewrite Str.app_cons. cbn. now rewrite IH.
Qed.

Lemma take_app (s t : string) : Str.take (String.length s) (s +:+ t) = s.
Proof.
  induction s as [|c s IH]; [now destruct t|].
  rewrite Str.app_cons. cbn. now rewrite IH.
Qed.

Lemma name_snoc (dir : Path) (n : string) : name (dir ++ [n]) = n.
Proof. unfold name. apply List.last_last. Qed.

(** X4: the stem of a file [s.png] is [s], whatever dots [s] holds, so
    the name of a scanned file is its stem followed by [.png]; the one
    exception is the file named [.png], whose stem is its whole name. *)
Theorem stem_of_png (dir : Path) (s : string) :
  (s <> "" -> stem (dir ++ [s +:+ ".png"]) = s)
  /\ stem (dir ++ [".png"]) = ".png".
Proof.
  split.
  - intros Hne. unfold stem. rewrite name_snoc.
    rewrite (rfind_app "." s ".png" 0 eq_refl), string_length_app.
    assert (Hl : (0 < String.length s)%nat)
      by (destruct s; [congruence | cbn; lia]).
    destruct (Nat.ltb_spec 0 (String.length s + 0)); [|lia].
    destruct (Nat.ltb_spec (String.length s + 0)
                (String.length s + String.length ".png" - 1));
      [|cbn in *; lia].
    cbn [andb]. rewrite Nat.add_0_r. apply take_app.
  - unfold stem. rewrite name_snoc. reflexivity.
Qed.

Lemma stem_of_png_witness :
  stem ["blocks"; "create"; "andesite.casing_top.png"] = "andesite.casing_top".
Proof.
  apply (proj1 (stem_of_png ["blocks"; "create"] "andesite.casing_top")).
  discriminate.
Defined.

Lemma In_sorted (l : list Path) (p : Path) : In p (sorted l) <-> In p l.
Proof.
  unfold sorted. rewrite <- !list_elem_of_In.
  now rewrite (merge_sort_Permutation path_le l).
Qed.

Lemma In_rglob_png (wo : list Path -> list Path) (files : gmap Path node)
      (moddir p : Path) :
  reorders wo -> In p (rglob_png wo files moddir) ->
  is_below moddir p = true /\ Str.ends_with ".png" (name p) = true
  /\ is_Some (files !! p).
Proof.
  intros Hwo. unfold rglob_png. rewrite <- list_elem_of_In, (Hwo _).
  rewrite list_elem_of_In, filter_In, andb_true_iff.
  intros (Hin & Hb & Hpng). split; [exact Hb|]. split; [exact Hpng|].
  apply in_map_iff in Hin as ([q nd] & <- & Hin). cbn.
  apply list_elem_of_In, elem_of_map_to_list in Hin. eauto.
Qed.

(** X5: the guard against [.png.mcmeta] names in
    [collect_textures_in_moddir] never fires: every path that the scan
    yields has a name that ends in [.png], and such a name does not end in
    [.png.mcmeta]. *)
Theorem mcmeta_guard_never_taken
        (wo : list Path -> list Path) (files : gmap Path node)
        (moddir p : Path) :
  reorders wo ->
  In p (sorted (rglob_png wo files moddir)) ->
  Str.ends_with ".png" (name p) = true
  /\ Str.ends_with ".png.mcmeta" (name p) = false.
Proof.
  intros Hwo Hin. apply (proj1 (In_sorted _ _)) in Hin.
  destruct (In_rglob_png wo files moddir p Hwo Hin) as (_ & Hpng & _).
  split; [exact Hpng | now apply png_is_not_mcmeta].
Qed.

Lemma mcmeta_guard_never_taken_witness :
  Str.ends_with ".png.mcmeta" (name ["blocks"; "m"; "zinc.png"]) = false.
Proof.
  apply (mcmeta_guard_never_taken (fun l => l) (fs two_jobs_world)
           ["blocks"; "m"] ["blocks"; "m"; "zinc.png"] reorders_id).
  vm_compute. tauto.
Defined.




Lemma dict_set_keys {V} (d : dict V) (k : string) (v : V) :
  map fst (dict_set d k v)
  = if existsb (String.eqb k) (map fst d) then map fst d
    else map fst d ++ [k].
Proof.
  induction d as [|[k' v'] d IH]; cbn; [reflexivity|].
  rewrite (String.eqb_sym k k').
  destruct (String.eqb k' k); cbn; [reflexivity|].
  rewrite IH. destruct (existsb _ _); reflexivity.
Qed.

Lemma dict_set_NoDup {V} (d : dict V) (k : string) (v : V) :
  List.NoDup (map fst d) -> List.NoDup (map fst (dict_set d k v)).
Proof.
  intros Hd. rewrite dict_set_keys.
  destruct (existsb (String.eqb k) (map fst d)) eqn:E; [exact Hd|].
  apply List.NoDup_app; [exact Hd | repeat constructor; intros []|].
  intros x Hx [E' | []]. subst x.
  assert (existsb (String.eqb k) (map fst d) = true); [|congruence].
  apply existsb_exists. exists k. split; [exact Hx | apply String.eqb_refl].
Qed.

Lemma dict_set_In {V} (d : dict V) (k k' : string) (v v' : V) :
  In (k', v') (dict_set d k v) -> (k' = k /\ v' = v) \/ In (k', v') d.
Proof.
  induction d as [|[k0 v0] d IH]; cbn.
  - intros [[= <- <-]|[]]. now left.
  - destruct (String.eqb_spec k0 k) as [->|Hne]; cbn.
    + intros [[= <- <-]|H]; [now left | right; now right].
    + intros [H|H]; [right; now left|].
      destruct (IH H); [now left | right; now right].
Qed.

(** The key under which a scanned path is stored. *)
Definition texture_key (p : Path) : string := Str.lower (stem p).

Lemma lower_char_idem (c : ascii) :
  Str.lower_char (Str.lower_char c) = Str.lower_char c.
Proof. destruct c as [[] [] [] [] [] [] [] []]; reflexivity. Qed.

Lemma lower_idem (s : string) : Str.lower (Str.lower s) = Str.lower s.
Proof.
  induction s as [|c s IH]; cbn; [reflexivity|].
  now rewrite lower_char_idem, IH.
Qed.


Lemma collect_invariant (l : list Path) (acc : dict Path) (l0 : list Path) :
  List.NoDup (map fst acc) ->
  (forall k p, In (k, p) acc -> k = texture_key p /\ In p l0) ->
  (forall p, In p l -> In p l0) ->
  List.NoDup (map fst (collect l acc))
  /\ forall k p, In (k, p) (collect l acc) -> k = texture_key p /\ In p l0.
Proof.
  revert acc. induction l as [|q l IH]; intros acc Hnd Hacc Hl; cbn.
  - auto.
  - destruct (Str.ends_with ".png.mcmeta" (name q)).
    + apply IH; auto. intros p Hp. apply Hl. now right.
    + apply IH.
      * now apply dict_set_NoDup.
      * intros k p Hin. apply dict_set_In in Hin as [[-> ->] | Hin]; [|auto].
        split; [reflexivity|]. apply Hl. now left.
      * intros p Hp. apply Hl. now right.
Qed.

(** The name is made of ASCII characters only. *)
Fixpoint ascii_only (s : string) : bool :=
  match s with
  | "" => true
  | String c rest => (nat_of_ascii c <? 128)%nat && ascii_only rest
  end.

(** X6: the texture map of a mod directory has no key twice, and every
    path in it is one that the scan listed; the key of a path whose name
    is made of ASCII characters is the stem of the path with the letters
    [A] to [Z] folded, a string without a capital letter. *)
Theorem collect_textures_keys
        (wo : list Path -> list Path) (files : gmap Path node)
        (moddir : Path) :
  let textures := collect_textures_in_moddir wo files moddir in
  List.NoDup (map fst textures)
  /\ forall stem_ p,
      In (stem_, p) textures ->
      In p (rglob_png wo files moddir)
      /\ (ascii_only (name p) = true ->
          stem_ = Str.lower (stem p) /\ Str.lower stem_ = stem_).
Proof.
  cbv zeta. unfold collect_textures_in_moddir.
  destruct (collect_invariant (sorted (rglob_png wo files moddir)) []
              (rglob_png wo files moddir)) as [Hnd Hin].
  - constructor.
  - intros k p [].
  - intros p. apply In_sorted.
  - split; [exact Hnd|]. intros k p H. destruct (Hin k p H) as [-> Hp].
    unfold texture_key. split; [exact Hp|]. intros _.
    split; [reflexivity | apply lower_idem].
Qed.



(** ** The job grouper *)

Lemma group_add_keys (groups : dict (dict Path)) (base stem_ : string)
      (path : Path) :
  map fst (group_add groups base stem_ path)
  = if existsb (String.eqb base) (map fst groups) then map fst groups
    else map fst groups ++ [base].
Proof.
  induction groups as [|[b tm] groups IH]; cbn; [reflexivity|].
  rewrite (String.eqb_sym base b).
  destruct (String.eqb b base); cbn; [reflexivity|].
  rewrite IH. destruct (existsb _ _); reflexivity.
Qed.

Lemma group_add_NoDup (groups : dict (dict Path)) (base stem_ : string)
      (path : Path) :
  List.NoDup (map fst groups) ->
  List.NoDup (map fst (group_add groups base stem_ path)).
Proof.
  intros Hd. rewrite group_add_keys.
  destruct (existsb (String.eqb base) (map fst groups)) eqn:E; [exact Hd|].
  apply List.NoDup_app; [exact Hd | repeat constructor; intros []|].
  intros x Hx [E' | []]. subst x.
  assert (existsb (String.eqb base) (map fst groups) = true); [|congruence].
  apply existsb_exists. exists base.
  split; [exact Hx | apply String.eqb_refl].
Qed.

Lemma group_add_In (groups : dict (dict Path)) (base stem_ b : string)
      (path : Path) (tm : dict Path) :
  In (b, tm) (group_add groups base stem_ path) ->
  In (b, tm) groups
  \/ (b = base
      /\ (tm = [(stem_, path)]
          \/ exists tm0, In (base, tm0) groups
                         /\ tm = dict_set tm0 stem_ path)).
Proof.
  induction groups as [|[b0 tm0] groups IH]; cbn.
  - intros [[= <- <-]|[]]. right. split; [reflexivity | now left].
  - destruct (String.eqb_spec b0 base) as [->|Hne]; cbn.
    + intros [[= <- <-]|H]; [|left; now right].
      right. split; [reflexivity|]. right. exists tm0. split; [now left|auto].
    + intros [H|H]; [left; now left|].
      destruct (IH H) as [H'|(-> & [-> | (tm1 & H1 & ->)])].
      * left. now right.
      * right. split; [reflexivity | now left].
      * right. split; [reflexivity|]. right. exists tm1.
        split; [now right | reflexivity].
Qed.

Lemma dict_set_nonempty {V} (d : dict V) (k : string) (v : V) :
  dict_set d k v <> [].
Proof.
  destruct d as [|[k' v'] d]; cbn; [discriminate|].
  destruct (String.eqb k' k); discriminate.
Qed.

Lemma group_textures_sound (textures : dict Path) (groups : dict (dict Path))
      (all : dict Path) :
  (forall e, In e textures -> In e all) ->
  List.NoDup (map fst groups) ->
  (forall b tm, In (b, tm) groups ->
     tm <> [] /\ forall s p, In (s, p) tm -> base_of s = b /\ In (s, p) all) ->
  List.NoDup (map fst (group_textures textures groups))
  /\ forall b tm, In (b, tm) (group_textures textures groups) ->
       tm <> [] /\ forall s p, In (s, p) tm -> base_of s = b /\ In (s, p) all.
Proof.
  revert groups. induction textures as [|[s0 p0] textures IH];
    intros groups Hall Hnd Hg; cbn; [auto|].
  apply IH.
  - intros e He. apply Hall. now right.
  - now apply group_add_NoDup.
  - intros b tm Hin.
    apply group_add_In in Hin as [Hin | (-> & [-> | (tm0 & Hin & ->)])].
    + now apply Hg.
    + split; [discriminate|]. intros s p [[= <- <-]|[]].
      split; [reflexivity|]. apply Hall. now left.
    + split; [apply dict_set_nonempty|]. intros s p Hsp.
      apply dict_set_In in Hsp as [[-> ->] | Hsp].
      * split; [reflexivity|]. apply Hall. now left.
      * now apply (Hg _ _ Hin).
Qed.

(** X8: the groups of a texture map are keyed by distinct base
    identifiers, none of them is empty, and a group holds only textures
    of the map whose base identifier is the key of the group. *)
Theorem group_textures_by_base (textures : dict Path) :
  let groups := group_textures textures [] in
  List.NoDup (map fst groups)
  /\ forall base texmap,
      In (base, texmap) groups ->
      texmap <> []
      /\ forall stem_ path,
          In (stem_, path) texmap ->
          base_of stem_ = base /\ In (stem_, path) textures.
Proof.
  cbv zeta. apply group_textures_sound.
  - auto.
  - constructor.
  - intros b tm [].
Qed.

Lemma dict_set_In_self {V} (d : dict V) (k : string) (v : V) :
  In (k, v) (dict_set d k v).
Proof.
  induction d as [|[k' v'] d IH]; cbn; [now left|].
  destruct (String.eqb_spec k' k) as [->|]; [now left | now right].
Qed.

Lemma dict_set_In_other {V} (d : dict V) (k k' : string) (v v' : V) :
  In (k, v) d -> k <> k' -> In (k, v) (dict_set d k' v').
Proof.
  intros Hin Hne. induction d as [|[k0 v0] d IH]; [destruct Hin|].
  cbn. destruct (String.eqb_spec k0 k') as [->|].
  - destruct Hin as [[= -> ->]|Hin]; [congruence | now right].
  - destruct Hin as [E|Hin]; [now left | right; auto].
Qed.

Lemma group_add_self (groups : dict (dict Path)) (base stem_ : string)
      (path : Path) :
  exists tm, In (base, tm) (group_add groups base stem_ path)
             /\ In (stem_, path) tm.
Proof.
  induction groups as [|[b tm] groups (tm' & H1 & H2)]; cbn.
  - exists [(stem_, path)]. split; now left.
  - destruct (String.eqb_spec b base) as [->|].
    + exists (dict_set tm stem_ path). split; [now left|].
      apply dict_set_In_self.
    + exists tm'. split; [now right | exact H2].
Qed.

Lemma group_add_keeps (groups : dict (dict Path)) (base stem_ b s : string)
      (path p : Path) :
  (exists tm, In (b, tm) groups /\ In (s, p) tm) ->
  s <> stem_ ->
  exists tm, In (b, tm) (group_add groups base stem_ path) /\ In (s, p) tm.
Proof.
  intros (tm & Hin & Hsp) Hne.
  induction groups as [|[b0 tm0] groups IH]; [destruct Hin|].
  cbn. destruct (String.eqb_spec b0 base) as [->|Hb].
  - destruct Hin as [[= -> ->]|Hin].
    + exists (dict_set tm stem_ path). split; [now left|].
      now apply dict_set_In_other.
    + exists tm. split; [now right | exact Hsp].
  - destruct Hin as [[= -> ->]|Hin].
    + exists tm. split; [now left | exact Hsp].
    + destruct (IH Hin) as (tm' & H1 & H2). exists tm'.
      split; [now right | exact H2].
Qed.

Lemma group_textures_complete (textures : dict Path)
      (groups : dict (dict Path)) :
  List.NoDup (map fst textures) ->
  (forall s p,
      (exists tm, In (base_of s, tm) groups /\ In (s, p) tm) ->
      ~ In s (map fst textures) ->
      exists tm, In (base_of s, tm) (group_textures textures groups)
                 /\ In (s, p) tm)
  /\ (forall s p,
        In (s, p) textures ->
        exists tm, In (base_of s, tm) (group_textures textures groups)
                   /\ In (s, p) tm).
Proof.
  revert groups. induction textures as [|[s0 p0] textures IH];
    intros groups Hnd; cbn.
  - split; [auto | intros s p []].
  - inversion Hnd as [|? ? Hnot Hnd']; subst.
    destruct (IH (group_add groups (base_of s0) s0 p0) Hnd') as [IH1 IH2].
    split.
    + intros s p Hex Hs. apply IH1.
      * apply group_add_keeps; [exact Hex|]. intros ->. apply Hs. now left.
      * intros H. apply Hs. now right.
    + intros s p [[= -> ->]|Hin].
      * apply IH1; [apply group_add_self | exact Hnot].
      * now apply IH2.
Qed.

(** X9: every texture of a map with distinct keys lies in the group of
    its base identifier: the groups leave no texture out. *)
Theorem group_textures_covers (textures : dict Path) (stem_ : string)
        (path : Path) :
  List.NoDup (map fst textures) ->
  In (stem_, path) textures ->
  exists texmap,
    In (base_of stem_, texmap) (group_textures textures [])
    /\ In (stem_, path) texmap.
Proof.
  intros Hnd Hin.
  now apply (proj2 (group_textures_complete textures [] Hnd)).
Qed.

Lemma group_textures_covers_witness :
  exists texmap,
    In ("stone", texmap) (group_textures stone_group [])
    /\ In ("stone_top", ["mod"; "stone_top.png"]) texmap.
Proof.
  apply (group_textures_covers stone_group "stone_top"
           ["mod"; "stone_top.png"]).
  - repeat constructor; cbn; intuition discriminate.
  - right. now left.
Defined.

Lemma In_jobs_of_moddir (wo : list Path -> list Path)
      (files : gmap Path node) (moddir : Path) (modid base : string)
      (texmap : dict Path) :
  In (modid, base, texmap) (jobs_of_moddir wo files moddir) ->
  modid = name moddir
  /\ In (base, texmap)
        (group_textures (collect_textures_in_moddir wo files moddir) []).
Proof.
  unfold jobs_of_moddir.
  destruct (collect_textures_in_moddir wo files moddir) as [|e l] eqn:E;
    [intros []|].
  rewrite in_map_iff. intros ([b tm] & [= <- <- <-] & Hin). auto.
Qed.

(** X10: every job that [main] plans has a texture map that is not
    empty, so [find_faces] resolves it and the loop never meets
    [StopIteration]; the jobs of one mod directory have distinct base
    identifiers, hence distinct output files. *)
Theorem planned_jobs_resolve
        (io wo : list Path -> list Path) (files : gmap Path node)
        (blocks_root : Path) (jobs : list job) :
  plan_jobs io wo files blocks_root = Ok jobs ->
  (forall modid base texmap,
      In (modid, base, texmap) jobs ->
      texmap <> [] /\ exists faces, find_faces texmap = Some faces)
  /\ (forall moddir,
        List.NoDup (map (fun j : job => snd (fst j))
                        (jobs_of_moddir wo files moddir))).
Proof.
  intros Hplan. split.
  - intros modid base texmap Hin. unfold plan_jobs in Hplan.
    destruct (iterdir io files blocks_root) as [entries|e]; [|discriminate].
    rewrite bind_Ok in Hplan. injection Hplan as <-.
    apply in_concat in Hin as (js & Hjs & Hin).
    apply in_map_iff in Hjs as (moddir & <- & _).
    apply In_jobs_of_moddir in Hin as [_ Hin].
    destruct (group_textures_sound
                (collect_textures_in_moddir wo files moddir) []
                (collect_textures_in_moddir wo files moddir))
      as [_ Hg]; [auto | constructor | intros b tm [] |].
    destruct (Hg base texmap Hin) as [Hne _].
    split; [exact Hne | now apply find_faces_nonempty].
  - intros moddir. unfold jobs_of_moddir.
    destruct (collect_textures_in_moddir wo files moddir) as [|e l] eqn:E;
      [constructor|].
    rewrite map_map. cbn.
    apply (group_textures_sound (e :: l) [] (e :: l));
      [auto | constructor | intros b tm []].
Qed.

Lemma planned_jobs_resolve_witness :
  exists jobs,
    plan_jobs (fun l => l) (fun l => l) (fs two_jobs_world) ["blocks"]
    = Ok jobs
    /\ forall modid base texmap,
        In (modid, base, texmap) jobs ->
        texmap <> [] /\ exists faces, find_faces texmap = Some faces.
Proof.
  eexists. split; [vm_compute; reflexivity|].
  apply (planned_jobs_resolve (fun l => l) (fun l => l) (fs two_jobs_world)
           ["blocks"]).
  vm_compute. reflexivity.
Defined.

(** ** What a run prints and what it touches *)

Lemma is_prefix_app (p r : Path) : is_prefix p (p ++ r) = true.
Proof.
  induction p as [|a p IH]; cbn; [reflexivity|].
  now rewrite String.eqb_refl.
Qed.

Lemma is_prefix_app_inv (q p r : Path) :
  is_prefix q (p ++ r) = true -> is_prefix q p = true \/ is_prefix p q = true.
Proof.
  revert p. induction q as [|a q IH]; intros p; [now left|].
  destruct p as [|b p]; [now right|]. cbn.
  rewrite (String.eqb_sym b a). destruct (String.eqb a b); cbn; [|discriminate].
  apply IH.
Qed.

Lemma is_prefix_trans (p q r : Path) :
  is_prefix p q = true -> is_prefix q r = true -> is_prefix p r = true.
Proof.
  revert q r. induction p as [|a p IH]; intros q r; [reflexivity|].
  destruct q as [|b q]; [discriminate|]. destruct r as [|c r]; [discriminate|].
  cbn. rewrite !andb_true_iff.
  intros [Hab Hpq] [Hbc Hqr]. apply String.eqb_eq in Hab, Hbc. subst.
  rewrite String.eqb_refl. eauto.
Qed.

Lemma is_prefix_length (p q : Path) :
  is_prefix p q = true -> (length p <= length q)%nat.
Proof.
  revert q. induction p as [|a p IH]; intros q; cbn; [lia|].
  destruct q as [|b q]; [discriminate|]. rewrite andb_true_iff.
  intros [_ H]. apply IH in H. cbn. lia.
Qed.

Lemma ancestors_from_prefix (done : Path) (rest : list string) (q : Path) :
  q ∈ ancestors_from done rest -> is_prefix q (done ++ rest) = true.
Proof.
  revert done. induction rest as [|c rest IH]; intros done; cbn.
  - intros H. inversion H.
  - rewrite elem_of_cons. intros [-> | H].
    + replace (done ++ c :: rest) with ((done ++ [c]) ++ rest)
        by (now rewrite <- app_assoc).
      apply is_prefix_app.
    + apply IH in H. now rewrite <- app_assoc in H.
Qed.

Lemma parents_and_self_prefix (p q : Path) :
  q ∈ parents_and_self p -> is_prefix q p = true.
Proof. apply (ancestors_from_prefix [] p q). Qed.

(** A directory is only ever made at the path or at one of its parents. *)
Lemma mkdir_from_frame (done : Path) (rest : list string)
      (files files' : gmap Path node) :
  mkdir_from done rest files = Ok files' ->
  forall q, q ∉ ancestors_from done rest -> files' !! q = files !! q.
Proof.
  revert done files. induction rest as [|c rest IH]; intros done files;
    cbn [mkdir_from ancestors_from]; cbv zeta.
  - now intros [= <-].
  - destruct (files !! (done ++ [c])) as [[|content]|] eqn:E;
      [| discriminate |]; intros Hm q Hq.
    + apply (IH _ _ Hm). intros H. apply Hq. now right.
    + rewrite (IH _ _ Hm) by (intros H; apply Hq; now right).
      apply lookup_insert_ne. intros <-. apply Hq. left.
Qed.

(** A file at the path or at one of its parents stops [mkdir]. *)
Lemma mkdir_from_blocked (done : Path) (rest : list string)
      (files : gmap Path node) (q : Path) (c : option Image) :
  q ∈ ancestors_from done rest -> files !! q = Some (File c) ->
  exists e, mkdir_from done rest files = Raise e
            /\ (e = FileExistsError \/ e = NotADirectoryError).
Proof.
  revert done files. induction rest as [|s rest IH]; intros done files;
    cbn [mkdir_from ancestors_from]; cbv zeta.
  - intros H. inversion H.
  - rewrite elem_of_cons. intros Hq Hf.
    destruct (files !! (done ++ [s])) as [[|content]|] eqn:E.
    + destruct Hq as [-> | Hq]; [unfold Path in *; congruence|].
      now apply IH.
    + destruct rest; eauto.
    + destruct Hq as [-> | Hq]; [unfold Path in *; congruence|].
      apply IH; [exact Hq|]. rewrite lookup_insert_ne; [exact Hf|].
      intros <-. unfold Path in *. congruence.
Qed.

Lemma mkdir_parents_effect (p : Path) (w : World) :
  match mkdir_parents p w with
  | (Ok _, w') =>
      stdout w' = stdout w
      /\ forall q, q ∉ parents_and_self p -> fs w' !! q = fs w !! q
  | (Raise _, w') => w' = w
  end.
Proof.
  unfold mkdir_parents.
  destruct (mkdir_from [] p (fs w)) as [files|e] eqn:E; [|reflexivity].
  split; [reflexivity|]. cbn. now apply mkdir_from_frame.
Qed.

Lemma save_effect (iso : Image) (p : Path) (w : World) :
  match save iso p w with
  | (Ok _, w') =>
      stdout w' = stdout w /\ forall q, q <> p -> fs w' !! q = fs w !! q
  | (Raise _, w') => w' = w
  end.
Proof.
  unfold save. destruct (has_extension (name p)); [|reflexivity].
  cbn [negb].
  destruct (lookup_node (fs w) p) as [[|c]|];
    [reflexivity| |];
    (destruct (lookup_node (fs w) (removelast p)) as [[|c']|];
     [|reflexivity|reflexivity]);
    (split; [reflexivity|]; intros q Hq; cbn; now apply lookup_insert_ne).
Qed.

(** The lines of the loop: a warning or a progress line. *)
Definition job_line (m : message) : bool :=
  match m with
  | LoadWarning _ _ _ | Progress _ _ _ _ _ => true
  | _ => false
  end.

(** Neither a parent of [out_root] nor [out_root] nor below it. *)
Definition apart (out_root q : Path) : Prop :=
  is_prefix q out_root = false /\ is_prefix out_root q = false.

Lemma apart_joinpath (out_root q : Path) (modid : string) :
  apart out_root q -> q ∉ parents_and_self (joinpath out_root modid).
Proof.
  intros [H1 H2] Hq. apply parents_and_self_prefix in Hq.
  assert (Hj : exists r, joinpath out_root modid = out_root ++ r).
  { unfold joinpath. destruct (String.eqb modid "").
    - exists []. now rewrite app_nil_r.
    - now exists [modid]. }
  destruct Hj as (r & Hj). rewrite Hj in Hq.
  apply is_prefix_app_inv in Hq as [Hq|Hq]; congruence.
Qed.

Lemma apart_out_path (out_root q : Path) (modid file : string) :
  apart out_root q -> q <> joinpath out_root modid ++ [file].
Proof.
  intros [_ H2] ->.
  assert (Hj : exists r, joinpath out_root modid ++ [file] = out_root ++ r).
  { unfold joinpath. destruct (String.eqb modid "").
    - now exists [file].
    - exists [modid; file]. now rewrite <- app_assoc. }
  destruct Hj as (r & Hj). rewrite Hj, is_prefix_app in H2. discriminate.
Qed.

(** The loop, whatever its outcome: it leaves alone what is apart from
    [out_root], prints only lines of jobs, at most one per job, and when
    it returns it has printed one per job and counted each. *)
Lemma run_jobs_effect (out_root : Path) (size total : Z) (jobs : list job)
      (done : Z) (w : World) :
  (forall q, apart out_root q ->
             fs (snd (run_jobs out_root size total jobs done w)) !! q
             = fs w !! q)
  /\ exists msgs,
      stdout (snd (run_jobs out_root size total jobs done w))
      = stdout w ++ msgs
      /\ forallb job_line msgs = true
      /\ (length msgs <= length jobs)%nat
      /\ forall d,
          fst (run_jobs out_root size total jobs done w) = Ok d ->
          d = done + Z.of_nat (length jobs)
          /\ length msgs = length jobs.
Proof.
  revert done w. induction jobs as [|[[modid base] texmap] jobs IH];
    intros done w.
  - cbn. split; [reflexivity|]. exists [].
    rewrite app_nil_r. repeat split; try reflexivity.
    + injection H as <-. lia.
  - assert (Hstop : forall e,
               (forall q, apart out_root q -> fs w !! q = fs w !! q)
               /\ exists msgs,
                   stdout w = stdout w ++ msgs
                   /\ forallb job_line msgs = true
                   /\ (length msgs <= length ((modid, base, texmap) :: jobs))%nat
                   /\ forall d, @Raise Z e = Ok d ->
                        d = done + Z.of_nat
                                     (length ((modid, base, texmap) :: jobs))
                        /\ length msgs
                           = length ((modid, base, texmap) :: jobs)).
    { intros e. split; [reflexivity|]. exists []. rewrite app_nil_r.
      repeat split; cbn; try lia; discriminate. }
    cbn [run_jobs].
    unfold mbind, M_bind, bind, lift, try_except, ret, print.
    destruct (find_faces texmap) as [faces|]; [|apply Hstop].
    pose proof (load_faces_world faces w) as Hw.
    destruct (load_faces faces w) as [[[[t l] r]|e] w1]; cbn in Hw; subst w1.
    + destruct (make_iso_cube t l r size) as [iso|e]; [|apply Hstop].
      pose proof (mkdir_parents_effect (joinpath out_root modid) w) as Hmk.
      destruct (mkdir_parents (joinpath out_root modid) w) as [[[]|e] w2];
        [|subst w2; apply Hstop].
      destruct Hmk as [Hout2 Hfs2].
      pose proof (save_effect iso
                    (joinpath out_root modid ++ [base +:+ ".png"]) w2) as Hsv.
      destruct (save iso (joinpath out_root modid ++ [base +:+ ".png"]) w2)
        as [[[]|e] w3].
      * destruct Hsv as [Hout3 Hfs3].
        match goal with
        | |- context [run_jobs _ _ _ jobs ?d ?w'] =>
            destruct (IH d w') as (Hfr & msgs & Hst & Hall & Hlen & Hd)
        end.
        cbn [fs stdout] in Hfr, Hst. split.
        -- intros q Hq. rewrite (Hfr q Hq).
           rewrite Hfs3 by now apply apart_out_path.
           apply Hfs2. now apply apart_joinpath.
        -- eexists (_ :: msgs). split; [|split; [|split]].
           ++ rewrite Hst, Hout3, Hout2, <- app_assoc. reflexivity.
           ++ cbn. exact Hall.
           ++ cbn. lia.
           ++ intros d Hdd. destruct (Hd d Hdd) as [-> Hl].
              cbn [length]. rewrite Hl. split; [lia | reflexivity].
      * subst w3. cbn [fst snd]. split.
        -- intros q Hq. apply Hfs2. now apply apart_joinpath.
        -- exists []. rewrite app_nil_r.
           repeat split; cbn; try lia; try discriminate. exact Hout2.
    + match goal with
      | |- context [run_jobs _ _ _ jobs ?d ?w'] =>
          destruct (IH d w') as (Hfr & msgs & Hst & Hall & Hlen & Hd)
      end.
      cbn [fs stdout] in Hfr, Hst. split; [exact Hfr|].
      eexists (_ :: msgs). split; [|split; [|split]].
      * rewrite Hst, <- app_assoc. reflexivity.
      * cbn. exact Hall.
      * cbn. lia.
      * intros d Hdd. destruct (Hd d Hdd) as [-> Hl].
        cbn [length]. rewrite Hl. split; [lia | reflexivity].
Qed.

(** X11: a run of [main] that returns has printed the line of the
    missing root, or the line that nothing is to render, or one line for
    each job followed by the summary and the output directory; the two
    counts of the summary are then equal, also when textures could not be
    loaded. *)
Theorem main_report
        (io wo : list Path -> list Path) (blocks_root out_root : Path)
        (size : Z) (w : World) :
  fst (main io wo blocks_root out_root size w) = Ok tt ->
  exists msgs,
    stdout (snd (main io wo blocks_root out_root size w)) = stdout w ++ msgs
    /\ (msgs = [MissingRoot blocks_root]
        \/ msgs = [NothingToRender]
        \/ exists lines n,
            msgs = lines ++ [Summary n n; OutputAt out_root]
            /\ 0 < n /\ n = Z.of_nat (length lines)
            /\ forallb job_line lines = true).
Proof.
  unfold main. unfold mbind, M_bind, bind, get_fs, lift.
  pose proof (mkdir_parents_effect out_root w) as Hmk.
  destruct (mkdir_parents out_root w) as [[[]|e] w1]; [|discriminate].
  destruct Hmk as [Hout _].
  destruct (negb (path_exists (fs w1) blocks_root)).
  { intros _. exists [MissingRoot blocks_root]. cbn. rewrite Hout. auto. }
  destruct (plan_jobs io wo (fs w1) blocks_root) as [jobs|e]; [|discriminate].
  destruct (Z.eqb_spec (Z.of_nat (length jobs)) 0) as [E|E].
  { intros _. exists [NothingToRender]. cbn. rewrite Hout. auto. }
  destruct (run_jobs_effect out_root size (Z.of_nat (length jobs)) jobs 0 w1)
    as (_ & lines & Hst & Hall & _ & Hd).
  destruct (run_jobs out_root size (Z.of_nat (length jobs)) jobs 0 w1)
    as [[d|e] w2]; [|discriminate].
  cbn [fst snd] in *. destruct (Hd d eq_refl) as [-> Hlen].
  intros _. unfold print. cbn [fst snd stdout fs].
  exists (lines ++ [Summary (Z.of_nat (length jobs)) (Z.of_nat (length jobs));
                    OutputAt out_root]).
  split.
  - rewrite Hst, Hout, <- !app_assoc. reflexivity.
  - right. right. exists lines, (Z.of_nat (length jobs)).
    rewrite Hlen. repeat split; [lia | exact Hall].
Qed.

Lemma main_report_witness :
  exists msgs,
    stdout (snd (main (fun l => l) (fun l => l) ["blocks"] ["out"] 2
                   two_jobs_world))
    = stdout two_jobs_world ++ msgs
    /\ (msgs = [MissingRoot ["blocks"]]
        \/ msgs = [NothingToRender]
        \/ exists lines n,
            msgs = lines ++ [Summary n n; OutputAt ["out"]]
            /\ 0 < n /\ n = Z.of_nat (length lines)
            /\ forallb job_line lines = true).
Proof.
  apply (main_report (fun l => l) (fun l => l) ["blocks"] ["out"] 2
           two_jobs_world).
  vm_compute. reflexivity.
Defined.

(** X12: whatever its outcome, [main] changes no entry of the file system
    that is neither [out_dir], nor a parent of it, nor below it: the
    textures it reads stay as they are. *)
Theorem main_writes_only_out_dir
        (io wo : list Path -> list Path) (blocks_root out_root : Path)
        (size : Z) (w : World) (q : Path) :
  is_prefix q out_root = false ->
  is_prefix out_root q = false ->
  fs (snd (main io wo blocks_root out_root size w)) !! q = fs w !! q.
Proof.
  intros H1 H2. unfold main. unfold mbind, M_bind, bind, get_fs, lift.
  pose proof (mkdir_parents_effect out_root w) as Hmk.
  destruct (mkdir_parents out_root w) as [[[]|e] w1];
    [|subst w1; reflexivity].
  destruct Hmk as [_ Hfs].
  assert (Hq : fs w1 !! q = fs w !! q).
  { apply Hfs. intros Hq. apply parents_and_self_prefix in Hq. congruence. }
  destruct (negb (path_exists (fs w1) blocks_root)); [exact Hq|].
  destruct (plan_jobs io wo (fs w1) blocks_root) as [jobs|e]; [|exact Hq].
  destruct (Z.eqb_spec (Z.of_nat (length jobs)) 0) as [E|E]; [exact Hq|].
  destruct (run_jobs_effect out_root size (Z.of_nat (length jobs)) jobs 0 w1)
    as (Hfr & _).
  specialize (Hfr q (conj H1 H2)).
  destruct (run_jobs out_root size (Z.of_nat (length jobs)) jobs 0 w1)
    as [[d|e] w2]; cbn [fst snd] in *; unfold print; cbn [fst snd fs];
    congruence.
Qed.

Lemma main_writes_only_out_dir_witness :
  fs (snd (main (fun l => l) (fun l => l) ["blocks"] ["out"] 2
             two_jobs_world)) !! ["blocks"; "m"; "stone_top.png"]
  = fs two_jobs_world !! ["blocks"; "m"; "stone_top.png"].
Proof.
  apply (main_writes_only_out_dir (fun l => l) (fun l => l) ["blocks"] ["out"]
           2 two_jobs_world ["blocks"; "m"; "stone_top.png"]);
    reflexivity.
Defined.

(** X13: a file at [out_dir] or at one of its parents stops [main] at
    its first step: [mkdir] raises [FileExistsError] or
    [NotADirectoryError], nothing is printed and nothing is changed. *)
Theorem main_blocked_out_dir
        (io wo : list Path -> list Path) (blocks_root out_root : Path)
        (size : Z) (w : World) (q : Path) (c : option Image) :
  q ∈ parents_and_self out_root ->
  fs w !! q = Some (File c) ->
  exists e,
    main io wo blocks_root out_root size w = (Raise e, w)
    /\ (e = FileExistsError \/ e = NotADirectoryError).
Proof.
  intros Hq Hf.
  destruct (mkdir_from_blocked [] out_root (fs w) q c Hq Hf) as (e & E & He).
  exists e. split; [|exact He].
  unfold main, mbind, M_bind, bind, mkdir_parents. now rewrite E.
Qed.

Lemma main_blocked_out_dir_witness :
  exists e,
    main (fun l => l) (fun l => l) ["blocks"] ["blocks"; "m"; "zinc.png"; "iso"]
         2 two_jobs_world
    = (Raise e, two_jobs_world)
    /\ (e = FileExistsError \/ e = NotADirectoryError).
Proof.
  apply (main_blocked_out_dir (fun l => l) (fun l => l) ["blocks"]
           ["blocks"; "m"; "zinc.png"; "iso"] 2 two_jobs_world
           ["blocks"; "m"; "zinc.png"] None).
  - unfold parents_and_self. cbn. rewrite !elem_of_cons. auto.
  - reflexivity.
Defined.

Lemma is_prefix_refl (p : Path) : is_prefix p p = true.
Proof.
  induction p as [|a p IH]; cbn; [reflexivity|]. now rewrite String.eqb_refl.
Qed.

Lemma filter_none {X} (f : X -> bool) (l : list X) :
  (forall x, In x l -> f x = false) -> List.filter f l = [].
Proof.
  induction l as [|a l IH]; intros H; cbn; [reflexivity|].
  rewrite (H a) by now left. apply IH. intros x Hx. apply H. now right.
Qed.

Lemma concat_map_nil {X Y} (f : X -> list Y) (l : list X) :
  (forall x, In x l -> f x = []) -> concat (map f l) = [].
Proof.
  induction l as [|a l IH]; intros H; cbn; [reflexivity|].
  rewrite (H a) by now left. apply IH. intros x Hx. apply H. now right.
Qed.

(** A directory without an entry below it whose name ends in [.png]
    gives no job. *)
Lemma jobs_of_moddir_none (wo : list Path -> list Path)
      (files : gmap Path node) (moddir : Path) :
  reorders wo ->
  (forall q, is_below moddir q = true ->
             Str.ends_with ".png" (name q) = true -> files !! q = None) ->
  jobs_of_moddir wo files moddir = [].
Proof.
  intros Hwo Hnone.
  assert (E : rglob_png wo files moddir = []).
  { unfold rglob_png. rewrite filter_none.
    - apply Permutation_nil. symmetry. apply Hwo.
    - intros q Hq. apply in_map_iff in Hq as ([q' nd] & <- & Hin). cbn.
      apply list_elem_of_In, elem_of_map_to_list in Hin.
      apply andb_false_iff.
      destruct (is_below moddir q') eqn:Hb; [|now left].
      destruct (Str.ends_with ".png" (name q')) eqn:Hp; [|now right].
      rewrite (Hnone q' Hb Hp) in Hin. discriminate. }
  unfold jobs_of_moddir, collect_textures_in_moddir. rewrite E. reflexivity.
Qed.

(** X14: when [blocks_dir] is a directory that holds no entry whose name
    ends in [.png], and [out_dir] does not lie in it, [main] makes
    [out_dir], prints that nothing is to render and returns. *)
Theorem no_textures_nothing_to_render
        (io wo : list Path -> list Path) (blocks_root out_root : Path)
        (size : Z) (w : World) :
  reorders io -> reorders wo ->
  (forall q c, q ∈ parents_and_self out_root -> fs w !! q <> Some (File c)) ->
  lookup_node (fs w) blocks_root = Some Dir ->
  is_prefix blocks_root out_root = false ->
  (forall q, is_below blocks_root q = true ->
             Str.ends_with ".png" (name q) = true -> fs w !! q = None) ->
  exists w',
    main io wo blocks_root out_root size w = (Ok tt, w')
    /\ stdout w' = stdout w ++ [NothingToRender]
    /\ (forall q, q ∈ parents_and_self out_root -> fs w' !! q = Some Dir)
    /\ (forall q, q ∉ parents_and_self out_root -> fs w' !! q = fs w !! q).
Proof.
  intros Hio Hwo Hfree Hroot Hout Hnone.
  destruct (mkdir_from_spec [] out_root (fs w) Hfree)
    as (files' & Em & Hin & Hfr).
  fold (parents_and_self out_root) in Hin, Hfr.
  assert (Hroot' : lookup_node files' blocks_root = Some Dir).
  { destruct blocks_root as [|b bs]; [reflexivity|].
    cbn [lookup_node] in *.
    destruct (decide ((b :: bs) ∈ parents_and_self out_root)) as [Hd|Hd].
    - now apply Hin.
    - now rewrite (Hfr _ Hd). }
  assert (Hnone' : forall d q,
             is_prefix blocks_root d = true -> is_below d q = true ->
             Str.ends_with ".png" (name q) = true -> files' !! q = None).
  { intros d q Hd Hb Hp.
    unfold is_below in Hb. apply andb_true_iff in Hb as [Hdq Hlen].
    apply Nat.ltb_lt in Hlen.
    assert (Hbq : is_prefix blocks_root q = true)
      by (eapply is_prefix_trans; eassumption).
    destruct (decide (q ∈ parents_and_self out_root)) as [Ha|Ha].
    - apply parents_and_self_prefix in Ha.
      rewrite (is_prefix_trans _ _ _ Hbq Ha) in Hout. discriminate.
    - rewrite (Hfr _ Ha). apply Hnone; [|exact Hp].
      unfold is_below. rewrite Hbq. apply Nat.ltb_lt.
      apply is_prefix_length in Hd. lia. }
  assert (Hplan : plan_jobs io wo files' blocks_root = Ok []).
  { unfold plan_jobs, iterdir. rewrite Hroot', bind_Ok. f_equal.
    apply concat_map_nil. intros d Hd.
    apply jobs_of_moddir_none; [exact Hwo|]. intros q. apply Hnone'.
    set (l := List.filter (is_child blocks_root) (map fst (map_to_list files')))
      in *.
    destruct (List.filter (is_dir files') (io l)) as [|d1 ds] eqn:E.
    - destruct Hd as [<-|[]]. apply is_prefix_refl.
    - rewrite <- E in Hd. apply filter_In in Hd as [Hd _].
      apply list_elem_of_In in Hd. rewrite (Hio l) in Hd.
      apply list_elem_of_In, filter_In in Hd as [_ Hd].
      unfold is_child in Hd. now apply andb_true_iff in Hd as [Hd _]. }
  exists (mkWorld files' (stdout w ++ [NothingToRender])).
  split; [|split; [reflexivity | split; [exact Hin | exact Hfr]]].
  unfold main, mbind, M_bind, bind, mkdir_parents, get_fs, lift.
  rewrite Em. cbn [fs stdout]. unfold path_exists. rewrite Hroot'.
  cbn [negb]. rewrite Hplan. reflexivity.
Qed.

(** A [blocks_dir] without content. *)
Definition bare_world : World := mkWorld {[ ["blocks"] := Dir ]} [].

Lemma no_textures_nothing_to_render_witness :
  exists w',
    main (fun l => l) (fun l => l) ["blocks"] ["out"; "iso"] 128 bare_world
    = (Ok tt, w')
    /\ stdout w' = stdout bare_world ++ [NothingToRender]
    /\ (forall q, q ∈ parents_and_self ["out"; "iso"] ->
                  fs w' !! q = Some Dir)
    /\ (forall q, q ∉ parents_and_self ["out"; "iso"] ->
                  fs w' !! q = fs bare_world !! q).
Proof.
  apply (no_textures_nothing_to_render (fun l => l) (fun l => l) ["blocks"]
           ["out"; "iso"] 128 bare_world).
  - exact reorders_id.
  - exact reorders_id.
  - intros q c _. cbn [fs bare_world]. intros H.
    apply lookup_singleton_Some in H as [_ H]. discriminate.
  - reflexivity.
  - reflexivity.
  - intros q Hb _. cbn [fs bare_world]. apply lookup_singleton_None.
    intros <-. discriminate.
Defined.

(** ** Pixels of the compositor *)

(** X16: the sheared side face is as wide as the texture and half its
    height, as high as half its height, and its row [y] is drawn from
    row [y / 2] of the texture, shifted by half a pixel for each row:
    only the rows of the upper quarter of the texture appear, each
    twice. *)
Theorem sheared_pixels (side : Image) (shear : Q) :
  shear = shear_left \/ shear = shear_right ->
  0 <= width side -> 0 <= height side ->
  exists out,
    sheared side shear = Ok out
    /\ width out = width side + height side / 2
    /\ height out = height side / 2
    /\ forall x y,
        (0 <= y < height out -> 4 * (y / 2) + 2 <= height side)
        /\ exists c,
            (shear = shear_left /\ c = (4 * x - 2 * y + 1) / 4
             \/ shear = shear_right /\ c = (4 * x + 2 * y + 3) / 4)
            /\ px out x y
               = if inside side c (y / 2) then px side c (y / 2) else clear.
Proof.
  intros Hs Hw Hh.
  destruct (sheared_spec side shear Hs Hw Hh) as (out & E & Ew & Eh & _).
  exists out. split; [exact E|]. split; [exact Ew|]. split; [exact Eh|].
  intros x y. split.
  { rewrite Eh. intros Hy. Z.div_mod_to_equations. lia. }
  unfold sheared in E.
  pose proof (Z.div_pos (height side) 2 Hh ltac:(lia)) as H2.
  destruct (transform_affine_spec side (width out) (height out)
              (1, shear, 0, 0, 0.5, 0)%Q ltac:(lia) ltac:(lia))
    as (out' & E' & _ & _ & Hpx).
  assert (Eout : out' = out).
  { cbv zeta in E.
    assert (Ew' : py_int (inject_Z (width side)
                          + Qabs shear * inject_Z (height side))
                  = width out).
    { rewrite Ew. destruct Hs as [-> | ->];
        unfold py_int, shear_left, shear_right; cbn;
        rewrite Z.quot_div_nonneg by lia; Z.div_mod_to_equations; lia. }
    assert (Eh' : py_int (inject_Z (height side) * 0.5) = height out).
    { rewrite Eh. unfold py_int; cbn.
      rewrite Z.quot_div_nonneg by lia; Z.div_mod_to_equations; lia. }
    rewrite Ew', Eh' in E. congruence. }
  subst out'.
  assert (Ey : Qfloor (0 * (inject_Z x + (1 # 2))
                       + 0.5 * (inject_Z y + (1 # 2)) + 0) = y / 2).
  { cbn. Z.div_mod_to_equations. lia. }
  destruct Hs as [-> | ->].
  - exists ((4 * x - 2 * y + 1) / 4). split; [left; auto|].
    rewrite Hpx. cbv zeta beta iota. rewrite Ey.
    assert (Ex : Qfloor (1 * (inject_Z x + (1 # 2))
                         + shear_left * (inject_Z y + (1 # 2)) + 0)
                 = (4 * x - 2 * y + 1) / 4).
    { unfold shear_left. cbn. Z.div_mod_to_equations. lia. }
    now rewrite Ex.
  - exists ((4 * x + 2 * y + 3) / 4). split; [right; auto|].
    rewrite Hpx. cbv zeta beta iota. rewrite Ey.
    assert (Ex : Qfloor (1 * (inject_Z x + (1 # 2))
                         + shear_right * (inject_Z y + (1 # 2)) + 0)
                 = (4 * x + 2 * y + 3) / 4).
    { unfold shear_right. cbn. Z.div_mod_to_equations. lia. }
    now rewrite Ex.
Qed.

Lemma sheared_pixels_witness :
  exists out,
    sheared (dot 4 4) shear_left = Ok out
    /\ width out = width (dot 4 4) + height (dot 4 4) / 2
    /\ height out = height (dot 4 4) / 2
    /\ forall x y,
        (0 <= y < height out -> 4 * (y / 2) + 2 <= height (dot 4 4))
        /\ exists c,
            (shear_left = shear_left /\ c = (4 * x - 2 * y + 1) / 4
             \/ shear_left = shear_right /\ c = (4 * x + 2 * y + 3) / 4)
            /\ px out x y
               = if inside (dot 4 4) c (y / 2) then px (dot 4 4) c (y / 2)
                 else clear.
Proof.
  apply (sheared_pixels (dot 4 4) shear_left); [now left | cbn; lia ..].
Defined.

(** X17: the script's [alpha_composite] changes [dest] only under the
    pixels of [src] that are not transparent, and an opaque pixel of
    [src] replaces the pixel of [dest] that it covers. *)
Theorem alpha_composite_pixels (dest src : Image) (ox oy : Z) :
  0 <= width dest -> 0 <= height dest ->
  exists out,
    alpha_composite dest src (ox, oy) = Ok out
    /\ forall x y,
        (inside src (x - ox) (y - oy) = false -> px out x y = px dest x y)
        /\ (A (px src (x - ox) (y - oy)) = 0 -> px out x y = px dest x y)
        /\ (inside src (x - ox) (y - oy) = true ->
            wf_pixel (px src (x - ox) (y - oy)) ->
            A (px src (x - ox) (y - oy)) = 255 ->
            px out x y = px src (x - ox) (y - oy)).
Proof.
  intros Hw Hh. unfold alpha_composite.
  destruct (new_spec _ _ Hw Hh) as (tmp & -> & _ & _ & _ & Htmp).
  rewrite bind_Ok. eexists. split; [reflexivity|].
  intros x y. unfold alpha_composite_images, paste. cbn [px fst snd].
  rewrite Htmp. split; [|split].
  - intros ->. reflexivity.
  - intros Ha. destruct (inside src (x - ox) (y - oy)); [|reflexivity].
    unfold over. cbn [A]. rewrite Ha. reflexivity.
  - intros -> Hwf Ha.
    destruct (px src (x - ox) (y - oy)) as [r g b a].
    unfold wf_pixel in Hwf. cbn [R G B A clear] in *. subst a.
    destruct Hwf as (HR & HG & HB & HA).
    rewrite !blend_full by assumption.
    apply over_opaque_src; [|reflexivity].
    unfold wf_pixel. cbn [R G B A]. auto.
Qed.

Lemma alpha_composite_pixels_witness :
  exists out,
    alpha_composite (solid 3 3 (mkPixel 1 2 3 255)) (dot 2 2) (1, 1) = Ok out
    /\ forall x y,
        (inside (dot 2 2) (x - 1) (y - 1) = false ->
         px out x y = px (solid 3 3 (mkPixel 1 2 3 255)) x y)
        /\ (A (px (dot 2 2) (x - 1) (y - 1)) = 0 ->
            px out x y = px (solid 3 3 (mkPixel 1 2 3 255)) x y)
        /\ (inside (dot 2 2) (x - 1) (y - 1) = true ->
            wf_pixel (px (dot 2 2) (x - 1) (y - 1)) ->
            A (px (dot 2 2) (x - 1) (y - 1)) = 255 ->
            px out x y = px (dot 2 2) (x - 1) (y - 1)).
Proof.
  apply (alpha_composite_pixels (solid 3 3 (mkPixel 1 2 3 255)) (dot 2 2) 1 1);
    cbn; lia.
Defined.

(** X18: for a [size] below one, within the range of a C [int],
    [make_iso_cube] raises [ValueError] whatever the three textures are:
    the first resize refuses the size. *)
Theorem make_iso_cube_rejects_size (top_img left_img right_img : Image)
        (size : Z) :
  - 2147483648 <= size < 1 ->
  make_iso_cube top_img left_img right_img size = Raise ValueError.
Proof.
  intros [_ H]. unfold make_iso_cube, iso_canvas, nearest_resize.
  rewrite (resize_nearest_raises top_img size H). reflexivity.
Qed.

Lemma make_iso_cube_rejects_size_witness :
  make_iso_cube (dot 4 4) (dot 4 4) (dot 4 4) (-3) = Raise ValueError.
Proof.
  apply (make_iso_cube_rejects_size (dot 4 4) (dot 4 4) (dot 4 4) (-3)). lia.
Defined.

(** ** What the loop leaves behind *)

Lemma mkdir_from_keeps_file (done : Path) (rest : list string)
      (files files' : gmap Path node) (q : Path) (c : option Image) :
  mkdir_from done rest files = Ok files' ->
  files !! q = Some (File c) -> files' !! q = Some (File c).
Proof.
  intros Hm Hf. destruct (decide (q ∈ ancestors_from done rest)) as [Hq|Hq].
  - destruct (mkdir_from_blocked done rest files q c Hq Hf) as (e & E & _).
    congruence.
  - now rewrite (mkdir_from_frame _ _ _ _ Hm q Hq).
Qed.

(** One turn of the loop: it raises, or it warns and goes on, or it
    makes the directory of the mod, writes the image, prints the
    progress and goes on. *)
Lemma run_jobs_step (out_root : Path) (size total : Z) (modid base : string)
      (texmap : dict Path) (rest : list job) (done : Z) (w : World) :
  let run := run_jobs out_root size total ((modid, base, texmap) :: rest)
               done w in
  let out_path := joinpath out_root modid ++ [base +:+ ".png"] in
  (exists e w1, run = (Raise e, w1))
  \/ (exists e,
        run = run_jobs out_root size total rest (done + 1)
                (mkWorld (fs w) (stdout w ++ [LoadWarning modid base e])))
  \/ (exists iso files1,
        mkdir_from [] (joinpath out_root modid) (fs w) = Ok files1
        /\ run = run_jobs out_root size total rest (done + 1)
                   (mkWorld (<[out_path := File (Some iso)]> files1)
                      (stdout w
                       ++ [Progress (done + 1) total
                             ((done + 1) * 100 / total) modid base]))).
Proof.
  cbv zeta. cbn [run_jobs].
  unfold mbind, M_bind, bind, lift, try_except, ret, print.
  destruct (find_faces texmap) as [faces|]; [|left; eauto].
  pose proof (load_faces_world faces w) as Hw.
  destruct (load_faces faces w) as [[[[t l] r]|e] w1]; cbn in Hw; subst w1;
    [|right; left; eauto].
  destruct (make_iso_cube t l r size) as [iso|e]; [|left; eauto].
  unfold mkdir_parents.
  destruct (mkdir_from [] (joinpath out_root modid) (fs w)) as [files1|e];
    [|left; eauto].
  unfold save. cbn [fs stdout].
  destruct (has_extension
              (name (joinpath out_root modid ++ [base +:+ ".png"])));
    [|left; eauto].
  cbn [negb].
  destruct (lookup_node files1 (joinpath out_root modid ++ [base +:+ ".png"]))
    as [[|c]|]; [left; eauto| |];
    (destruct (lookup_node files1
                 (removelast (joinpath out_root modid ++ [base +:+ ".png"])))
       as [[|c']|]; [|left; eauto|left; eauto]);
    right; right; exists iso, files1; split; reflexivity.
Qed.

Lemma run_jobs_leaves (out_root : Path) (size total : Z) (jobs : list job) :
  forall (done : Z) (w : World) (d : Z) (w' : World),
    run_jobs out_root size total jobs done w = (Ok d, w') ->
    (forall q, (exists img, fs w !! q = Some (File (Some img))) ->
               exists img, fs w' !! q = Some (File (Some img)))
    /\ exists msgs,
        stdout w' = stdout w ++ msgs
        /\ forall modid base texmap,
            In (modid, base, texmap) jobs ->
            (exists e, In (LoadWarning modid base e) msgs)
            \/ exists img,
                fs w' !! (joinpath out_root modid ++ [base +:+ ".png"])
                = Some (File (Some img)).
Proof.
  induction jobs as [|[[modid base] texmap] jobs IH]; intros done w d w' Hrun.
  - cbn in Hrun. injection Hrun as <- <-. split; [auto|].
    exists []. rewrite app_nil_r. split; [reflexivity|]. intros ? ? ? [].
  - pose proof (run_jobs_step out_root size total modid base texmap jobs
                  done w) as Hstep.
    cbv zeta in Hstep.
    destruct Hstep as [(e & w1 & E) | [(e & E) | (iso & files1 & Em & E)]];
      pose proof (eq_trans (eq_sym E) Hrun) as Hrun'; clear Hrun E;
      [discriminate | |].
    + destruct (IH _ _ _ _ Hrun') as (Hkeep & msgs & Hst & Hjobs).
      cbn [fs stdout] in Hkeep, Hst. split; [exact Hkeep|].
      exists (LoadWarning modid base e :: msgs).
      split; [now rewrite Hst, <- app_assoc|].
      intros m b tm [[= <- <- <-] | Hin].
      * left. exists e. now left.
      * destruct (Hjobs m b tm Hin) as [(e' & He') | Hfile]; [|now right].
        left. exists e'. now right.
    + destruct (IH _ _ _ _ Hrun') as (Hkeep & msgs & Hst & Hjobs).
      cbn [fs stdout] in Hkeep, Hst.
      set (out_path := joinpath out_root modid ++ [base +:+ ".png"]) in *.
      split.
      * intros q (img & Hq). apply Hkeep.
        destruct (decide (q = out_path)) as [->|Hne].
        -- exists iso. apply lookup_insert_eq.
        -- exists img. rewrite lookup_insert_ne by congruence.
           exact (mkdir_from_keeps_file _ _ _ _ _ _ Em Hq).
      * eexists (_ :: msgs). split; [now rewrite Hst, <- app_assoc|].
        intros m b tm [[= <- <- <-] | Hin].
        -- right. apply Hkeep. exists iso. apply lookup_insert_eq.
        -- destruct (Hjobs m b tm Hin) as [(e' & He') | Hfile]; [|now right].
           left. exists e'. now right.
Qed.

(** X19: when the loop returns, every job has either been warned about
    or left an image at [out_root/modid/base.png], and every image file
    that was there before is still an image file. *)
Theorem run_jobs_renders (out_root : Path) (size total : Z) (jobs : list job)
        (done : Z) (w : World) (d : Z) :
  fst (run_jobs out_root size total jobs done w) = Ok d ->
  let w' := snd (run_jobs out_root size total jobs done w) in
  (forall q, (exists img, fs w !! q = Some (File (Some img))) ->
             exists img, fs w' !! q = Some (File (Some img)))
  /\ exists msgs,
      stdout w' = stdout w ++ msgs
      /\ forall modid base texmap,
          In (modid, base, texmap) jobs ->
          (exists e, In (LoadWarning modid base e) msgs)
          \/ exists img,
              fs w' !! (joinpath out_root modid ++ [base +:+ ".png"])
              = Some (File (Some img)).
Proof.
  intros Hd. cbv zeta.
  apply (run_jobs_leaves out_root size total jobs done w d).
  destruct (run_jobs out_root size total jobs done w) as [r w'].
  cbn in *. now subst r.
Qed.

Lemma run_jobs_renders_witness :
  let jobs :=
    [("m", "stone", [("stone_top", ["blocks"; "m"; "stone_top.png"]);
                     ("stone_side", ["blocks"; "m"; "stone_side.png"])]);
     ("m", "zinc", [("zinc", ["blocks"; "m"; "zinc.png"])])] in
  let w' := snd (run_jobs ["out"] 2 2 jobs 0 two_jobs_world) in
  (forall q, (exists img, fs two_jobs_world !! q = Some (File (Some img))) ->
             exists img, fs w' !! q = Some (File (Some img)))
  /\ exists msgs,
      stdout w' = stdout two_jobs_world ++ msgs
      /\ forall modid base texmap,
          In (modid, base, texmap) jobs ->
          (exists e, In (LoadWarning modid base e) msgs)
          \/ exists img,
              fs w' !! (joinpath ["out"] modid ++ [base +:+ ".png"])
              = Some (File (Some img)).
Proof.
  cbv zeta.
  apply (run_jobs_renders ["out"] 2 2 _ 0 two_jobs_world 2).
  vm_compute. reflexivity.
Defined.

(** X20: a [blocks_dir] that is a file passes the test of existence and
    makes [iterdir] raise: [main] ends with [NotADirectoryError] after
    [out_dir] was made, and prints nothing. *)
Theorem blocks_root_is_a_file
        (io wo : list Path -> list Path) (blocks_root out_root : Path)
        (size : Z) (w : World) (c : option Image) :
  (forall q c, q ∈ parents_and_self out_root -> fs w !! q <> Some (File c)) ->
  lookup_node (fs w) blocks_root = Some (File c) ->
  exists w',
    main io wo blocks_root out_root size w = (Raise NotADirectoryError, w')
    /\ stdout w' = stdout w
    /\ (forall q, q ∈ parents_and_self out_root -> fs w' !! q = Some Dir).
Proof.
  intros Hfree Hroot.
  destruct (mkdir_from_spec [] out_root (fs w) Hfree)
    as (files' & Em & Hin & Hfr).
  fold (parents_and_self out_root) in Hin, Hfr.
  assert (Hroot' : lookup_node files' blocks_root = Some (File c)).
  { destruct blocks_root as [|b bs]; [discriminate|].
    cbn [lookup_node] in *. rewrite Hfr; [exact Hroot|].
    intros Hq. exact (Hfree _ _ Hq Hroot). }
  exists (mkWorld files' (stdout w)).
  split; [|split; [reflexivity | exact Hin]].
  unfold main, mbind, M_bind, bind, mkdir_parents, get_fs, lift.
  rewrite Em. cbn [fs stdout]. unfold path_exists. rewrite Hroot'.
  cbn [negb]. unfold plan_jobs, iterdir. rewrite Hroot'. reflexivity.
Qed.

Lemma blocks_root_is_a_file_witness :
  exists w',
    main (fun l => l) (fun l => l) ["blocks"; "m"; "zinc.png"] ["out"] 128
         two_jobs_world
    = (Raise NotADirectoryError, w')
    /\ stdout w' = stdout two_jobs_world
    /\ (forall q, q ∈ parents_and_self ["out"] -> fs w' !! q = Some Dir).
Proof.
  apply (blocks_root_is_a_file (fun l => l) (fun l => l)
           ["blocks"; "m"; "zinc.png"] ["out"] 128 two_jobs_world None).
  - intros q c Hq. unfold parents_and_self in Hq. cbn in Hq.
    apply list_elem_of_singleton in Hq. subst q. vm_compute. discriminate.
  - reflexivity.
Defined.

(** ** Which directories are scanned *)

Lemma In_collect_textures (wo : list Path -> list Path)
      (files : gmap Path node) (moddir : Path) (k : string) (p : Path) :
  reorders wo ->
  In (k, p) (collect_textures_in_moddir wo files moddir) ->
  is_below moddir p = true.
Proof.
  intros Hwo Hin. unfold collect_textures_in_moddir in Hin.
  destruct (collect_invariant (sorted (rglob_png wo files moddir)) []
              (rglob_png wo files moddir)) as [_ Hall].
  - constructor.
  - intros ? ? [].
  - intros q. apply In_sorted.
  - destruct (Hall k p Hin) as [_ Hp].
    now destruct (In_rglob_png wo files moddir p Hwo Hp) as [Hb _].
Qed.

(** X21: as soon as [blocks_dir] has one subdirectory, only the
    subdirectories are scanned: every texture of every job lies below
    the subdirectory that names the mod of the job, and the textures
    that lie in [blocks_dir] itself are left out. *)
Theorem loose_textures_skipped
        (io wo : list Path -> list Path) (files : gmap Path node)
        (blocks_root sub : Path) (jobs : list job) :
  reorders io -> reorders wo ->
  is_child blocks_root sub = true -> files !! sub = Some Dir ->
  plan_jobs io wo files blocks_root = Ok jobs ->
  forall modid base texmap stem_ p,
    In (modid, base, texmap) jobs -> In (stem_, p) texmap ->
    is_child blocks_root p = false
    /\ exists moddir,
        is_child blocks_root moddir = true /\ is_dir files moddir = true
        /\ modid = name moddir /\ is_below moddir p = true.
Proof.
  intros Hio Hwo Hsub Hdir Hplan modid base texmap stem_ p Hjob Htex.
  unfold plan_jobs, iterdir in Hplan.
  destruct (lookup_node files blocks_root) as [[|c]|]; try discriminate.
  rewrite bind_Ok in Hplan. injection Hplan as <-.
  set (l := List.filter (is_child blocks_root) (map fst (map_to_list files)))
    in *.
  assert (Hsubdir : is_dir files sub = true).
  { unfold is_dir, lookup_node. destruct sub; [reflexivity|].
    now rewrite Hdir. }
  assert (Hl : In sub (List.filter (is_dir files) (io l))).
  { apply filter_In. split; [|exact Hsubdir].
    apply list_elem_of_In. rewrite (Hio l). apply list_elem_of_In.
    apply filter_In. split; [|exact Hsub].
    apply in_map_iff. exists (sub, Dir). split; [reflexivity|].
    apply list_elem_of_In, elem_of_map_to_list. exact Hdir. }
  destruct (List.filter (is_dir files) (io l)) as [|d1 ds] eqn:E;
    [destruct Hl|].
  rewrite <- E in Hjob. clear Hl.
  apply in_concat in Hjob as (js & Hjs & Hjob).
  apply in_map_iff in Hjs as (moddir & <- & Hmod).
  apply filter_In in Hmod as [Hmod Hmd].
  apply list_elem_of_In in Hmod. rewrite (Hio l) in Hmod.
  apply list_elem_of_In, filter_In in Hmod as [_ Hchild].
  apply In_jobs_of_moddir in Hjob as [-> Hgrp].
  destruct (group_textures_sound
              (collect_textures_in_moddir wo files moddir) []
              (collect_textures_in_moddir wo files moddir))
    as [_ Hg]; [auto | constructor | intros b tm [] |].
  destruct (Hg base texmap Hgrp) as [_ Hin].
  destruct (Hin stem_ p Htex) as [_ Hp].
  pose proof (In_collect_textures wo files moddir stem_ p Hwo Hp) as Hb.
  split; [|exists moddir; auto].
  unfold is_child in *. unfold is_below in Hb.
  apply andb_true_iff in Hchild as [_ Hlen]. apply Nat.eqb_eq in Hlen.
  apply andb_true_iff in Hb as [_ Hlt]. apply Nat.ltb_lt in Hlt.
  apply andb_false_iff. right. apply Nat.eqb_neq. lia.
Qed.

Lemma loose_textures_skipped_witness :
  is_child ["blocks"] ["blocks"; "m"; "stone_top.png"] = false
  /\ exists moddir,
      is_child ["blocks"] moddir = true
      /\ is_dir (fs two_jobs_world) moddir = true
      /\ "m" = name moddir
      /\ is_below moddir ["blocks"; "m"; "stone_top.png"] = true.
Proof.
  eapply (loose_textures_skipped (fun l => l) (fun l => l)
            (fs two_jobs_world) ["blocks"] ["blocks"; "m"] _
            reorders_id reorders_id).
  - reflexivity.
  - vm_compute. reflexivity.
  - vm_compute. reflexivity.
  - left. reflexivity.
  - right. left. reflexivity.
Defined.

(** X22: a [blocks_dir] without a subdirectory is scanned as one mod,
    named after the directory itself. *)
Theorem flat_blocks_dir_is_one_mod
        (io wo : list Path -> list Path) (files : gmap Path node)
        (blocks_root : Path) :
  reorders io ->
  lookup_node files blocks_root = Some Dir ->
  (forall q, is_child blocks_root q = true -> files !! q <> Some Dir) ->
  plan_jobs io wo files blocks_root
  = Ok (jobs_of_moddir wo files blocks_root)
  /\ forall modid base texmap,
      In (modid, base, texmap) (jobs_of_moddir wo files blocks_root) ->
      modid = name blocks_root.
Proof.
  intros Hio Hroot Hflat. split.
  - unfold plan_jobs, iterdir. rewrite Hroot, bind_Ok.
    rewrite filter_none.
    + cbn. now rewrite app_nil_r.
    + intros q Hq. apply list_elem_of_In in Hq. rewrite (Hio _) in Hq.
      apply list_elem_of_In, filter_In in Hq as [_ Hq].
      unfold is_dir, lookup_node.
      destruct q as [|a q];
        [unfold is_child in Hq; cbn in Hq; rewrite andb_false_r in Hq;
         discriminate|].
      specialize (Hflat _ Hq). unfold Path in *.
      destruct (files !! (a :: q)) as [[|c]|]; congruence.
  - intros modid base texmap Hin.
    now apply In_jobs_of_moddir in Hin as [-> _].
Qed.

(** A directory of textures without a directory of a mod. *)
Definition flat_world : World :=
  mkWorld (<[ ["tex"] := Dir ]> {[ ["tex"; "stone.png"] := File None ]}) [].

Lemma flat_blocks_dir_is_one_mod_witness :
  plan_jobs (fun l => l) (fun l => l) (fs flat_world) ["tex"]
  = Ok (jobs_of_moddir (fun l => l) (fs flat_world) ["tex"])
  /\ forall modid base texmap,
      In (modid, base, texmap)
         (jobs_of_moddir (fun l => l) (fs flat_world) ["tex"]) ->
      modid = name ["tex"].
Proof.
  apply (flat_blocks_dir_is_one_mod (fun l => l) (fun l => l)
           (fs flat_world) ["tex"]).
  - exact reorders_id.
  - vm_compute. reflexivity.
  - intros q Hq. cbn [fs flat_world]. intros H.
    apply lookup_insert_Some in H as [[<- _] | [_ H]]; [discriminate|].
    apply lookup_singleton_Some in H as [_ H]. discriminate.
Defined.

(** ** A job without a name *)

Lemma has_extension_png (base : string) :
  has_extension (base +:+ ".png") = negb (only_dots base).
Proof.
  unfold has_extension.
  rewrite (rfind_app "." base ".png" 0 eq_refl), Nat.add_0_r, take_app.
  reflexivity.
Qed.

(** A texture that is named by a direction only. *)
Definition nameless_world : World :=
  mkWorld
    (list_to_map
       [(["blocks"], Dir); (["blocks"; "m"], Dir);
        (["blocks"; "m"; "_top.png"],
         File (Some (solid 2 2 (mkPixel 10 20 30 255))))])
    [].

(** X27: a job whose base identifier is empty or made of dots only
    cannot be saved: its textures are loaded, the directory of the mod is
    made, and [save] raises [ValueError] for the file name [.png], which
    has no extension; the error is not caught, so the jobs that remain are
    not run and nothing is printed. *)
Theorem nameless_job_aborts
        (out_root : Path) (size total : Z) (modid base : string)
        (texmap : dict Path) (rest : list job) (done : Z) (w : World)
        (faces : Faces) (top_img left_img right_img : Image)
        (files1 : gmap Path node) :
  find_faces texmap = Some faces ->
  fst (load_faces faces w) = Ok (top_img, left_img, right_img) ->
  1 <= size ->
  mkdir_from [] (joinpath out_root modid) (fs w) = Ok files1 ->
  only_dots base = true ->
  run_jobs out_root size total ((modid, base, texmap) :: rest) done w
  = (Raise ValueError, mkWorld files1 (stdout w)).
Proof.
  intros Hf Hl Hs Hm Hd.
  pose proof (load_faces_world faces w) as Hw.
  destruct (iso_canvas_spec top_img left_img right_img size Hs)
    as (canvas & Ec & _).
  cbn [run_jobs]. rewrite Hf.
  unfold mbind, M_bind, bind, lift, try_except, ret, print.
  destruct (load_faces faces w) as [r0 w1]. cbn in Hl, Hw. subst r0 w1.
  unfold make_iso_cube. rewrite Ec, bind_Ok.
  unfold mkdir_parents. rewrite Hm.
  unfold save. rewrite name_snoc, has_extension_png, Hd. reflexivity.
Qed.

Lemma nameless_job_aborts_witness :
  exists files1,
    run_jobs ["out"] 2 1
      [("m", "", [("_top", ["blocks"; "m"; "_top.png"])])] 0 nameless_world
    = (Raise ValueError, mkWorld files1 (stdout nameless_world)).
Proof.
  eexists.
  eapply (nameless_job_aborts ["out"] 2 1 "m" ""
            [("_top", ["blocks"; "m"; "_top.png"])] [] 0 nameless_world).
  - reflexivity.
  - vm_compute. reflexivity.
  - lia.
  - vm_compute. reflexivity.
  - reflexivity.
Defined.

(** The file [_top.png] gives such a job: its stem is the suffix alone,
    the base identifier is empty, and [main] ends with [ValueError]. *)
Example nameless_texture_aborts_main :
  (jobs ← plan_jobs (fun l => l) (fun l => l) (fs nameless_world) ["blocks"];
   Ok (map (fun j => snd (fst j)) jobs)) = Ok [""]
  /\ fst (main (fun l => l) (fun l => l) ["blocks"] ["out"] 2 nameless_world)
     = Raise ValueError
  /\ stdout (snd (main (fun l => l) (fun l => l) ["blocks"] ["out"] 2
                   nameless_world)) = [].
Proof. repeat split; vm_compute; reflexivity. Qed.

(** ** Resource names of the extractor

    [sanitize] of [extract_textures.py].  A name is the sequence of its
    bytes in UTF-8: every byte of a character outside of ASCII lies
    outside of the set of the pattern, and the bytes of one character
    follow each other, so that runs of bytes and runs of characters are
    replaced alike. *)

(** The set [[A-Za-z0-9._/-]]. *)
Definition allowed (c : ascii) : bool :=
  let n := nat_of_ascii c in
  ((65 <=? n) && (n <=? 90) || (97 <=? n) && (n <=? 122)
   || (48 <=? n) && (n <=? 57)
   || (n =? 46) || (n =? 95) || (n =? 47) || (n =? 45))%nat.

(** [re.sub(r"[^A-Za-z0-9._/-]+", "_", name)], from left to right:
    [in_run] tells that the run of bytes outside of the set that is being
    read was replaced already. *)
Fixpoint sanitize_from (in_run : bool) (name : string) : string :=
  match name with
  | "" => ""
  | String c rest =>
      if allowed c then String c (sanitize_from false rest)
      else if in_run then sanitize_from true rest
           else String "_" (sanitize_from true rest)
  end.

Definition sanitize (name : string) : string := sanitize_from false name.

Fixpoint all_allowed (s : string) : bool :=
  match s with
  | "" => true
  | String c rest => allowed c && all_allowed rest
  end.

Example sanitize_example :
  sanitize "block/Old Stone (2).png" = "block/Old_Stone_2_.png".
Proof. reflexivity. Qed.

Lemma sanitize_from_allowed (in_run : bool) (name : string) :
  all_allowed (sanitize_from in_run name) = true.
Proof.
  revert in_run. induction name as [|c rest IH]; intros in_run; cbn;
    [reflexivity|].
  destruct (allowed c) eqn:E; cbn; [now rewrite E, IH|].
  destruct in_run; cbn; [apply IH|]. apply IH.
Qed.

Lemma sanitize_from_length (in_run : bool) (name : string) :
  (String.length (sanitize_from in_run name) <= String.length name)%nat.
Proof.
  revert in_run. induction name as [|c rest IH]; intros in_run; cbn; [lia|].
  destruct (allowed c); cbn.
  - pose proof (IH false). lia.
  - destruct in_run; cbn; pose proof (IH true); lia.
Qed.

(** X23: a sanitized name is made of letters, digits and [. _ / -] only,
    and is not longer than the name. *)
Theorem sanitize_allowed (name : string) :
  all_allowed (sanitize name) = true
  /\ (String.length (sanitize name) <= String.length name)%nat.
Proof.
  split; [apply sanitize_from_allowed | apply sanitize_from_length].
Qed.

Lemma sanitize_from_clean (in_run : bool) (name : string) :
  all_allowed name = true -> sanitize_from in_run name = name.
Proof.
  revert in_run. induction name as [|c rest IH]; intros in_run; cbn;
    [reflexivity|].
  rewrite andb_true_iff. intros [-> H]. now rewrite IH.
Qed.

(** X24: [sanitize] leaves a name as it is exactly when the name is made
    of letters, digits and [. _ / -] only (the parent directory [..]
    among them), and sanitizing twice is sanitizing once. *)
Theorem sanitize_fixed_point (name : string) :
  (sanitize name = name <-> all_allowed name = true)
  /\ sanitize (sanitize name) = sanitize name.
Proof.
  split; [split|].
  - intros E. rewrite <- E. apply sanitize_from_allowed.
  - apply sanitize_from_clean.
  - apply sanitize_from_clean, sanitize_from_allowed.
Qed.

Lemma sanitize_from_slash (in_run : bool) (dir rest : string) :
  sanitize_from in_run (dir +:+ "/" +:+ rest)
  = sanitize_from in_run dir +:+ "/" +:+ sanitize rest.
Proof.
  revert in_run. induction dir as [|c dir IH]; intros in_run.
  - reflexivity.
  - rewrite Str.app_cons. cbn [sanitize_from].
    destruct (allowed c); [now rewrite IH, Str.app_cons|].
    destruct in_run; [apply IH|]. now rewrite IH, Str.app_cons.
Qed.

(** X25: [sanitize] keeps every separator [/] and works on each
    component of the name by itself: the directories of a resource stay
    directories. *)
Theorem sanitize_components (dir rest : string) :
  sanitize (dir +:+ "/" +:+ rest) = sanitize dir +:+ "/" +:+ sanitize rest.
Proof. apply sanitize_from_slash. Qed.

Lemma sanitize_from_collides (in_run : bool) (a b : string) (c1 c2 : ascii) :
  allowed c1 = false -> allowed c2 = false ->
  sanitize_from in_run (a +:+ String c1 b)
  = sanitize_from in_run (a +:+ String c2 b)
  /\ sanitize_from in_run (a +:+ String c1 (String c2 b))
     = sanitize_from in_run (a +:+ String c1 b).
Proof.
  intros H1 H2. revert in_run. induction a as [|c a IH]; intros in_run.
  - rewrite !Str.app_nil_l. cbn [sanitize_from]. rewrite H1, H2.
    destruct in_run; auto.
  - rewrite !Str.app_cons. cbn [sanitize_from].
    destruct (allowed c); [|destruct in_run].
    + destruct (IH false) as [-> ->]. auto.
    + destruct (IH true) as [-> ->]. auto.
    + destruct (IH true) as [-> ->]. auto.
Qed.

(** X26: [sanitize] does not tell apart two names that differ in one
    byte outside of the set, nor a run of such bytes from one of them:
    resources with such names are written to one file. *)
Theorem sanitize_collides (a b : string) (c1 c2 : ascii) :
  allowed c1 = false -> allowed c2 = false ->
  sanitize (a +:+ String c1 b) = sanitize (a +:+ String c2 b)
  /\ sanitize (a +:+ String c1 (String c2 b)) = sanitize (a +:+ String c1 b).
Proof. apply sanitize_from_collides. Qed.

Lemma sanitize_collides_witness :
  sanitize ("block/a" +:+ String " " "b.png")
  = sanitize ("block/a" +:+ String "+" "b.png")
  /\ sanitize ("block/a" +:+ String " " (String "+" "b.png"))
     = sanitize ("block/a" +:+ String " " "b.png").
Proof.
  apply (sanitize_collides "block/a" "b.png" " " "+"); reflexivity.
Defined.
